(** * leveldbbench: key-space generator, phase runner, readers and recorder

    A shallow embedding of the benchmark harness of [leveldbbench] (the
    second Go file of [src/docutil/doc.go]) and the properties of its key
    generator, its known-key registry, its read loops, its phase script,
    its result records and its admission pool.

    The harness is a state-passing program over the store, the
    package-level variables [knownKeys] and [randSrc], the clock, a log
    of the calls made on the backend and the Go runtime, which decides
    at every step which goroutine moves.  [writeData] and [readRandom],
    whose tasks read variables that the launching loop goes on writing,
    are run as the interleaving of the loop and its tasks that the
    scheduler picks, one atomic step at a time; the skeleton of pool and
    wait group they share with [readSeq] is studied apart, in
    [Executor].  A loop that need not end takes a number of passes and
    answers [Running] when they are used up.  The progress bar and the
    log lines other than [log.Fatal] are left out, and so are the
    opening of the store before the first phase and the serialisation of
    the records after the last one. *)

From Stdlib Require Import ZArith List Lia Bool.
From Stdlib Require Import Strings.Byte.
From Stdlib Require Import Floats.SpecFloat.
From stdpp Require Import base gmap strings list fin_maps.

Local Open Scope Z_scope.

(** ** Machine integers *)

(** Go's [uint64]: an integer kept in [0, 2^64) by wrap-around. *)
Definition wrap64 (z : Z) : Z := z mod 2 ^ 64.
Definition wrap32 (z : Z) : Z := z mod 2 ^ 32.

(** [math.MaxUint64] of go-ethereum's [common/math]: [1<<64 - 1]. *)
Definition MaxUint64 : Z := 2 ^ 64 - 1.

Definition add64 (a b : Z) : Z := wrap64 (a + b).
Definition sub64 (a b : Z) : Z := wrap64 (a - b).
Definition mul64 (a b : Z) : Z := wrap64 (a * b).

(** ** Bytes *)

(** The conversion [byte(x)] of Go: the low eight bits of [x]. *)
Definition byte_of_Z (z : Z) : byte :=
  match Byte.of_N (Z.to_N (z mod 256)) with
  | Some b => b
  | None => x00
  end.

Definition Z_of_byte (b : byte) : Z := Z.of_N (Byte.to_N b).

(** [make([]byte, n, n)]: [n] zero bytes. *)
Definition make_bytes (n : Z) : list byte := replicate (Z.to_nat n) x00.

(** ** encoding/binary *)

(** The eight bytes of a [uint64], most significant first:
    [byte(v >> 56)], ..., [byte(v)]. *)
Definition be_bytes64 (v : Z) : list byte :=
  [ byte_of_Z (Z.shiftr v 56); byte_of_Z (Z.shiftr v 48);
    byte_of_Z (Z.shiftr v 40); byte_of_Z (Z.shiftr v 32);
    byte_of_Z (Z.shiftr v 24); byte_of_Z (Z.shiftr v 16);
    byte_of_Z (Z.shiftr v 8);  byte_of_Z v ].

(** The eight bytes of a [uint64], least significant first. *)
Definition le_bytes64 (v : Z) : list byte :=
  [ byte_of_Z v;               byte_of_Z (Z.shiftr v 8);
    byte_of_Z (Z.shiftr v 16); byte_of_Z (Z.shiftr v 24);
    byte_of_Z (Z.shiftr v 32); byte_of_Z (Z.shiftr v 40);
    byte_of_Z (Z.shiftr v 48); byte_of_Z (Z.shiftr v 56) ].

(** [binary.BigEndian.PutUint64(b, v)]: the early bounds check [_ = b[7]]
    panics on a buffer shorter than eight bytes ([None]); otherwise the
    first eight bytes are overwritten and the rest of [b] is kept. *)
Definition BigEndian_PutUint64 (b : list byte) (v : Z) : option (list byte) :=
  if (length b <? 8)%nat then None else Some (be_bytes64 v ++ drop 8 b).

(** [binary.LittleEndian.PutUint64(b, v)], with the same bounds check. *)
Definition LittleEndian_PutUint64 (b : list byte) (v : Z) : option (list byte) :=
  if (length b <? 8)%nat then None else Some (le_bytes64 v ++ drop 8 b).

(** The number a byte string denotes when read most significant byte
    first, and when read least significant byte first. *)
Definition be_value (l : list byte) : Z :=
  fold_left (fun acc b => acc * 256 + Z_of_byte b) l 0.

Definition le_value (l : list byte) : Z :=
  fold_right (fun b acc => Z_of_byte b + 256 * acc) 0 l.

(** ** crypto/sha1

    [sha1.Sum] of the Go standard library (FIPS 180-4, SHA-1), on 32-bit
    words kept in [Z]. *)
Module sha1.

Definition Size : Z := 20.
Definition BlockSize : Z := 64.

Definition rotl (n : Z) (x : Z) : Z :=
  Z.lor (wrap32 (Z.shiftl x n)) (Z.shiftr x (32 - n)).

(** A 32-bit word as four bytes, most significant first. *)
Definition be32_bytes (w : Z) : list byte :=
  [ byte_of_Z (Z.shiftr w 24); byte_of_Z (Z.shiftr w 16);
    byte_of_Z (Z.shiftr w 8);  byte_of_Z w ].

Definition be64_bytes (w : Z) : list byte :=
  be32_bytes (Z.shiftr w 32) ++ be32_bytes w.

Definition be32_word (b0 b1 b2 b3 : byte) : Z :=
  Z.lor (Z.shiftl (Z_of_byte b0) 24)
 (Z.lor (Z.shiftl (Z_of_byte b1) 16)
 (Z.lor (Z.shiftl (Z_of_byte b2) 8) (Z_of_byte b3))).

(** The message followed by [0x80], zero bytes up to 56 modulo 64, and
    the bit length as a 64-bit big-endian integer. *)
Definition pad (msg : list byte) : list byte :=
  let len := Z.of_nat (length msg) in
  let zeros := (55 - len) mod 64 in
  msg ++ x80 :: make_bytes zeros ++ be64_bytes (wrap64 (len * 8)).

Fixpoint words (n : nat) (bs : list byte) : list Z :=
  match n, bs with
  | S n', b0 :: b1 :: b2 :: b3 :: rest => be32_word b0 b1 b2 b3 :: words n' rest
  | _, _ => []
  end.

(** The message schedule, newest word first: [w] holds
    [w(t-1), w(t-2), ...]. *)
Fixpoint schedule (n : nat) (w : list Z) : list Z :=
  match n with
  | O => w
  | S n' =>
      let x := Z.lxor (Z.lxor (nth 2 w 0) (nth 7 w 0))
                      (Z.lxor (nth 13 w 0) (nth 15 w 0)) in
      schedule n' (rotl 1 x :: w)
  end.

Record digest := Digest { h0 : Z; h1 : Z; h2 : Z; h3 : Z; h4 : Z }.

Definition init : digest :=
  Digest 0x67452301 0xEFCDAB89 0x98BADCFE 0x10325476 0xC3D2E1F0.

Definition round_f (t : nat) (b c d : Z) : Z :=
  if (t <? 20)%nat then Z.lor (Z.land b c) (Z.land (Z.lxor b 0xFFFFFFFF) d)
  else if (t <? 40)%nat then Z.lxor (Z.lxor b c) d
  else if (t <? 60)%nat then
    Z.lor (Z.lor (Z.land b c) (Z.land b d)) (Z.land c d)
  else Z.lxor (Z.lxor b c) d.

Definition round_k (t : nat) : Z :=
  if (t <? 20)%nat then 0x5A827999
  else if (t <? 40)%nat then 0x6ED9EBA1
  else if (t <? 60)%nat then 0x8F1BBCDC
  else 0xCA62C1D6.

Fixpoint rounds (t : nat) (ws : list Z) (s : digest) : digest :=
  match ws with
  | [] => s
  | w :: ws' =>
      let '(Digest a b c d e) := s in
      let tmp := wrap32 (rotl 5 a + round_f t b c d + e + w + round_k t) in
      rounds (S t) ws' (Digest tmp a (rotl 30 b) c d)
  end.

Definition block (s : digest) (chunk : list byte) : digest :=
  let ws := rev (schedule 64 (rev (words 16 chunk))) in
  let '(Digest a b c d e) := rounds 0 ws s in
  Digest (wrap32 (h0 s + a)) (wrap32 (h1 s + b)) (wrap32 (h2 s + c))
         (wrap32 (h3 s + d)) (wrap32 (h4 s + e)).

Fixpoint blocks (n : nat) (s : digest) (bs : list byte) : digest :=
  match n with
  | O => s
  | S n' => blocks n' (block s (take 64 bs)) (drop 64 bs)
  end.

(** [sha1.Sum(data)]: the 20-byte digest. *)
Definition Sum (data : list byte) : list byte :=
  let p := pad data in
  let s := blocks (length p / 64)%nat init p in
  be32_bytes (h0 s) ++ be32_bytes (h1 s) ++ be32_bytes (h2 s)
    ++ be32_bytes (h3 s) ++ be32_bytes (h4 s).

End sha1.

(** ** Configuration

    The flag values of [init]; they are read-only once the flags are
    parsed.  The limits, the sizes and the key size are [uint64], the
    degree of parallelism is a [uint8]. *)
Record Config := {
  smallFillLimit : Z;
  largeFillLimit : Z;
  noWriteMerge : bool;
  syncWrites : bool;
  dontFillCache : bool;
  readStrict : bool;
  keySize : Z;
  smallValueSize : Z;
  largeValueSize : Z;
  degreeOfParallelism : Z;
  readLimit : Z
}.

(** The defaults declared in [init]. *)
Definition defaultConfig : Config := {|
  smallFillLimit := 1000000;
  largeFillLimit := 2000;
  noWriteMerge := false;
  syncWrites := false;
  dontFillCache := false;
  readStrict := false;
  keySize := 8;
  smallValueSize := 32;
  largeValueSize := 102400;
  degreeOfParallelism := 1;
  readLimit := 10000000
|}.

(** ** The shared random source

    [randSrc.Read(p)] fills [p] with the next [len(p)] bytes of the byte
    stream of the seeded generator; bytes left over from the last 63-bit
    draw are kept for the next call, so the calls consume one stream. *)
Record Rand := {
  stream : nat -> byte;
  readPos : nat
}.

Definition Rand_Read (r : Rand) (n : nat) : list byte * Rand :=
  (map (stream r) (seq (readPos r) n),
   {| stream := stream r; readPos := (readPos r + n)%nat |}).

(** ** The package-level variables written by [makeKV] *)
Record Globals := {
  knownKeys : gmap string (list byte);
  randSrc : Rand
}.

(** Every entry of the registry is stored under the string of its own
    bytes. *)
Definition self_valued (m : gmap string (list byte)) : Prop :=
  forall s v, m !! s = Some v -> s = String.string_of_list_byte v.

(** The registry after the keys [ks] have been registered in turn. *)
Definition register_all (ks : list (list byte)) (m : gmap string (list byte))
  : gmap string (list byte) :=
  foldl (fun m k => <[String.string_of_list_byte k := k]> m) m ks.

(** A run-time panic of the Go runtime. *)
Inductive PanicKind :=
| IndexOutOfRange
| SliceBoundsOutOfRange.

Inductive Result (A : Type) :=
| Done (a : A)
| Panics (p : PanicKind).
Arguments Done {A} a.
Arguments Panics {A} p.

Definition panics {A} (r : Result A) : bool :=
  match r with Panics _ => true | Done _ => false end.

(** ** makeKV *)

(** The key of [makeKV]: the part of the function before the registry is
    touched.  Allocation is assumed to succeed. *)
Definition makeKey (cfg : Config) (seed : Z) (sequential : bool)
  : Result (list byte) :=
  let tmpKey := make_bytes (keySize cfg) in
  if sequential then
    match BigEndian_PutUint64 tmpKey (sub64 MaxUint64 seed) with
    | None => Panics IndexOutOfRange
    | Some tmpKey => Done tmpKey
    end
  else
    match LittleEndian_PutUint64 tmpKey seed with
    | None => Panics IndexOutOfRange
    | Some tmpKey =>
        let hashedKey := sha1.Sum tmpKey in
        if Z.of_nat (length hashedKey) <? keySize cfg
        then Panics SliceBoundsOutOfRange
        else Done (take (Z.to_nat (keySize cfg)) hashedKey)
    end.

Definition makeKV (cfg : Config) (g : Globals) (seed valueSize : Z)
  (sequential : bool) : Result (list byte * list byte * Globals) :=
  match makeKey cfg seed sequential with
  | Panics p => Panics p
  | Done tmpKey =>
      let known := <[String.string_of_list_byte tmpKey := tmpKey]> (knownKeys g) in
      let '(tmpValue, r) := Rand_Read (randSrc g) (Z.to_nat valueSize) in
      Done (tmpKey, tmpValue, {| knownKeys := known; randSrc := r |})
  end.

(** The key returned by a call, with the registry and the random source
    forgotten. *)
Definition key_of (r : Result (list byte * list byte * Globals))
  : Result (list byte) :=
  match r with
  | Done (k, _, _) => Done k
  | Panics p => Panics p
  end.

(** The values [i] takes in [for ; i < lim; i = i + 1] of [writeData],
    with [lim := writeLimit + startIndex] computed in [uint64]: the
    integers from [startIndex] up to [lim], none when [lim] is not above
    [startIndex]; no step of the loop wraps around. *)
Definition write_indices (startIndex writeLimit : Z) : list Z :=
  let lim := add64 writeLimit startIndex in
  seqZ startIndex (lim - startIndex).

(** ** time

    A [time.Time] read by [time.Now] is kept as its monotonic clock
    reading, an [int64] count of nanoseconds; [time.Duration] is an
    [int64] count of nanoseconds as well. *)
Definition Time := Z.
Definition Duration := Z.

Definition minDuration : Duration := - 2 ^ 63.
Definition maxDuration : Duration := 2 ^ 63 - 1.
Definition Second : Duration := 1000000000.

(** Conversion to [int64]: two's complement wrap-around. *)
Definition wrapInt64 (z : Z) : Z := (z + 2 ^ 63) mod 2 ^ 64 - 2 ^ 63.

(** [Time.Sub] on two monotonic readings ([subMono]): the difference,
    saturated at the ends of [Duration]. *)
Definition Time_Sub (t u : Time) : Duration :=
  let d := wrapInt64 (t - u) in
  if (d <? 0) && (u <? t) then maxDuration
  else if (0 <? d) && (t <? u) then minDuration
  else d.

(** ** float64

    IEEE 754 binary64 with round-to-nearest-even, as [spec_float]. *)
Definition float64 := spec_float.
Definition prec64 : Z := 53.
Definition emax64 : Z := 1024.

(** The conversion [float64(n)] of an integer. *)
Definition float64_of_Z (n : Z) : float64 :=
  binary_normalize prec64 emax64 n 0 false.

Definition float64_add : float64 -> float64 -> float64 := SFadd prec64 emax64.
Definition float64_div : float64 -> float64 -> float64 := SFdiv prec64 emax64.

(** [Duration.Seconds]: whole seconds plus the nanosecond remainder over
    [1e9]; Go's integer division and remainder truncate towards zero. *)
Definition Duration_Seconds (d : Duration) : float64 :=
  let sec := Z.quot d Second in
  let nsec := Z.rem d Second in
  float64_add (float64_of_Z sec)
              (float64_div (float64_of_Z nsec) (float64_of_Z 1000000000)).

(** ** The storage backend

    goleveldb is an external collaborator.  The harness uses five of its
    operations; a backend is any implementation of them over a store
    [DB].  An [error] is kept as its message. *)
Definition error := string.

Record WriteOptions := { NoWriteMerge : bool; Sync : bool }.

Inductive Strict := DefaultStrict | StrictAll.
Record ReadOptions := { DontFillCache : bool; ReadStrict : Strict }.

Class Backend (DB Stats : Type) := {
  (** [db.Put(key, value, wo)] *)
  db_Put : DB -> list byte -> list byte -> WriteOptions -> DB * option error;
  (** [db.Get(key, ro)] *)
  db_Get : DB -> list byte -> ReadOptions -> list byte * option error;
  (** [db.NewIterator(nil, nil)]: the entries for which [iter.Next()]
      answers true, in order, and the value of [iter.Error()] once
      [Next] has answered false. *)
  db_NewIterator : DB -> list (list byte * list byte) * option error;
  (** [db.CompactRange(util.Range{nil, nil})] *)
  db_CompactRange : DB -> DB * option error;
  (** [db.Stats(s)] *)
  db_Stats : DB -> Stats
}.

(** The calls made on the backend, in the order they are made. *)
Inductive Event :=
| EvPut (key value : list byte) (wo : WriteOptions)
| EvGet (key : list byte) (ro : ReadOptions)
| EvNewIterator
| EvTouch (key value : list byte)
| EvCompactRange
| EvStats.

Definition is_touch (e : Event) : bool :=
  match e with EvTouch _ _ => true | _ => false end.
Definition is_iterator (e : Event) : bool :=
  match e with EvNewIterator => true | _ => false end.
Definition is_stats (e : Event) : bool :=
  match e with EvStats => true | _ => false end.
Definition is_put (e : Event) : bool :=
  match e with EvPut _ _ _ => true | _ => false end.
Definition is_get (e : Event) : bool :=
  match e with EvGet _ _ => true | _ => false end.

Definition count (p : Event -> bool) (tr : list Event) : nat :=
  length (List.filter p tr).

(** The touches of a pass over [entries]. *)
Definition touches (entries : list (list byte * list byte)) : list Event :=
  map (fun e => EvTouch e.1 e.2) entries.

(** ** Result records *)
Record TestResult (Stats : Type) := {
  StartTime : Time;
  EndTime : Time;
  TestDuration : Duration;
  Description : string;
  OpCount : Z;
  TRStats : Stats;
  OpRate : float64
}.
Arguments StartTime {Stats} _.
Arguments EndTime {Stats} _.
Arguments TestDuration {Stats} _.
Arguments Description {Stats} _.
Arguments OpCount {Stats} _.
Arguments TRStats {Stats} _.
Arguments OpRate {Stats} _.

(** What the recorder promises of a record. *)
Definition record_ok {Stats} (r : TestResult Stats) : Prop :=
  TestDuration r = Time_Sub (EndTime r) (StartTime r)
  /\ OpRate r = float64_div (float64_of_Z (OpCount r))
                            (Duration_Seconds (TestDuration r)).

(** ** The harness *)
Section Harness.

Context {DB Stats : Type} {backend : Backend DB Stats}.

(** The world a run acts on: the store, the package-level variables,
    the clock read by [time.Now], the log of backend calls and the Go
    runtime.  [sched t k] is the scheduler's choice at step [k] of the
    phase entered at clock reading [t]: the number, counted among the
    goroutines that can move, of the one that moves.  [rangeVarShared]
    tells whether the iterations of a [range] loop share one variable,
    as before Go 1.22, or have one each. *)
Record State := {
  db : DB;
  globals : Globals;
  clock : nat -> Time;
  ticks : nat;
  trace : list Event;
  sched : nat -> nat -> nat;
  rangeVarShared : bool
}.

Definition log_event (e : Event) (st : State) : State :=
  {| db := db st; globals := globals st; clock := clock st;
     ticks := ticks st; trace := trace st ++ [e];
     sched := sched st; rangeVarShared := rangeVarShared st |}.

(** The clock after one more reading. *)
Definition tick (st : State) : State :=
  {| db := db st; globals := globals st; clock := clock st;
     ticks := S (ticks st); trace := trace st;
     sched := sched st; rangeVarShared := rangeVarShared st |}.

Definition set_db (d : DB) (st : State) : State :=
  {| db := d; globals := globals st; clock := clock st;
     ticks := ticks st; trace := trace st;
     sched := sched st; rangeVarShared := rangeVarShared st |}.

Definition set_globals (g : Globals) (st : State) : State :=
  {| db := db st; globals := g; clock := clock st;
     ticks := ticks st; trace := trace st;
     sched := sched st; rangeVarShared := rangeVarShared st |}.

(** How a piece of the harness ends.  [Fatal] is [log.Fatal]: the
    message is logged and the process exits.  [Panicked] is a run-time
    panic in a task, which ends the process too.  [Blocked] is a send
    on the admission pool that no task will ever receive.  [Running] is
    a loop that has not ended within the steps it was given. *)
Inductive Outcome (A : Type) :=
| Ok (a : A) (st : State)
| Fatal (msg : string) (st : State)
| Panicked (p : PanicKind) (st : State)
| Blocked (st : State)
| Running (st : State).
Arguments Ok {A} a st.
Arguments Fatal {A} msg st.
Arguments Panicked {A} p st.
Arguments Blocked {A} st.
Arguments Running {A} st.

Definition M (A : Type) : Type := State -> Outcome A.

Definition ret {A} (a : A) : M A := fun st => Ok a st.

Definition bind {A B} (m : M A) (k : A -> M B) : M B :=
  fun st =>
    match m st with
    | Ok a st' => k a st'
    | Fatal msg st' => Fatal msg st'
    | Panicked p st' => Panicked p st'
    | Blocked st' => Blocked st'
    | Running st' => Running st'
    end.

Definition final_state {A} (o : Outcome A) : State :=
  match o with
  | Ok _ st | Fatal _ st | Panicked _ st | Blocked st | Running st => st
  end.

Definition completed {A} (o : Outcome A) : bool :=
  match o with Ok _ _ => true | _ => false end.

Definition log_Fatal {A} (msg : string) : M A := fun st => Fatal msg st.

Definition add_trace (tr : list Event) (st : State) : State :=
  {| db := db st; globals := globals st; clock := clock st;
     ticks := ticks st; trace := trace st ++ tr;
     sched := sched st; rangeVarShared := rangeVarShared st |}.

(** [m] takes every state to one related to it by [R], however it
    ends. *)
Definition stable (R : State -> State -> Prop) {A} (m : M A) : Prop :=
  forall st, R st (final_state (m st)).

(** A step that leaves the package-level variables alone. *)
Definition keeps_globals {A} (m : M A) : Prop :=
  forall st, globals (final_state (m st)) = globals st.

(** No [Stats] call was made between two states. *)
Definition keeps_stats_count (st st' : State) : Prop :=
  count is_stats (trace st') = count is_stats (trace st).

(** The registry has lost nothing, and is still keyed by its values if
    it was. *)
Definition registry_grows (st st' : State) : Prop :=
  dom (knownKeys (globals st)) ⊆ dom (knownKeys (globals st'))
  /\ (self_valued (knownKeys (globals st)) ->
      knownKeys (globals st) ⊆ knownKeys (globals st')
      /\ self_valued (knownKeys (globals st'))).

End Harness.

Arguments State : clear implicits.
Arguments Outcome : clear implicits.
Arguments M : clear implicits.
Arguments registry_grows : clear implicits.
Arguments keeps_stats_count : clear implicits.
Arguments Ok {DB A} a st.
Arguments Fatal {DB A} msg st.
Arguments Panicked {DB A} p st.
Arguments Blocked {DB A} st.
Arguments Running {DB A} st.

#[global] Instance harness_ret {DB} : MRet (M DB) := @ret DB.
#[global] Instance harness_bind {DB} : MBind (M DB) :=
  fun A B k m => bind m k.

Section Phases.

Context {DB Stats : Type} {backend : Backend DB Stats}.
Variable cfg : Config.

(** [time.Now()] *)
Definition now : M DB Time := fun st => Ok (clock st (ticks st)) (tick st).

(** [pool <- true] in [readSeq], on
    [pool := make(chan bool, *degreeOfParallelism)].  A task of
    [readSeq] works on the iterator it was handed and acts on nothing
    that the harness records, so it is taken to have ended, [<-pool]
    included, by the next send; the send goes through unless the
    channel has no buffer at all, in which case no task exists that
    could receive it. *)
Definition pool_send : M DB unit := fun st =>
  if degreeOfParallelism cfg <=? 0 then Blocked st else Ok tt st.

Definition Put (k v : list byte) (wo : WriteOptions) : M DB (option error) :=
  fun st =>
    let '(d, err) := db_Put (db st) k v wo in
    Ok err (log_event (EvPut k v wo) (set_db d st)).

Definition Get (k : list byte) (ro : ReadOptions)
  : M DB (list byte * option error) :=
  fun st => Ok (db_Get (db st) k ro) (log_event (EvGet k ro) st).

Definition NewIterator
  : M DB (list (list byte * list byte) * option error) :=
  fun st => Ok (db_NewIterator (db st)) (log_event EvNewIterator st).

Definition CompactRange : M DB (option error) := fun st =>
  let '(d, err) := db_CompactRange (db st) in
  Ok err (log_event EvCompactRange (set_db d st)).

Definition GetStats : M DB Stats := fun st =>
  Ok (db_Stats (db st)) (log_event EvStats st).

(** A task of [readSeq]: [i.Key()] and [i.Value()]. *)
Definition touch (k v : list byte) : M DB unit := fun st =>
  Ok tt (log_event (EvTouch k v) st).

(** *** NewTestResult *)
Definition NewTestResult (startTime endTime : Time) (desc : string)
  (opCount : Z) : M DB (TestResult Stats) :=
  s ← GetStats;
  let d := Time_Sub endTime startTime in
  ret {| StartTime := startTime;
         EndTime := endTime;
         TestDuration := d;
         Description := desc;
         OpCount := opCount;
         TRStats := s;
         OpRate := float64_div (float64_of_Z opCount) (Duration_Seconds d) |}.

(** *** runFullCompact *)
Definition runFullCompact : M DB unit :=
  err ← CompactRange;
  match err with
  | Some _ => log_Fatal "error compacting data"
  | None => ret tt
  end.

(** *** Goroutines

    A phase is run as an interleaving of atomic steps of its
    goroutines: the launching loop and the tasks it has started.  A
    step is a read or a write of a variable the goroutines share, an
    operation on [pool] or [wg], a critical section of [makeKV] or a
    call of the backend. *)

(** The capacity of [pool]. *)
Definition pool_cap : nat := Z.to_nat (degreeOfParallelism cfg).

(** The goroutine that takes step [k], among [n] that can move. *)
Definition choose (k n : nat) : M DB nat := fun st =>
  Ok (sched st (ticks st) k mod n)%nat st.

(** [fuel] steps at most of a system of goroutines in configuration
    [c]: [runnable c] of them can move, and [step n c] is the step of
    the [n]-th of these, which answers the next configuration or what
    the phase returns.  With no goroutine that can move the phase is
    blocked for good. *)
Fixpoint run_threads {C A : Type} (runnable : C -> nat)
  (step : nat -> C -> M DB (C + A)) (fuel k : nat) (c : C) : M DB A :=
  match fuel with
  | O => fun st => Running st
  | S fuel' =>
      match runnable c with
      | O => fun st => Blocked st
      | S _ =>
          n ← choose k (runnable c);
          r ← step n c;
          match r with
          | inl c' => run_threads runnable step fuel' (S k) c'
          | inr a => ret a
          end
      end
  end.

(** The first critical section of [makeKV]: the key is built, which
    panics when it does not fit, and registered. *)
Definition register_key (seed : Z) (sequential : bool) : M DB (list byte) :=
  fun st =>
    match makeKey cfg seed sequential with
    | Panics p => Panicked p st
    | Done tmpKey =>
        Ok tmpKey
           (set_globals
              {| knownKeys := <[String.string_of_list_byte tmpKey := tmpKey]>
                                (knownKeys (globals st));
                 randSrc := randSrc (globals st) |} st)
    end.

(** The second critical section of [makeKV]: [randSrc.Read(tmpValue)]. *)
Definition read_value (valueSize : Z) : M DB (list byte) := fun st =>
  let '(tmpValue, r) := Rand_Read (randSrc (globals st)) (Z.to_nat valueSize) in
  Ok tmpValue
     (set_globals {| knownKeys := knownKeys (globals st); randSrc := r |} st).

(** *** writeData *)

(** Where a task of [writeData] stands. *)
Inductive WriteTask :=
| WtArgs                        (** before [i] is read for [makeKV(i, ...)] *)
| WtKey (seed : Z)              (** in [makeKV], before the key is registered *)
| WtValue (k : list byte)       (** in [makeKV], before [randSrc.Read] *)
| WtPut (k v : list byte)       (** before [db.Put(k, v, wo)] *)
| WtCheck (err : option error)  (** before [if err != nil] *)
| WtRecv.                       (** after [wg.Done()], before [<-pool] *)

(** Where the launching loop of [writeData] stands. *)
Inductive WritePC :=
| WAtSend   (** [i < lim] holds; before [pool <- true] *)
| WAtAdd    (** before [wg.Add(1)] *)
| WAtGo     (** before [go func() ...] *)
| WAtIncr   (** before [i = i + 1] and the test [i < lim] *)
| WAtWait.  (** before [wg.Wait()] *)

(** The loop, the variable [i] that the loop and its tasks share, the
    number of values in the buffer of [pool], the counter of [wg] and
    the tasks that have not ended, oldest first. *)
Record WriteConf := {
  w_pc : WritePC;
  w_i : Z;
  w_pool : nat;
  w_wg : nat;
  w_tasks : list WriteTask
}.

Definition write_init (startIndex lim : Z) : WriteConf :=
  {| w_pc := if startIndex <? lim then WAtSend else WAtWait;
     w_i := startIndex; w_pool := 0; w_wg := 0; w_tasks := [] |}.

(** The send waits while the buffer is full, [wg.Wait()] while the
    counter is not zero. *)
Definition write_main_ready (c : WriteConf) : bool :=
  match w_pc c with
  | WAtSend => (w_pool c <? pool_cap)%nat
  | WAtWait => (w_wg c =? 0)%nat
  | _ => true
  end.

Definition write_runnable (c : WriteConf) : nat :=
  ((if write_main_ready c then 1 else 0) + length (w_tasks c))%nat.

(** A step of the launching loop. *)
Definition write_main (lim : Z) (c : WriteConf) : WriteConf + unit :=
  match w_pc c with
  | WAtSend =>
      inl {| w_pc := WAtAdd; w_i := w_i c; w_pool := S (w_pool c);
             w_wg := w_wg c; w_tasks := w_tasks c |}
  | WAtAdd =>
      inl {| w_pc := WAtGo; w_i := w_i c; w_pool := w_pool c;
             w_wg := S (w_wg c); w_tasks := w_tasks c |}
  | WAtGo =>
      inl {| w_pc := WAtIncr; w_i := w_i c; w_pool := w_pool c;
             w_wg := w_wg c; w_tasks := w_tasks c ++ [WtArgs] |}
  | WAtIncr =>
      let i := add64 (w_i c) 1 in
      inl {| w_pc := if i <? lim then WAtSend else WAtWait; w_i := i;
             w_pool := w_pool c; w_wg := w_wg c; w_tasks := w_tasks c |}
  | WAtWait => inr tt
  end.

Definition write_set_task (m : nat) (t : WriteTask) (c : WriteConf)
  : WriteConf :=
  {| w_pc := w_pc c; w_i := w_i c; w_pool := w_pool c; w_wg := w_wg c;
     w_tasks := <[m := t]> (w_tasks c) |}.

(** A step of the task at position [m].  The counter of [wg] is
    positive when a task reaches [wg.Done()], and the buffer of [pool]
    holds a value when it reaches [<-pool]: its own [wg.Add(1)] and
    send came before its start; a receive from an empty buffer would
    wait. *)
Definition write_task (wo : WriteOptions) (valueSize : Z)
  (sequential : bool) (m : nat) (c : WriteConf) : M DB WriteConf :=
  match w_tasks c !! m with
  | None => ret c
  | Some WtArgs => ret (write_set_task m (WtKey (w_i c)) c)
  | Some (WtKey seed) =>
      k ← register_key seed sequential;
      ret (write_set_task m (WtValue k) c)
  | Some (WtValue k) =>
      v ← read_value valueSize;
      ret (write_set_task m (WtPut k v) c)
  | Some (WtPut k v) =>
      err ← Put k v wo;
      ret (write_set_task m (WtCheck err) c)
  | Some (WtCheck (Some _)) => log_Fatal "Failed to put value"
  | Some (WtCheck None) =>
      ret {| w_pc := w_pc c; w_i := w_i c; w_pool := w_pool c;
             w_wg := Nat.pred (w_wg c);
             w_tasks := <[m := WtRecv]> (w_tasks c) |}
  | Some WtRecv =>
      match w_pool c with
      | O => ret c
      | S p =>
          ret {| w_pc := w_pc c; w_i := w_i c; w_pool := p;
                 w_wg := w_wg c; w_tasks := delete m (w_tasks c) |}
      end
  end.

(** The step of the [n]-th goroutine that can move: the launching loop
    comes first when it can move, the tasks follow. *)
Definition write_step (wo : WriteOptions) (valueSize lim : Z)
  (sequential : bool) (n : nat) (c : WriteConf) : M DB (WriteConf + unit) :=
  if write_main_ready c then
    match n with
    | O => ret (write_main lim c)
    | S m => c' ← write_task wo valueSize sequential m c; ret (inl c')
    end
  else c' ← write_task wo valueSize sequential n c; ret (inl c').

(** The loop takes four steps for an index and each task six, and
    [wg.Wait()] is one more. *)
Definition write_fuel (startIndex lim : Z) : nat :=
  (10 * Z.to_nat (lim - startIndex) + 1)%nat.

Definition writeData (wo : WriteOptions)
  (valueSize startIndex writeLimit : Z) (sequential : bool) : M DB unit :=
  let lim := add64 writeLimit startIndex in
  run_threads write_runnable (write_step wo valueSize lim sequential)
    (write_fuel startIndex lim) 0 (write_init startIndex lim).

(** *** readSeq *)

(** The inner loop: one pass of an iterator over [entries].  It answers
    whether the limit was reached ([break benchLoop]) and [rCount]. *)
Fixpoint readSeq_pass (limit : Z) (entries : list (list byte * list byte))
  (rCount : Z) : M DB (bool * Z) :=
  match entries with
  | [] => ret (false, rCount)
  | (k, v) :: rest =>
      let rCount := add64 rCount 1 in
      pool_send;;
      touch k v;;
      if limit <=? rCount then ret (true, rCount)
      else readSeq_pass limit rest rCount
  end.

(** The outer loop, [fuel] passes at most. *)
Fixpoint readSeq_loop (fuel : nat) (limit rCount : Z) : M DB Z :=
  match fuel with
  | O => fun st => Running st
  | S fuel' =>
      '(entries, err) ← NewIterator;
      '(stop, rCount) ← readSeq_pass limit entries rCount;
      if stop : bool then ret rCount
      else match err with
           | Some _ => log_Fatal "Error reading sequentially"
           | None => readSeq_loop fuel' limit rCount
           end
  end.

(** [readSeq]; the answer is the final [rCount]. *)
Definition readSeq (fuel : nat) (wo : WriteOptions) (limit : Z) : M DB Z :=
  readSeq_loop fuel limit 0.

(** *** readRandom *)

(** [range knownKeys]: the values of the registry, in one of the orders
    the map may be walked in. *)
Definition range_knownKeys : M DB (list (list byte)) := fun st =>
  Ok ((map_to_list (knownKeys (globals st))).*2) st.

(** Where a task of [readRandom] stands; [key] is [randKey] as it was
    when the task was started. *)
Inductive ReadTask :=
| RtLoad (key : list byte)            (** before [rCount] is read *)
| RtStore (key : list byte) (c : Z)   (** before [rCount] is set to [c + 1] *)
| RtGet (key : list byte)             (** before [db.Get(randKey, ro)] *)
| RtDone                              (** before [wg.Done()] *)
| RtRecv.                             (** before [<-pool] *)

(** Where the launching loop of [readRandom] stands. *)
Inductive ReadPC :=
| RAtRange          (** at the top of [for {]: before [range knownKeys] *)
| RAtNext           (** before the range yields its next key, or ends *)
| RAtSend           (** before [pool <- true] *)
| RAtAdd            (** before [wg.Add(1)] *)
| RAtGo             (** before [go func() ...] *)
| RAtTest           (** before [if rCount >= limit] *)
| RAtWait (seen : Z).
                    (** before [wg.Wait()]; the test read [seen] *)

(** The loop, the passes it may still begin, the keys the range has
    still to yield, the variables [randKey] and [rCount], the buffer
    of [pool], the counter of [wg] and the tasks that have not
    ended. *)
Record ReadConf := {
  r_pc : ReadPC;
  r_passes : nat;
  r_keys : list (list byte);
  r_randKey : list byte;
  r_rCount : Z;
  r_pool : nat;
  r_wg : nat;
  r_tasks : list ReadTask
}.

Definition read_init (fuel : nat) : ReadConf :=
  {| r_pc := RAtRange; r_passes := fuel; r_keys := []; r_randKey := [];
     r_rCount := 0; r_pool := 0; r_wg := 0; r_tasks := [] |}.

Definition read_main_ready (c : ReadConf) : bool :=
  match r_pc c with
  | RAtSend => (r_pool c <? pool_cap)%nat
  | RAtWait _ => (r_wg c =? 0)%nat
  | _ => true
  end.

Definition read_runnable (c : ReadConf) : nat :=
  ((if read_main_ready c then 1 else 0) + length (r_tasks c))%nat.

Definition read_set_pc (pc : ReadPC) (c : ReadConf) : ReadConf :=
  {| r_pc := pc; r_passes := r_passes c; r_keys := r_keys c;
     r_randKey := r_randKey c; r_rCount := r_rCount c;
     r_pool := r_pool c; r_wg := r_wg c; r_tasks := r_tasks c |}.

(** A step of the launching loop; the answer of the phase is the
    value of [rCount] that ended the loop. *)
Definition read_main (limit : Z) (c : ReadConf) : M DB (ReadConf + Z) :=
  match r_pc c with
  | RAtRange =>
      match r_passes c with
      | O => fun st => Running st
      | S passes =>
          keys ← range_knownKeys;
          ret (inl {| r_pc := RAtNext; r_passes := passes; r_keys := keys;
                      r_randKey := r_randKey c; r_rCount := r_rCount c;
                      r_pool := r_pool c; r_wg := r_wg c;
                      r_tasks := r_tasks c |})
      end
  | RAtNext =>
      match r_keys c with
      | [] => ret (inl (read_set_pc RAtRange c))
      | key :: rest =>
          ret (inl {| r_pc := RAtSend; r_passes := r_passes c;
                      r_keys := rest; r_randKey := key;
                      r_rCount := r_rCount c; r_pool := r_pool c;
                      r_wg := r_wg c; r_tasks := r_tasks c |})
      end
  | RAtSend =>
      ret (inl {| r_pc := RAtAdd; r_passes := r_passes c;
                  r_keys := r_keys c; r_randKey := r_randKey c;
                  r_rCount := r_rCount c; r_pool := S (r_pool c);
                  r_wg := r_wg c; r_tasks := r_tasks c |})
  | RAtAdd =>
      ret (inl {| r_pc := RAtGo; r_passes := r_passes c;
                  r_keys := r_keys c; r_randKey := r_randKey c;
                  r_rCount := r_rCount c; r_pool := r_pool c;
                  r_wg := S (r_wg c); r_tasks := r_tasks c |})
  | RAtGo =>
      ret (inl {| r_pc := RAtTest; r_passes := r_passes c;
                  r_keys := r_keys c; r_randKey := r_randKey c;
                  r_rCount := r_rCount c; r_pool := r_pool c;
                  r_wg := r_wg c;
                  r_tasks := r_tasks c ++ [RtLoad (r_randKey c)] |})
  | RAtTest =>
      if limit <=? r_rCount c
      then ret (inl (read_set_pc (RAtWait (r_rCount c)) c))
      else ret (inl (read_set_pc RAtNext c))
  | RAtWait seen => ret (inr seen)
  end.

Definition read_set_task (m : nat) (t : ReadTask) (c : ReadConf)
  : ReadConf :=
  {| r_pc := r_pc c; r_passes := r_passes c; r_keys := r_keys c;
     r_randKey := r_randKey c; r_rCount := r_rCount c;
     r_pool := r_pool c; r_wg := r_wg c;
     r_tasks := <[m := t]> (r_tasks c) |}.

(** A step of the task at position [m].  [rCount += 1] is a read and a
    write; [randKey] is read when [db.Get] is called, and is the
    loop's variable or the task's own. *)
Definition read_task (ro : ReadOptions) (m : nat) (c : ReadConf)
  : M DB ReadConf :=
  match r_tasks c !! m with
  | None => ret c
  | Some (RtLoad key) => ret (read_set_task m (RtStore key (r_rCount c)) c)
  | Some (RtStore key n) =>
      ret {| r_pc := r_pc c; r_passes := r_passes c; r_keys := r_keys c;
             r_randKey := r_randKey c; r_rCount := add64 n 1;
             r_pool := r_pool c; r_wg := r_wg c;
             r_tasks := <[m := RtGet key]> (r_tasks c) |}
  | Some (RtGet key) =>
      fun st =>
        (Get (if rangeVarShared st then r_randKey c else key) ro;;
         ret (read_set_task m RtDone c)) st
  | Some RtDone =>
      ret {| r_pc := r_pc c; r_passes := r_passes c; r_keys := r_keys c;
             r_randKey := r_randKey c; r_rCount := r_rCount c;
             r_pool := r_pool c; r_wg := Nat.pred (r_wg c);
             r_tasks := <[m := RtRecv]> (r_tasks c) |}
  | Some RtRecv =>
      match r_pool c with
      | O => ret c
      | S p =>
          ret {| r_pc := r_pc c; r_passes := r_passes c; r_keys := r_keys c;
                 r_randKey := r_randKey c; r_rCount := r_rCount c;
                 r_pool := p; r_wg := r_wg c;
                 r_tasks := delete m (r_tasks c) |}
      end
  end.

Definition read_step (ro : ReadOptions) (limit : Z) (n : nat) (c : ReadConf)
  : M DB (ReadConf + Z) :=
  if read_main_ready c then
    match n with
    | O => read_main limit c
    | S m => c' ← read_task ro m c; ret (inl c')
    end
  else c' ← read_task ro n c; ret (inl c').

(** In a pass the loop takes two steps and five more for each key, a
    task takes five, and [wg.Wait()] is one more. *)
Definition read_fuel (fuel keys : nat) : nat :=
  (fuel * (10 * keys + 2) + 2)%nat.

(** [readRandom], [fuel] passes at most. *)
Definition readRandom (fuel : nat) (ro : ReadOptions) (limit : Z) : M DB Z :=
  fun st =>
    run_threads read_runnable (read_step ro limit)
      (read_fuel fuel (size (knownKeys (globals st)))) 0 (read_init fuel) st.

(** *** RunE

    The command's [RunE], from the point where the store has been
    opened: [knownKeys] is reset, the options are built from the flags
    and the twelve blocks follow.  The answer is [trs], the records that
    are then serialised.  Each loop of a read phase is given [fuel]
    passes. *)
Definition reset_knownKeys : M DB unit := fun st =>
  Ok tt (set_globals {| knownKeys := ∅; randSrc := randSrc (globals st) |} st).

Definition writeOptions : WriteOptions :=
  {| NoWriteMerge := noWriteMerge cfg; Sync := syncWrites cfg |}.

Definition readOptions : ReadOptions :=
  {| DontFillCache := dontFillCache cfg;
     ReadStrict := if readStrict cfg then StrictAll else DefaultStrict |}.

Definition RunE (fuel : nat) : M DB (list (TestResult Stats)) :=
  reset_knownKeys;;
  let wo := writeOptions in
  let ro := readOptions in
  let trs := [] in

  start ← now;
  writeData wo (smallValueSize cfg) 0 (smallFillLimit cfg) true;;
  t ← now;
  r ← NewTestResult start t "small seq fill" (smallFillLimit cfg);
  let trs := trs ++ [r] in

  start ← now;
  writeData wo (smallValueSize cfg) 0 (smallFillLimit cfg) true;;
  t ← now;
  r ← NewTestResult start t "small seq overwrite" (smallFillLimit cfg);
  let trs := trs ++ [r] in

  start ← now;
  writeData wo (smallValueSize cfg) 0 (smallFillLimit cfg) false;;
  t ← now;
  r ← NewTestResult start t "small rand fill" (smallFillLimit cfg);
  let trs := trs ++ [r] in

  start ← now;
  writeData wo (smallValueSize cfg) 0 (smallFillLimit cfg) false;;
  t ← now;
  r ← NewTestResult start t "small rand overwrite" (smallFillLimit cfg);
  let trs := trs ++ [r] in

  start ← now;
  writeData wo (smallValueSize cfg) 0 (smallFillLimit cfg) false;;
  t ← now;
  r ← NewTestResult start t "small rand overwrite" (smallFillLimit cfg);
  let trs := trs ++ [r] in

  start ← now;
  writeData wo (smallValueSize cfg) 0 (smallFillLimit cfg) false;;
  t ← now;
  r ← NewTestResult start t "small rand overwrite" (smallFillLimit cfg);
  let trs := trs ++ [r] in

  start ← now;
  readSeq fuel wo (readLimit cfg);;
  t ← now;
  r ← NewTestResult start t "sequential read" (readLimit cfg);
  let trs := trs ++ [r] in

  start ← now;
  writeData wo (largeValueSize cfg) (mul64 (smallFillLimit cfg) 2)
    (largeFillLimit cfg) false;;
  t ← now;
  r ← NewTestResult start t "large rand fill" (largeFillLimit cfg);
  let trs := trs ++ [r] in

  start ← now;
  writeData wo (largeValueSize cfg) (mul64 (smallFillLimit cfg) 2)
    (largeFillLimit cfg) false;;
  t ← now;
  r ← NewTestResult start t "large rand overwrite" (largeFillLimit cfg);
  let trs := trs ++ [r] in

  start ← now;
  readSeq fuel wo (readLimit cfg);;
  t ← now;
  r ← NewTestResult start t "sequential read" (readLimit cfg);
  let trs := trs ++ [r] in

  start ← now;
  readRandom fuel ro (readLimit cfg);;
  t ← now;
  r ← NewTestResult start t "random read" (readLimit cfg);
  let trs := trs ++ [r] in

  start ← now;
  runFullCompact;;
  t ← now;
  r ← NewTestResult start t "compaction" 1;
  let trs := trs ++ [r] in

  ret trs.

End Phases.

(** ** What a run of a phase goes through

    The vocabulary in which the interleavings of a phase are described:
    how far each task has come, what has been registered, drawn and put
    so far, and a bound on the steps that are left. *)

(** The values of [i] that tasks of [writeData] have read appear here as
    seeds: an index of the range, or the bound [lim] at which the loop
    has left [i]. *)
Definition write_seeds (startIndex writeLimit : Z) : list Z :=
  let lim := add64 writeLimit startIndex in
  if startIndex <? lim then seqZ startIndex (lim - startIndex + 1) else [].

Definition wt_stage (t : WriteTask) : nat :=
  match t with
  | WtArgs => 0
  | WtKey _ => 1
  | WtValue _ => 2
  | WtPut _ _ => 3
  | WtCheck _ => 4
  | WtRecv => 5
  end.

(** The tasks that have not reached stage [s]. *)
Definition stage_count (s : nat) (tasks : list WriteTask) : nat :=
  sum_list_with (fun t => if (wt_stage t <? s)%nat then 1%nat else 0%nat) tasks.

(** One for the slot the launching loop holds between its send and the
    start of the task, and for the count it has added. *)
Definition w_held (c : WriteConf) : nat :=
  match w_pc c with WAtAdd | WAtGo => 1 | _ => 0 end.

Definition w_counted (c : WriteConf) : nat :=
  match w_pc c with WAtGo => 1 | _ => 0 end.

(** The steps a configuration has left, at most. *)
Definition write_measure (lim : Z) (c : WriteConf) : nat :=
  (match w_pc c with
   | WAtSend => 10 * Z.to_nat (lim - w_i c - 1) + 11
   | WAtAdd => 10 * Z.to_nat (lim - w_i c - 1) + 10
   | WAtGo => 10 * Z.to_nat (lim - w_i c - 1) + 9
   | WAtIncr => 10 * Z.to_nat (lim - w_i c - 1) + 2
   | WAtWait => 1
   end
   + sum_list_with (fun t => 6 - wt_stage t) (w_tasks c))%nat.

(** The shape of a configuration: every task holds a slot of the pool
    and is counted by [wg] until its [wg.Done()], and inside the loop
    [i] is below the bound. *)
Record write_shape (lim : Z) (c : WriteConf) : Prop := {
  ws_pool : w_pool c = (length (w_tasks c) + w_held c)%nat;
  ws_wg : w_wg c = (stage_count 5 (w_tasks c) + w_counted c)%nat;
  ws_loop : w_pc c <> WAtWait -> w_i c < lim
}.

Section WriteHistory.

Context {DB Stats : Type} {backend : Backend DB Stats}.
Variable cfg : Config.
Variable wo : WriteOptions.
Variables valueSize startIndex lim : Z.
Variable sequential : bool.

Definition seed_ok (seed : Z) : Prop := startIndex <= seed <= lim.

(** A key that the phase's mode gives to a seed. *)
Definition key_ok (k : list byte) : Prop :=
  exists seed, seed_ok seed /\ makeKey cfg seed sequential = Done k.

(** A [Put] of the phase: such a key, a value of the phase's size and
    the phase's options. *)
Definition put_ok (e : Event) : Prop :=
  exists k v, e = EvPut k v wo /\ key_ok k /\ length v = Z.to_nat valueSize.

(** The store after the puts of a log. *)
Definition apply_puts (d : DB) (puts : list Event) : DB :=
  foldl (fun d e => match e with
                    | EvPut k v wo' => (db_Put d k v wo').1
                    | _ => d
                    end) d puts.

(** One of the puts returned the error [e]. *)
Definition put_failed (d : DB) (puts : list Event) (e : error) : Prop :=
  exists before k v after,
    puts = before ++ EvPut k v wo :: after
    /\ (db_Put (apply_puts d before) k v wo).2 = Some e.

Definition task_ok (d : DB) (puts : list Event) (t : WriteTask) : Prop :=
  match t with
  | WtKey seed => seed_ok seed
  | WtValue k => key_ok k
  | WtPut k v => key_ok k /\ length v = Z.to_nat valueSize
  | WtCheck (Some e) => put_failed d puts e
  | _ => True
  end.

(** What has happened to the world since [st0]: the keys registered,
    the number of values drawn and the puts made, in order. *)
Record write_hist (st0 : State DB) (keys : list (list byte)) (reads : nat)
  (puts : list Event) (st : State DB) : Prop := {
  wh_keys : knownKeys (globals st)
            = register_all keys (knownKeys (globals st0));
  wh_keys_ok : Forall key_ok keys;
  wh_rand : randSrc (globals st)
            = {| stream := stream (randSrc (globals st0));
                 readPos := (readPos (randSrc (globals st0))
                             + reads * Z.to_nat valueSize)%nat |};
  wh_trace : trace st = trace st0 ++ puts;
  wh_puts_ok : Forall put_ok puts;
  wh_db : db st = apply_puts (db st0) puts;
  wh_clock : clock st = clock st0;
  wh_ticks : ticks st = ticks st0;
  wh_sched : sched st = sched st0;
  wh_range : rangeVarShared st = rangeVarShared st0;
  wh_order : (length puts <= reads <= length keys)%nat
}.

(** The tasks started so far. *)
Definition w_launched (c : WriteConf) : nat :=
  (Z.to_nat (w_i c - startIndex)
   + match w_pc c with WAtIncr => 1 | _ => 0 end)%nat.

(** The invariant of a write phase. *)
Record write_inv (st0 : State DB) (keys : list (list byte)) (reads : nat)
  (puts : list Event) (c : WriteConf) (st : State DB) : Prop := {
  wi_shape : write_shape lim c;
  wi_hist : write_hist st0 keys reads puts st;
  wi_i : startIndex <= w_i c <= lim;
  wi_left : w_pc c = WAtWait -> startIndex < lim -> w_i c = lim;
  wi_tasks : Forall (task_ok (db st0) puts) (w_tasks c);
  wi_n_keys : (length keys + stage_count 2 (w_tasks c) = w_launched c)%nat;
  wi_n_reads : (reads + stage_count 3 (w_tasks c) = w_launched c)%nat;
  wi_n_puts : (length puts + stage_count 4 (w_tasks c) = w_launched c)%nat
}.

(** How a write phase can end, whatever the scheduler does. *)
Definition write_post (st0 : State DB) (o : Outcome DB unit) : Prop :=
  let n := Z.to_nat (lim - startIndex) in
  match o with
  | Ok _ st =>
      exists keys puts,
        write_hist st0 keys n puts st
        /\ length keys = n /\ length puts = n
  | Fatal msg st =>
      msg = "Failed to put value"
      /\ exists keys reads puts e,
           write_hist st0 keys reads puts st
           /\ (length keys <= n)%nat
           /\ put_failed (db st0) puts e
  | Panicked p st =>
      exists keys reads puts seed,
        write_hist st0 keys reads puts st
        /\ (length keys < n)%nat
        /\ seed_ok seed /\ makeKey cfg seed sequential = Panics p
  | Blocked st =>
      pool_cap cfg = 0%nat
      /\ exists keys reads puts, write_hist st0 keys reads puts st
  | Running _ => False
  end.

End WriteHistory.

(** One for a task of [readRandom] that stands before [db.Get], and one
    for a task that stands before [wg.Done()] or earlier. *)
Definition rt_at_get (t : ReadTask) : nat :=
  match t with RtGet _ => 1 | _ => 0 end.

Definition rt_before_done (t : ReadTask) : nat :=
  match t with RtRecv => 0 | _ => 1 end.

Definition r_held (c : ReadConf) : nat :=
  match r_pc c with RAtAdd | RAtGo => 1 | _ => 0 end.

Definition r_counted (c : ReadConf) : nat :=
  match r_pc c with RAtGo => 1 | _ => 0 end.

Section ReadHistory.

Context {DB Stats : Type} {backend : Backend DB Stats}.
Variable cfg : Config.
Variable ro : ReadOptions.
Variable limit : Z.
Variable st0 : State DB.

(** A key held by the registry the phase started from. *)
Definition registered (k : list byte) : Prop :=
  exists s, knownKeys (globals st0) !! s = Some k.

(** A [Get] of the phase: a registered key and the phase's options. *)
Definition get_ok (e : Event) : Prop :=
  exists k, e = EvGet k ro /\ registered k.

Definition rtask_ok (stores : nat) (t : ReadTask) : Prop :=
  match t with
  | RtLoad key => registered key
  | RtStore key n => registered key /\ 0 <= n <= Z.of_nat stores
  | RtGet key => registered key
  | _ => True
  end.

(** The invariant of [readRandom]: [gets] are the calls made so far and
    [stores] counts the writes of [rCount]. *)
Record read_inv (gets : list Event) (stores : nat) (c : ReadConf)
  (st : State DB) : Prop := {
  ri_state : st = add_trace gets st0;
  ri_gets : Forall get_ok gets;
  ri_keys : Forall registered (r_keys c);
  ri_randKey : registered (r_randKey c)
               \/ (r_tasks c = [] /\ (r_pc c = RAtRange \/ r_pc c = RAtNext));
  ri_tasks : Forall (rtask_ok stores) (r_tasks c);
  ri_count : 0 <= r_rCount c <= Z.of_nat stores;
  ri_stores : stores = (length gets + sum_list_with rt_at_get (r_tasks c))%nat;
  ri_pool : r_pool c = (length (r_tasks c) + r_held c)%nat;
  ri_wg : r_wg c
          = (sum_list_with rt_before_done (r_tasks c) + r_counted c)%nat;
  ri_wait : forall seen, r_pc c = RAtWait seen ->
              limit <= seen <= Z.of_nat stores
}.

(** How [readRandom] can end, whatever the scheduler does. *)
Definition read_post (o : Outcome DB Z) : Prop :=
  match o with
  | Ok n st =>
      exists gets,
        st = add_trace gets st0 /\ Forall get_ok gets
        /\ limit <= n <= Z.of_nat (length gets)
  | Fatal _ _ | Panicked _ _ => False
  | Blocked st =>
      pool_cap cfg = 0%nat
      /\ exists gets, st = add_trace gets st0 /\ Forall get_ok gets
  | Running st =>
      exists gets, st = add_trace gets st0 /\ Forall get_ok gets
  end.

End ReadHistory.

(** ** The phase script, as the design document lists it

    One descriptor per step of the canonical sequence; [run_script] is
    the generic executor of such a list. *)
Inductive PhaseOp :=
| OpWrite (valueSize startIndex count : Z) (sequential : bool)
| OpReadSeq (limit : Z)
| OpReadRandom (limit : Z)
| OpCompact.

Record Phase := {
  ph_desc : string;
  ph_count : Z;
  ph_op : PhaseOp
}.

Definition phase_script (cfg : Config) : list Phase :=
  let small := smallFillLimit cfg in
  let large := largeFillLimit cfg in
  let past_small := mul64 small 2 in
  [ {| ph_desc := "small seq fill"; ph_count := small;
       ph_op := OpWrite (smallValueSize cfg) 0 small true |};
    {| ph_desc := "small seq overwrite"; ph_count := small;
       ph_op := OpWrite (smallValueSize cfg) 0 small true |};
    {| ph_desc := "small rand fill"; ph_count := small;
       ph_op := OpWrite (smallValueSize cfg) 0 small false |};
    {| ph_desc := "small rand overwrite"; ph_count := small;
       ph_op := OpWrite (smallValueSize cfg) 0 small false |};
    {| ph_desc := "small rand overwrite"; ph_count := small;
       ph_op := OpWrite (smallValueSize cfg) 0 small false |};
    {| ph_desc := "small rand overwrite"; ph_count := small;
       ph_op := OpWrite (smallValueSize cfg) 0 small false |};
    {| ph_desc := "sequential read"; ph_count := readLimit cfg;
       ph_op := OpReadSeq (readLimit cfg) |};
    {| ph_desc := "large rand fill"; ph_count := large;
       ph_op := OpWrite (largeValueSize cfg) past_small large false |};
    {| ph_desc := "large rand overwrite"; ph_count := large;
       ph_op := OpWrite (largeValueSize cfg) past_small large false |};
    {| ph_desc := "sequential read"; ph_count := readLimit cfg;
       ph_op := OpReadSeq (readLimit cfg) |};
    {| ph_desc := "random read"; ph_count := readLimit cfg;
       ph_op := OpReadRandom (readLimit cfg) |};
    {| ph_desc := "compaction"; ph_count := 1; ph_op := OpCompact |} ].

Section Script.

Context {DB Stats : Type} {backend : Backend DB Stats}.
Variable cfg : Config.

Definition run_op (fuel : nat) (op : PhaseOp) : M DB unit :=
  match op with
  | OpWrite valueSize startIndex n sequential =>
      writeData cfg (writeOptions cfg) valueSize startIndex n sequential
  | OpReadSeq limit =>
      readSeq cfg fuel (writeOptions cfg) limit;; ret tt
  | OpReadRandom limit =>
      readRandom cfg fuel (readOptions cfg) limit;; ret tt
  | OpCompact => runFullCompact
  end.

(** One step: the clock is read, the operation runs, the clock is read
    again and the recorder builds the step's record. *)
Definition run_phase (fuel : nat) (p : Phase) : M DB (TestResult Stats) :=
  start ← now;
  run_op fuel (ph_op p);;
  t ← now;
  NewTestResult start t (ph_desc p) (ph_count p).

Fixpoint run_script (fuel : nat) (ps : list Phase)
  (trs : list (TestResult Stats)) : M DB (list (TestResult Stats)) :=
  match ps with
  | [] => ret trs
  | p :: ps' =>
      r ← run_phase fuel p;
      run_script fuel ps' (trs ++ [r])
  end.

End Script.

(** ** An in-memory backend

    A store kept as a list of entries sorted by key, and variants of it
    whose operations fail; they serve as concrete instances. *)
Fixpoint bytes_compare (a b : list byte) : comparison :=
  match a, b with
  | [], [] => Eq
  | [], _ :: _ => Lt
  | _ :: _, [] => Gt
  | x :: a', y :: b' =>
      match N.compare (Byte.to_N x) (Byte.to_N y) with
      | Eq => bytes_compare a' b'
      | c => c
      end
  end.

Definition memDB := list (list byte * list byte).

Fixpoint mem_put (k v : list byte) (d : memDB) : memDB :=
  match d with
  | [] => [(k, v)]
  | (k', v') :: d' =>
      match bytes_compare k k' with
      | Lt => (k, v) :: d
      | Eq => (k, v) :: d'
      | Gt => (k', v') :: mem_put k v d'
      end
  end.

Fixpoint mem_get (k : list byte) (d : memDB) : list byte * option error :=
  match d with
  | [] => ([], Some "leveldb: not found")
  | (k', v') :: d' =>
      match bytes_compare k k' with
      | Eq => (v', None)
      | _ => mem_get k d'
      end
  end.

Definition memBackend : Backend memDB nat := {|
  db_Put d k v _ := (mem_put k v d, None);
  db_Get d k _ := mem_get k d;
  db_NewIterator d := (d, None);
  db_CompactRange d := (d, None);
  db_Stats d := length d
|}.

(** The same store with a [Get] that always fails. *)
Definition brokenGetBackend : Backend memDB nat := {|
  db_Put d k v _ := (mem_put k v d, None);
  db_Get d k _ := ([], Some "leveldb: corruption");
  db_NewIterator d := (d, None);
  db_CompactRange d := (d, None);
  db_Stats d := length d
|}.

(** The same store with a [Put] that always fails. *)
Definition brokenPutBackend : Backend memDB nat := {|
  db_Put d k v _ := (d, Some "leveldb: closed");
  db_Get d k _ := mem_get k d;
  db_NewIterator d := (d, None);
  db_CompactRange d := (d, None);
  db_Stats d := length d
|}.

Definition zeroStream : nat -> byte := fun _ => x00.

Definition initGlobals : Globals :=
  {| knownKeys := ∅; randSrc := {| stream := zeroStream; readPos := 0 |} |}.

(** A scheduler that lets a task move whenever the launching loop has
    one in flight, so that each task ends before the loop goes on, and
    one that lets the loop move whenever it can. *)
Definition tasksFirst : nat -> nat -> nat := fun _ _ => 1%nat.
Definition loopFirst : nat -> nat -> nat := fun _ _ => 0%nat.

(** A clock that advances by half a second at each reading. *)
Definition initState (d : memDB) : State memDB :=
  {| db := d; globals := initGlobals;
     clock := fun n => 500000000 * Z.of_nat n; ticks := 0; trace := [];
     sched := tasksFirst; rangeVarShared := true |}.

(** A scheduler under which the loop overtakes the first task of a
    phase: at step 3, when the loop stands before [i = i + 1] and the
    task it has just started before its read of [i], the loop moves; at
    every other step a task moves if there is one. *)
Definition loopOvertakes : nat -> nat -> nat :=
  fun _ k => if (k =? 3)%nat then 0%nat else 1%nat.

Definition raceState (d : memDB) : State memDB :=
  {| db := d; globals := initGlobals;
     clock := fun n => 500000000 * Z.of_nat n; ticks := 0; trace := [];
     sched := loopOvertakes; rangeVarShared := true |}.

(** A state under another scheduler. *)
Definition withSched {DB} (s : nat -> nat -> nat) (st : State DB) : State DB :=
  {| db := db st; globals := globals st; clock := clock st; ticks := ticks st;
     trace := trace st; sched := s; rangeVarShared := rangeVarShared st |}.

(** A small configuration: key size [k], degree of parallelism [p],
    three small entries, two large ones and five reads. *)
Definition smallConfig (k p : Z) : Config :=
  {| smallFillLimit := 3; largeFillLimit := 2; noWriteMerge := false;
     syncWrites := false; dontFillCache := false; readStrict := false;
     keySize := k; smallValueSize := 4; largeValueSize := 6;
     degreeOfParallelism := p; readLimit := 5 |}.

(** A store of one hundred entries, in key order. *)
Definition hundredEntries : memDB :=
  map (fun n => (be_bytes64 (Z.of_nat n), [x2a])) (seq 0 100).

(** A state whose registry holds the keys [ks]. *)
Definition stateWithKeys (d : memDB) (ks : list (list byte)) : State memDB :=
  {| db := d;
     globals := {| knownKeys := register_all ks ∅;
                   randSrc := {| stream := zeroStream; readPos := 0 |} |};
     clock := fun n => 500000000 * Z.of_nat n; ticks := 0; trace := [];
     sched := tasksFirst; rangeVarShared := true |}.

(** ** The admission pool and the completion barrier

    The concurrent skeleton shared by [writeData], [readSeq] and
    [readRandom], as an interleaving of atomic steps.  The launching
    loop sends on [pool], a channel with a buffer of [L] slots, adds one
    to the wait group [wg] and starts a task; a task performs its
    operation, calls [wg.Done()] and receives from [pool]; after the
    last launch the loop's owner calls [wg.Wait()]. *)
Module Executor.

(** Where the launching goroutine stands. *)
Inductive MainPC :=
| AtSend      (** before [pool <- true], or leaving the loop *)
| AtAdd       (** before [wg.Add(1)] *)
| AtGo        (** before [go func() ...] *)
| AtWait      (** before [wg.Wait()] *)
| Returned.   (** [wg.Wait()] has returned *)

Record ExecState := {
  pc : MainPC;
  exited : bool;     (** a task has called [log.Fatal] *)
  to_launch : nat;   (** operations the loop has still to launch *)
  pool_len : nat;    (** values held in the buffer of [pool] *)
  wg : nat;          (** the counter of the wait group *)
  in_flight : nat;   (** tasks started whose operation has not ended *)
  at_done : nat;     (** tasks before [wg.Done()] *)
  at_recv : nat;     (** tasks before [<-pool] *)
  finished : nat     (** operations that have ended *)
}.

Definition init (C : nat) : ExecState :=
  {| pc := AtSend; exited := false; to_launch := C; pool_len := 0; wg := 0;
     in_flight := 0; at_done := 0; at_recv := 0; finished := 0 |}.

Section Steps.

(** The capacity of [pool]: [*degreeOfParallelism]. *)
Variable L : nat.

Inductive step : ExecState -> ExecState -> Prop :=
| step_send s n :
    (** [pool <- true] goes through while the buffer has room *)
    exited s = false ->
    pc s = AtSend -> to_launch s = S n -> (pool_len s < L)%nat ->
    step s {| pc := AtAdd; exited := false; to_launch := to_launch s;
              pool_len := S (pool_len s); wg := wg s;
              in_flight := in_flight s; at_done := at_done s;
              at_recv := at_recv s; finished := finished s |}
| step_add s :
    (** [wg.Add(1)] *)
    exited s = false -> pc s = AtAdd ->
    step s {| pc := AtGo; exited := false; to_launch := to_launch s;
              pool_len := pool_len s; wg := S (wg s);
              in_flight := in_flight s; at_done := at_done s;
              at_recv := at_recv s; finished := finished s |}
| step_go s n :
    (** [go func() ...]: the task exists, its operation is under way *)
    exited s = false -> pc s = AtGo -> to_launch s = S n ->
    step s {| pc := AtSend; exited := false; to_launch := n;
              pool_len := pool_len s; wg := wg s;
              in_flight := S (in_flight s); at_done := at_done s;
              at_recv := at_recv s; finished := finished s |}
| step_leave s :
    (** the loop condition fails *)
    exited s = false -> pc s = AtSend -> to_launch s = O ->
    step s {| pc := AtWait; exited := false; to_launch := O;
              pool_len := pool_len s; wg := wg s;
              in_flight := in_flight s; at_done := at_done s;
              at_recv := at_recv s; finished := finished s |}
| step_op s n :
    (** a task's operation ends without error *)
    exited s = false -> in_flight s = S n ->
    step s {| pc := pc s; exited := false; to_launch := to_launch s;
              pool_len := pool_len s; wg := wg s;
              in_flight := n; at_done := S (at_done s);
              at_recv := at_recv s; finished := S (finished s) |}
| step_fatal s n :
    (** a task's operation fails: [log.Fatal] ends the process *)
    exited s = false -> in_flight s = S n ->
    step s {| pc := pc s; exited := true; to_launch := to_launch s;
              pool_len := pool_len s; wg := wg s;
              in_flight := in_flight s; at_done := at_done s;
              at_recv := at_recv s; finished := finished s |}
| step_done s n w :
    (** [wg.Done()] *)
    exited s = false -> at_done s = S n -> wg s = S w ->
    step s {| pc := pc s; exited := false; to_launch := to_launch s;
              pool_len := pool_len s; wg := w;
              in_flight := in_flight s; at_done := n;
              at_recv := S (at_recv s); finished := finished s |}
| step_recv s n p :
    (** [<-pool] *)
    exited s = false -> at_recv s = S n -> pool_len s = S p ->
    step s {| pc := pc s; exited := false; to_launch := to_launch s;
              pool_len := p; wg := wg s;
              in_flight := in_flight s; at_done := at_done s;
              at_recv := n; finished := finished s |}
| step_wait s :
    (** [wg.Wait()] returns once the counter is zero *)
    exited s = false -> pc s = AtWait -> wg s = O ->
    step s {| pc := Returned; exited := false; to_launch := to_launch s;
              pool_len := pool_len s; wg := wg s;
              in_flight := in_flight s; at_done := at_done s;
              at_recv := at_recv s; finished := finished s |}.

(** The states a phase of [C] operations can be in. *)
Definition reachable (C : nat) (s : ExecState) : Prop :=
  rtc step (init C) s.

(** One for the slot the launching loop holds between its send and
    the start of the task. *)
Definition held_by_main (s : ExecState) : nat :=
  match pc s with AtAdd | AtGo => 1 | _ => 0 end.

Definition counted_by_main (s : ExecState) : nat :=
  match pc s with AtGo => 1 | _ => 0 end.

Definition past_loop (s : ExecState) : bool :=
  match pc s with AtWait | Returned => true | _ => false end.

Definition invariant (C : nat) (s : ExecState) : Prop :=
  (pool_len s = in_flight s + at_done s + at_recv s + held_by_main s
   /\ pool_len s <= L
   /\ wg s = in_flight s + at_done s + counted_by_main s
   /\ finished s + in_flight s + to_launch s = C
   /\ (past_loop s = true -> to_launch s = 0)
   /\ (held_by_main s = 1 -> to_launch s <> 0)
   /\ (pc s = Returned -> wg s = 0))%nat.

End Steps.

End Executor.

(** A phase of two operations over a pool of one slot, after its barrier
    has returned. *)
Definition finished_run : Executor.ExecState :=
  {| Executor.pc := Executor.Returned; Executor.exited := false;
     Executor.to_launch := 0; Executor.pool_len := 0; Executor.wg := 0;
     Executor.in_flight := 0; Executor.at_done := 0; Executor.at_recv := 0;
     Executor.finished := 2 |}.

(** ** Further notions used to state what the phases do *)

(** The calls of a read phase: iterators, touches and gets. *)
Definition read_event (e : Event) : bool :=
  match e with
  | EvGet _ _ | EvNewIterator | EvTouch _ _ => true
  | _ => false
  end.

(** The registry names of the keys a mode gives to a list of seeds. *)
Definition phase_keys (cfg : Config) (sequential : bool) (idx : list Z)
  : gset string :=
  list_to_set
    (omap (fun i => match makeKey cfg i sequential with
                    | Done k => Some (String.string_of_list_byte k)
                    | Panics _ => None
                    end) idx).

(** Only calls that read were made between two states, and nothing but
    the log of calls differs. *)
Definition reads_only {DB} (st st' : State DB) : Prop :=
  exists tr, st' = add_trace tr st /\ Forall (fun e => read_event e = true) tr.

(** The clock was not read between two states. *)
Definition same_clock {DB} (st st' : State DB) : Prop :=
  ticks st' = ticks st /\ clock st' = clock st.

(** The registry names of the keys the write phases of a script can
    give, each to the values its tasks can read in [i]. *)
Definition script_keys (cfg : Config) (ps : list Phase) : gset string :=
  ⋃ (map (fun p => match ph_op p with
                   | OpWrite _ start n sq =>
                       phase_keys cfg sq (write_seeds start n)
                   | _ => ∅
                   end) ps).

(** The in-memory store with an iterator that yields its entries and then
    reports an error. *)
Definition brokenIteratorBackend : Backend memDB nat := {|
  db_Put d k v _ := (mem_put k v d, None);
  db_Get d k _ := mem_get k d;
  db_NewIterator d := (d, Some "leveldb: corruption");
  db_CompactRange d := (d, None);
  db_Stats d := length d
|}.

(** A bound on the steps a phase has left: each step of the launching
    loop or of a task lowers it. *)
Definition exec_measure (s : Executor.ExecState) : nat :=
  10 * Executor.to_launch s + 3 * Executor.in_flight s
  + 2 * Executor.at_done s + Executor.at_recv s
  + match Executor.pc s with
    | Executor.AtSend => 4
    | Executor.AtAdd => 3
    | Executor.AtGo => 2
    | Executor.AtWait => 1
    | Executor.Returned => 0
    end
  + (if Executor.exited s then 0 else 1).

(** * docutil: the Markdown pages of a command tree

    The first Go file of [src/docutil/doc.go].  A [cobra.Command] is kept
    as what its methods and fields report; the chain of its parents,
    nearest first, is passed along with it.  The help command that
    [InitDefaultHelpCmd] adds is one more subcommand that is not
    available, which every loop skips.  A function that writes to the
    buffer is the text it appends. *)
From stdpp Require Import sorting.
Local Open Scope Z_scope.

Module docutil.

(** The line feed of the Go string literals. *)
Definition nl : string := String (Ascii.ascii_of_nat 10) "".

(** A [pflag.FlagSet]: whether it has a flag to show, and the text
    [PrintDefaults] writes. *)
Record FlagSet := {
  HasAvailableFlags : bool;
  FlagUsages : string
}.

#[local] Set Warnings "-register-all".
Inductive Command := mkCommand {
  Name : string;
  Short : string;
  Long : string;
  Example : string;
  UseLine : string;
  Runnable : bool;
  DisableAutoGenTag : bool;
  IsAvailableCommand : bool;
  IsAdditionalHelpTopicCommand : bool;
  NonInheritedFlags : FlagSet;
  InheritedFlags : FlagSet;
  Commands : list Command
}.

(** A command together with its parents, nearest first. *)
Definition Node : Type := list Command * Command.

(** [cmd.HasParent()] *)
Definition HasParent (parents : list Command) : bool :=
  match parents with [] => false | _ :: _ => true end.

(** [cmd.CommandPath()]: the names from the root down, separated by
    spaces. *)
Fixpoint CommandPath (parents : list Command) (cmd : Command) : string :=
  match parents with
  | [] => Name cmd
  | parent :: ancestors => CommandPath ancestors parent +:+ " " +:+ Name cmd
  end.

Definition space : Ascii.ascii := Ascii.ascii_of_nat 32.
Definition underscore : Ascii.ascii := Ascii.ascii_of_nat 95.

(** [strings.ReplaceAll(s, " ", "_")], which is also
    [strings.Replace(s, " ", "_", -1)]. *)
Fixpoint ReplaceAll_space (s : string) : string :=
  match s with
  | EmptyString => EmptyString
  | String c s' =>
      String (if Ascii.eqb c space then underscore else c)
             (ReplaceAll_space s')
  end.

(** [len(s) != 0] *)
Definition nonempty (s : string) : bool :=
  match s with EmptyString => false | String _ _ => true end.

(** The test before [continue] in the loops over subcommands. *)
Definition skipped (c : Command) : bool :=
  negb (IsAvailableCommand c) || IsAdditionalHelpTopicCommand c.

(** [byName.Less] *)
Definition byName_Less (a b : Command) : bool :=
  String.ltb (Name a) (Name b).

(** *** hasSeeAlso *)
Fixpoint hasSeeAlso_loop (cs : list Command) : bool :=
  match cs with
  | [] => false
  | c :: cs' => if skipped c then hasSeeAlso_loop cs' else true
  end.

Definition hasSeeAlso (parents : list Command) (cmd : Command) : bool :=
  if HasParent parents then true else hasSeeAlso_loop (Commands cmd).

(** *** printToC *)
Definition printToC (parents : list Command) (cmd : Command) : string :=
  "## Table of Contents" +:+ nl +:+ nl
  +:+ "- [Description](#description)" +:+ nl
  +:+ "- [Usage](#usage)" +:+ nl
  +:+ "- [Flags](#flags)" +:+ nl
  +:+ (if nonempty (Example cmd)
       then "- [Examples](#examples)" +:+ nl else "")
  +:+ (if hasSeeAlso parents cmd
       then "- [See Also](#see-also)" +:+ nl else "")
  +:+ nl.

(** *** printFlags: the text written; the error returned is always
    nil, and [name] is not used. *)
Definition printFlags (cmd : Command) (name : string) : string :=
  let flags := NonInheritedFlags cmd in
  let parentFlags := InheritedFlags cmd in
  (if HasAvailableFlags flags || HasAvailableFlags parentFlags
   then "## Flags" else "")
  +:+ (if HasAvailableFlags flags
       then nl +:+ nl +:+ "```bash" +:+ nl +:+ FlagUsages flags
            +:+ "```" +:+ nl +:+ nl
       else "")
  +:+ (if HasAvailableFlags parentFlags
       then "The command also inherits flags from parent commands."
            +:+ nl +:+ nl +:+ "```bash" +:+ nl +:+ FlagUsages parentFlags
            +:+ "```" +:+ nl +:+ nl
       else "").

(** The name of the page of a command, as [genMarkdownDoc] computes
    it. *)
Definition basename (node : Node) : string :=
  ReplaceAll_space (CommandPath node.1 node.2) +:+ ".md".

(** A line of the See-also list as a reader sees it: the path of the
    command, the link to its page and its short description. *)
Definition seeAlso_entry (linkHandler : string -> string) (node : Node)
  : string :=
  "- [" +:+ CommandPath node.1 node.2 +:+ "]("
  +:+ linkHandler (basename node) +:+ ") - " +:+ Short node.2.

(** The texts of the elements of a list, one after the other. *)
Definition texts {A : Type} (f : A -> string) (l : list A) : string :=
  foldr (fun x acc => f x +:+ acc) "" l.

Section Pages.

(** [sort.Sort(byName(children))]: some ordering of the subcommands
    that [byName] accepts as sorted. *)
Variable sort_Sort : list Command -> list Command.

(** *** printSeeAlso *)

(** The line of the parent. *)
Definition seeAlso_parent (parents : list Command)
  (linkHandler : string -> string) : string :=
  match parents with
  | [] => ""
  | parent :: ancestors =>
      let pname := CommandPath ancestors parent in
      let link := ReplaceAll_space (pname +:+ ".md") in
      nl +:+ "- [" +:+ pname +:+ "](" +:+ linkHandler link +:+ ") - "
      +:+ Short parent
  end.

(** The loop over the sorted subcommands. *)
Fixpoint seeAlso_children (name : string) (linkHandler : string -> string)
  (children : list Command) : string :=
  match children with
  | [] => ""
  | child :: rest =>
      if skipped child then seeAlso_children name linkHandler rest
      else
        let cname := name +:+ " " +:+ Name child in
        let link := ReplaceAll_space (cname +:+ ".md") in
        (nl +:+ "- [" +:+ cname +:+ "](" +:+ linkHandler link +:+ ") - "
         +:+ Short child +:+ nl)
        +:+ seeAlso_children name linkHandler rest
  end.

(** The text written, and [cmd.DisableAutoGenTag] as [VisitParents]
    leaves it: set when a parent has it set. *)
Definition printSeeAlso (parents : list Command) (cmd : Command)
  (name : string) (linkHandler : string -> string) : string * bool :=
  (seeAlso_parent parents linkHandler
   +:+ seeAlso_children name linkHandler (sort_Sort (Commands cmd))
   +:+ nl,
   if HasParent parents
   then DisableAutoGenTag cmd || existsb DisableAutoGenTag parents
   else DisableAutoGenTag cmd).

(** *** genMarkdownPage: the contents of the buffer *)
Definition genMarkdownPage (parents : list Command) (cmd : Command)
  : string :=
  let name := CommandPath parents cmd in
  let short := Short cmd in
  "# `" +:+ name +:+ "`" +:+ nl +:+ nl
  +:+ (if negb (DisableAutoGenTag cmd)
       then "> Auto-generated documentation." +:+ nl +:+ nl else "")
  +:+ printToC parents cmd
  +:+ "## Description" +:+ nl +:+ nl
  +:+ short +:+ nl +:+ nl
  +:+ (if Runnable cmd
       then "```bash" +:+ nl +:+ UseLine cmd +:+ nl +:+ "```" +:+ nl +:+ nl
       else "")
  +:+ (if nonempty (Long cmd)
       then "## Usage" +:+ nl +:+ nl +:+ Long cmd +:+ nl else "")
  +:+ printFlags cmd name
  +:+ (if nonempty (Example cmd)
       then "## Examples" +:+ nl +:+ nl
            +:+ "```bash" +:+ nl +:+ Example cmd +:+ nl +:+ "```"
            +:+ nl +:+ nl
       else "")
  +:+ (if hasSeeAlso parents cmd
       then "## See also" +:+ nl
            +:+ (printSeeAlso parents cmd name (fun s => s)).1
       else "").

(** The commands a See-also list links to: the parent, then the
    sorted subcommands that are not skipped. *)
Definition seeAlso_children_nodes (parents : list Command) (cmd : Command)
  : list Node :=
  map (fun c => (cmd :: parents, c))
      (filter (fun c => skipped c = false) (sort_Sort (Commands cmd))).

Definition seeAlso_parent_node (parents : list Command) : list Node :=
  match parents with
  | [] => []
  | parent :: ancestors => [(ancestors, parent)]
  end.

Definition seeAlso_targets (node : Node) : list Node :=
  seeAlso_parent_node node.1 ++ seeAlso_children_nodes node.1 node.2.

End Pages.

(** *** The file system *)

(** [os.Create], the write of the buffer to the file it opened, and
    [f.Close], whose error the code drops. *)
Class FileSystem (FS : Type) := {
  os_Create : FS -> string -> FS * option error;
  file_Write : FS -> string -> string -> FS * option error;
  file_Close : FS -> string -> FS
}.

(** The calls made on the file system, in order, each with the error
    it returned to the code. *)
Inductive FsCall :=
| CallCreate (filename : string)
| CallWrite (filename content : string)
| CallClose (filename : string).

Definition FsEvent : Type := FsCall * option error.

Record DocState (FS : Type) := {
  fs : FS;
  calls : list FsEvent
}.
Arguments fs {FS} _.
Arguments calls {FS} _.

Definition succeeded (e : FsEvent) : Prop := e.2 = None.

Definition opened (e : FsEvent) : bool :=
  match e with (CallCreate _, None) => true | _ => false end.

Definition closed (e : FsEvent) : bool :=
  match e with (CallClose _, _) => true | _ => false end.

Section Doc.

Context {FS : Type} {fsys : FileSystem FS}.
Variable sort_Sort : list Command -> list Command.
(** [filepath.Join] *)
Variable filepath_Join : string -> string -> string.

Definition Create (filename : string) (st : DocState FS)
  : DocState FS * option error :=
  let '(f, err) := os_Create (fs st) filename in
  ({| fs := f; calls := calls st ++ [(CallCreate filename, err)] |}, err).

Definition WriteTo (filename content : string) (st : DocState FS)
  : DocState FS * option error :=
  let '(f, err) := file_Write (fs st) filename content in
  ({| fs := f; calls := calls st ++ [(CallWrite filename content, err)] |},
   err).

Definition Close (filename : string) (st : DocState FS) : DocState FS :=
  {| fs := file_Close (fs st) filename;
     calls := calls st ++ [(CallClose filename, None)] |}.

(** The part of [genMarkdownDoc] after the loop; the deferred
    [f.Close()] runs once the page has been written or has failed. *)
Definition genMarkdownFile (parents : list Command) (cmd : Command)
  (dir : string) (st : DocState FS) : DocState FS * option error :=
  let filename := filepath_Join dir (basename (parents, cmd)) in
  match Create filename st with
  | (st1, Some err) => (st1, Some err)
  | (st1, None) =>
      let '(st2, err) :=
        WriteTo filename (genMarkdownPage sort_Sort parents cmd) st1 in
      (Close filename st2, err)
  end.

(** The loop of [genMarkdownDoc] over the subcommands, given what the
    recursive call does. *)
Fixpoint doc_loop
  (rec : Command -> DocState FS -> DocState FS * option error)
  (cs : list Command) (st : DocState FS) : DocState FS * option error :=
  match cs with
  | [] => (st, None)
  | c :: cs' =>
      if skipped c then doc_loop rec cs' st
      else match rec c st with
           | (st1, Some err) => (st1, Some err)
           | (st1, None) => doc_loop rec cs' st1
           end
  end.

(** *** genMarkdownDoc *)
Fixpoint genMarkdownDoc (parents : list Command) (cmd : Command)
  (dir : string) (st : DocState FS) {struct cmd}
  : DocState FS * option error :=
  let fix loop (cs : list Command) (st : DocState FS)
    : DocState FS * option error :=
    match cs with
    | [] => (st, None)
    | c :: cs' =>
        if skipped c then loop cs' st
        else match genMarkdownDoc (cmd :: parents) c dir st with
             | (st1, Some err) => (st1, Some err)
             | (st1, None) => loop cs' st1
             end
    end in
  match loop (Commands cmd) st with
  | (st1, Some err) => (st1, Some err)
  | (st1, None) => genMarkdownFile parents cmd dir st1
  end.

(** The calls of a page whose creation and write succeed. *)
Definition page_calls (dir : string) (node : Node) : list FsEvent :=
  let filename := filepath_Join dir (basename node) in
  [(CallCreate filename, None);
   (CallWrite filename (genMarkdownPage sort_Sort node.1 node.2), None);
   (CallClose filename, None)].

(** The calls of a page that fails with [err]: at its creation, or
    at its write, after which the file is still closed. *)
Definition page_failure (dir : string) (node : Node) (err : error)
  (tr : list FsEvent) : Prop :=
  let filename := filepath_Join dir (basename node) in
  tr = [(CallCreate filename, Some err)] \/
  tr = [(CallCreate filename, None);
        (CallWrite filename (genMarkdownPage sort_Sort node.1 node.2),
         Some err);
        (CallClose filename, None)].

(** The calls of a run over the pages of [nodes] that returns [r]:
    all the pages when it returns nil; otherwise the pages before
    the one that fails, then the calls of the failure. *)
Definition doc_trace (dir : string) (nodes : list Node)
  (r : option error) (tr : list FsEvent) : Prop :=
  match r with
  | None => tr = flat_map (page_calls dir) nodes
  | Some err =>
      exists done node rest ftr,
        nodes = done ++ node :: rest
        /\ page_failure dir node err ftr
        /\ tr = flat_map (page_calls dir) done ++ ftr
  end.

End Doc.

(** The commands that get a page, in the order of their pages: those
    under each subcommand that is not skipped, then the command. *)
Fixpoint doc_nodes_loop (rec : Command -> list Node) (cs : list Command)
  : list Node :=
  match cs with
  | [] => []
  | c :: cs' =>
      if skipped c then doc_nodes_loop rec cs'
      else rec c ++ doc_nodes_loop rec cs'
  end.

Fixpoint doc_nodes (parents : list Command) (cmd : Command) {struct cmd}
  : list Node :=
  (fix loop (cs : list Command) : list Node :=
     match cs with
     | [] => []
     | c :: cs' =>
         if skipped c then loop cs'
         else doc_nodes (cmd :: parents) c ++ loop cs'
     end) (Commands cmd)
  ++ [(parents, cmd)].

(** An in-memory file system: the files and their contents, newest
    first; creating a file whose name is in [denied] fails, and so
    does a write of more than [quota] bytes. *)
Definition memFS := list (string * string).

Definition memFileSystem (denied : list string) (quota : nat)
  : FileSystem memFS := {|
  os_Create f filename :=
    if bool_decide (filename ∈ denied) then (f, Some "permission denied")
    else ((filename, "") :: f, None);
  file_Write f filename content :=
    if bool_decide (String.length content <= quota)%nat
    then ((filename, content) :: f, None)
    else (f, Some "no space left on device");
  file_Close f filename := f
|}.

(** Sorting by insertion of each subcommand before the first one whose
    name is greater. *)
Fixpoint insert_byName (c : Command) (l : list Command) : list Command :=
  match l with
  | [] => [c]
  | x :: l' => if byName_Less c x then c :: l else x :: insert_byName c l'
  end.

Definition insertion_sort (l : list Command) : list Command :=
  foldr insert_byName [] l.

(** A leaf command and a command with subcommands, for concrete runs. *)
Definition noFlags : FlagSet :=
  {| HasAvailableFlags := false; FlagUsages := "" |}.

Definition leaf (name short : string) (available : bool) : Command :=
  {| Name := name; Short := short; Long := ""; Example := "";
     UseLine := name; Runnable := true; DisableAutoGenTag := false;
     IsAvailableCommand := available; IsAdditionalHelpTopicCommand := false;
     NonInheritedFlags := noFlags; InheritedFlags := noFlags;
     Commands := [] |}.

Definition hashCmd : Command := leaf "hash" "digests" true.

Definition rootCmd : Command :=
  {| Name := "polycli"; Short := "tools"; Long := ""; Example := "";
     UseLine := "polycli"; Runnable := false; DisableAutoGenTag := false;
     IsAvailableCommand := true; IsAdditionalHelpTopicCommand := false;
     NonInheritedFlags := noFlags; InheritedFlags := noFlags;
     Commands := [ leaf "wallet" "keys" true;
                   leaf "help" "help" false;
                   hashCmd ] |}.

Definition joinPath (dir base : string) : string := dir +:+ "/" +:+ base.

Definition emptyDoc : DocState memFS := {| fs := []; calls := [] |}.

(** The pages of [rootCmd] written under [docs], and the pages of
    [hashCmd] alone. *)
Definition docRun (denied : list string) : DocState memFS * option error :=
  genMarkdownDoc (fsys := memFileSystem denied 1000) insertion_sort joinPath
    [] rootCmd "docs" emptyDoc.

Definition subRun : DocState memFS * option error :=
  genMarkdownDoc (fsys := memFileSystem [] 1000) insertion_sort joinPath
    [rootCmd] hashCmd "docs" emptyDoc.

End docutil.

(** * Properties *)

(** ** Bytes and encodings *)

Lemma Z_of_byte_of_Z z : Z_of_byte (byte_of_Z z) = z mod 256.
Proof.
  unfold Z_of_byte, byte_of_Z.
  assert (Hb : 0 <= z mod 256 < 256) by (apply Z.mod_pos_bound; lia).
  destruct (Byte.of_N (Z.to_N (z mod 256))) as [b|] eqn:E.
  - apply Byte.to_of_N in E. rewrite E. rewrite Z2N.id; lia.
  - apply Byte.of_N_None_iff in E. lia.
Qed.

Lemma Z_of_byte_range b : 0 <= Z_of_byte b < 256.
Proof.
  unfold Z_of_byte. pose proof (Byte.to_N_bounded b). lia.
Qed.

Lemma byte_of_Z_of_byte b : byte_of_Z (Z_of_byte b) = b.
Proof.
  unfold byte_of_Z. pose proof (Z_of_byte_range b) as H.
  rewrite Z.mod_small by lia. unfold Z_of_byte. rewrite N2Z.id.
  now rewrite Byte.of_to_N.
Qed.

Lemma string_of_list_byte_inj a b :
  String.string_of_list_byte a = String.string_of_list_byte b -> a = b.
Proof.
  intros H. rewrite <- (String.list_byte_of_string_of_list_byte a),
    <- (String.list_byte_of_string_of_list_byte b). now rewrite H.
Qed.

(** The eight bytes written by PutUint64 *)
Lemma uint64_bytes_value v :
  0 <= v < 2 ^ 64 ->
  v = ((((((((v / 2^56) mod 256 * 256 + (v / 2^48) mod 256) * 256
        + (v / 2^40) mod 256) * 256 + (v / 2^32) mod 256) * 256
        + (v / 2^24) mod 256) * 256 + (v / 2^16) mod 256) * 256
        + (v / 2^8) mod 256) * 256 + v mod 256).
Proof.
  intros H.
  change (2^56) with (2^48 * 256). change (2^48) with (2^40 * 256).
  change (2^40) with (2^32 * 256). change (2^32) with (2^24 * 256).
  change (2^24) with (2^16 * 256). change (2^16) with (2^8 * 256).
  change (2^8) with 256.
  Z.to_euclidean_division_equations; lia.
Qed.

Lemma be_value_be_bytes64 v : 0 <= v < 2 ^ 64 -> be_value (be_bytes64 v) = v.
Proof.
  intros H. unfold be_value, be_bytes64. cbn [fold_left].
  rewrite !Z_of_byte_of_Z, !Z.shiftr_div_pow2 by lia.
  rewrite Z.mul_0_l, Z.add_0_l. symmetry. now apply uint64_bytes_value.
Qed.

Lemma le_value_le_bytes64 v : 0 <= v < 2 ^ 64 -> le_value (le_bytes64 v) = v.
Proof.
  intros H. unfold le_value, le_bytes64. cbn [fold_right].
  rewrite !Z_of_byte_of_Z, !Z.shiftr_div_pow2 by lia.
  rewrite (uint64_bytes_value v H) at 9. lia.
Qed.

Lemma be_bytes64_inj a b :
  0 <= a < 2 ^ 64 -> 0 <= b < 2 ^ 64 -> be_bytes64 a = be_bytes64 b -> a = b.
Proof.
  intros Ha Hb E. rewrite <- (be_value_be_bytes64 a Ha), <- (be_value_be_bytes64 b Hb).
  now rewrite E.
Qed.

Lemma length_make_bytes n : length (make_bytes n) = Z.to_nat n.
Proof. apply length_replicate. Qed.

Lemma drop_make_bytes n : drop 8 (make_bytes n) = replicate (Z.to_nat n - 8) x00.
Proof. apply drop_replicate. Qed.

Lemma BigEndian_PutUint64_make k v :
  BigEndian_PutUint64 (make_bytes k) v =
  if k <? 8 then None else Some (be_bytes64 v ++ replicate (Z.to_nat k - 8) x00).
Proof.
  unfold BigEndian_PutUint64. rewrite length_make_bytes, drop_make_bytes.
  destruct (Nat.ltb_spec (Z.to_nat k) 8), (Z.ltb_spec k 8); try reflexivity; lia.
Qed.

Lemma LittleEndian_PutUint64_make k v :
  LittleEndian_PutUint64 (make_bytes k) v =
  if k <? 8 then None else Some (le_bytes64 v ++ replicate (Z.to_nat k - 8) x00).
Proof.
  unfold LittleEndian_PutUint64. rewrite length_make_bytes, drop_make_bytes.
  destruct (Nat.ltb_spec (Z.to_nat k) 8), (Z.ltb_spec k 8); try reflexivity; lia.
Qed.

Lemma sha1_Sum_length data : length (sha1.Sum data) = 20%nat.
Proof. reflexivity. Qed.

(** The key computed by [makeKV], as a function of the key size. *)
Lemma makeKey_sequential cfg seed :
  makeKey cfg seed true =
  if keySize cfg <? 8 then Panics IndexOutOfRange
  else Done (be_bytes64 (sub64 MaxUint64 seed)
               ++ replicate (Z.to_nat (keySize cfg) - 8) x00).
Proof.
  unfold makeKey. rewrite BigEndian_PutUint64_make.
  now destruct (keySize cfg <? 8).
Qed.

Lemma makeKey_hashed cfg seed :
  makeKey cfg seed false =
  if keySize cfg <? 8 then Panics IndexOutOfRange
  else if 20 <? keySize cfg then Panics SliceBoundsOutOfRange
  else Done (take (Z.to_nat (keySize cfg))
               (sha1.Sum (le_bytes64 seed
                            ++ replicate (Z.to_nat (keySize cfg) - 8) x00))).
Proof.
  unfold makeKey. rewrite LittleEndian_PutUint64_make.
  destruct (keySize cfg <? 8); [reflexivity|].
  now rewrite sha1_Sum_length.
Qed.

Lemma key_of_makeKV cfg g seed valueSize sequential :
  key_of (makeKV cfg g seed valueSize sequential) = makeKey cfg seed sequential.
Proof.
  unfold makeKV, key_of. now destruct (makeKey cfg seed sequential).
Qed.

Lemma makeKV_Done cfg g seed valueSize sequential k v g' :
  makeKV cfg g seed valueSize sequential = Done (k, v, g') <->
  makeKey cfg seed sequential = Done k
  /\ v = (Rand_Read (randSrc g) (Z.to_nat valueSize)).1
  /\ g' = {| knownKeys := <[String.string_of_list_byte k := k]> (knownKeys g);
             randSrc := (Rand_Read (randSrc g) (Z.to_nat valueSize)).2 |}.
Proof.
  unfold makeKV. destruct (makeKey cfg seed sequential) as [k0|p]; cbn.
  - split.
    + intros [= <- <- <-]. auto.
    + intros ([= ->] & -> & ->). reflexivity.
  - split; [discriminate | intros [? _]; discriminate].
Qed.

Lemma sub64_MaxUint64 i : 0 <= i < 2 ^ 64 -> sub64 MaxUint64 i = MaxUint64 - i.
Proof.
  intros H. unfold sub64, wrap64, MaxUint64. apply Z.mod_small. lia.
Qed.

Lemma Done_inj {A} (a b : A) : Done a = Done b -> a = b.
Proof. now intros [= ->]. Qed.

(** C1, as amended.  With the sequential flag set and a key size of at
    least eight bytes, the key of index [i] is the eight-byte big-endian
    encoding of [MaxUint64 - i] followed by zero bytes up to the key size
    (zero-extended, never truncated): it has the configured length, its
    first eight bytes denote [MaxUint64 - i], and two indices of the
    [uint64] range have the same key if and only if they are equal,
    whatever the registry, the random source and the value size are. *)
Theorem makeKV_sequential_key cfg g i valueSize :
  8 <= keySize cfg -> 0 <= i < 2 ^ 64 ->
  let key := be_bytes64 (MaxUint64 - i)
               ++ replicate (Z.to_nat (keySize cfg) - 8) x00 in
  key_of (makeKV cfg g i valueSize true) = Done key
  /\ Z.of_nat (length key) = keySize cfg
  /\ be_value (take 8 key) = MaxUint64 - i
  /\ (forall g' valueSize' j, 0 <= j < 2 ^ 64 ->
        key_of (makeKV cfg g' j valueSize' true)
        = key_of (makeKV cfg g i valueSize true) <-> j = i).
Proof.
  intros Hk Hi key.
  assert (Hkey : forall g0 vs j, 0 <= j < 2 ^ 64 ->
            key_of (makeKV cfg g0 j vs true)
            = Done (be_bytes64 (MaxUint64 - j)
                      ++ replicate (Z.to_nat (keySize cfg) - 8) x00)).
  { intros g0 vs j Hj. rewrite key_of_makeKV, makeKey_sequential.
    destruct (Z.ltb_spec (keySize cfg) 8); [lia|].
    now rewrite sub64_MaxUint64. }
  split; [now apply Hkey|]. split; [|split].
  - unfold key. rewrite length_app, length_replicate. cbn. lia.
  - unfold key. rewrite take_app_length' by reflexivity.
    apply be_value_be_bytes64. unfold MaxUint64. lia.
  - intros g' vs' j Hj. rewrite !Hkey by assumption. split.
    + intros E. apply Done_inj, app_inv_tail in E.
      apply be_bytes64_inj in E; unfold MaxUint64 in *; lia.
    + now intros ->.
Qed.

(** C2, as amended.  With the sequential flag unset and a key size between
    eight and twenty bytes, the key of index [i] is the SHA-1 digest of
    the key-size buffer that holds [i] little-endian in its first eight
    bytes and zeros after them, cut to the key size; the key depends on
    the index alone: generating it again, from any registry, random
    source and value size, gives the same key. *)
Theorem makeKV_hashed_key cfg g i valueSize :
  8 <= keySize cfg <= 20 -> 0 <= i < 2 ^ 64 ->
  let buffer := le_bytes64 i ++ replicate (Z.to_nat (keySize cfg) - 8) x00 in
  let key := take (Z.to_nat (keySize cfg)) (sha1.Sum buffer) in
  key_of (makeKV cfg g i valueSize false) = Done key
  /\ Z.of_nat (length buffer) = keySize cfg
  /\ le_value (take 8 buffer) = i
  /\ length (sha1.Sum buffer) = 20%nat
  /\ Z.of_nat (length key) = keySize cfg
  /\ (forall g' valueSize',
        key_of (makeKV cfg g' i valueSize' false)
        = key_of (makeKV cfg g i valueSize false)).
Proof.
  intros Hk Hi buffer key. repeat split.
  - rewrite key_of_makeKV, makeKey_hashed.
    destruct (Z.ltb_spec (keySize cfg) 8); [lia|].
    destruct (Z.ltb_spec 20 (keySize cfg)); [lia|]. reflexivity.
  - unfold buffer. rewrite length_app, length_replicate. cbn. lia.
  - unfold buffer. rewrite take_app_length' by reflexivity.
    now apply le_value_le_bytes64.
  - unfold key. rewrite length_take, sha1_Sum_length. lia.
  - intros g' vs'. now rewrite !key_of_makeKV.
Qed.

Lemma makeKey_length cfg seed sequential k :
  makeKey cfg seed sequential = Done k -> Z.of_nat (length k) = keySize cfg.
Proof.
  destruct sequential; rewrite ?makeKey_sequential, ?makeKey_hashed;
    destruct (Z.ltb_spec (keySize cfg) 8); try discriminate.
  - intros E. apply Done_inj in E. subst k.
    rewrite length_app, length_replicate.
    change (length (be_bytes64 _)) with 8%nat. lia.
  - destruct (Z.ltb_spec 20 (keySize cfg)); try discriminate.
    intros E. apply Done_inj in E. subst k.
    rewrite length_take, sha1_Sum_length. lia.
Qed.

Lemma makeKey_panics cfg seed sequential :
  panics (makeKey cfg seed sequential) = false
  <-> 8 <= keySize cfg /\ (sequential = false -> keySize cfg <= 20).
Proof.
  destruct sequential; rewrite ?makeKey_sequential, ?makeKey_hashed;
    destruct (Z.ltb_spec (keySize cfg) 8);
    try destruct (Z.ltb_spec 20 (keySize cfg));
    unfold panics; split; try discriminate; try lia;
    try (intros [? ?]; lia); try (intros _; split; [lia | discriminate]);
    try reflexivity.
Qed.

(** C10.  [makeKV] runs without a panic exactly when the key size is at
    least eight and, in non-sequential mode, at most twenty.  Below eight
    both modes panic on the index check of [PutUint64]; above twenty the
    non-sequential mode panics on the slice of the digest; a key that is
    returned has exactly the configured length, so no key is ever
    truncated or extended to fit. *)
Theorem makeKV_panics_outside_key_bounds cfg g seed valueSize sequential :
  (panics (makeKV cfg g seed valueSize sequential) = false
     <-> 8 <= keySize cfg /\ (sequential = false -> keySize cfg <= 20))
  /\ (keySize cfg < 8 ->
        key_of (makeKV cfg g seed valueSize sequential) = Panics IndexOutOfRange)
  /\ (8 <= keySize cfg -> 20 < keySize cfg ->
        key_of (makeKV cfg g seed valueSize false) = Panics SliceBoundsOutOfRange)
  /\ (forall k, key_of (makeKV cfg g seed valueSize sequential) = Done k ->
        Z.of_nat (length k) = keySize cfg).
Proof.
  assert (Hp : panics (makeKV cfg g seed valueSize sequential)
               = panics (makeKey cfg seed sequential)).
  { unfold makeKV. now destruct (makeKey cfg seed sequential). }
  rewrite Hp, !key_of_makeKV. clear Hp.
  split; [apply makeKey_panics|]. split; [|split].
  - intros Hk. destruct sequential;
      rewrite ?makeKey_sequential, ?makeKey_hashed;
      destruct (Z.ltb_spec (keySize cfg) 8); (reflexivity || lia).
  - intros H8 H20. rewrite makeKey_hashed.
    destruct (Z.ltb_spec (keySize cfg) 8); [lia|].
    destruct (Z.ltb_spec 20 (keySize cfg)); (reflexivity || lia).
  - apply makeKey_length.
Qed.

(** ** The registry *)

Lemma register_all_snoc ks k m :
  register_all (ks ++ [k]) m
  = <[String.string_of_list_byte k := k]> (register_all ks m).
Proof. unfold register_all. now rewrite foldl_app. Qed.

Lemma register_all_cons k ks m :
  register_all (k :: ks) m
  = register_all ks (<[String.string_of_list_byte k := k]> m).
Proof. reflexivity. Qed.

Lemma self_valued_insert k m :
  self_valued m -> self_valued (<[String.string_of_list_byte k := k]> m).
Proof.
  intros Hm s v. rewrite lookup_insert. case_decide as E.
  - intros [= <-]. now subst s.
  - apply Hm.
Qed.

Lemma self_valued_insert_subseteq k m :
  self_valued m -> m ⊆ <[String.string_of_list_byte k := k]> m.
Proof.
  intros Hm. apply map_subseteq_spec. intros s v Hs.
  rewrite lookup_insert. case_decide as E; [|assumption].
  subst s. f_equal. apply string_of_list_byte_inj. now apply Hm.
Qed.

Lemma self_valued_empty : self_valued ∅.
Proof. intros s v. now rewrite lookup_empty. Qed.

Lemma dom_insert_grows (k : list byte) (m : gmap string (list byte)) :
  dom m ⊆ dom (<[String.string_of_list_byte k := k]> m).
Proof. rewrite dom_insert_L. apply union_subseteq_r. Qed.

Lemma register_all_dom ks (m : gmap string (list byte)) :
  dom (register_all ks m)
  = list_to_set (String.string_of_list_byte <$> ks) ∪ dom m.
Proof.
  revert m. induction ks as [|k ks IH]; intros m.
  - cbn. now rewrite union_empty_l_L.
  - rewrite register_all_cons, IH, dom_insert_L. cbn.
    rewrite (union_comm_L {[_]} (list_to_set _)). now rewrite union_assoc_L.
Qed.

Lemma register_all_self_valued ks m :
  self_valued m -> self_valued (register_all ks m).
Proof.
  revert m. induction ks as [|k ks IH]; intros m Hm; [assumption|].
  rewrite register_all_cons. apply IH. now apply self_valued_insert.
Qed.

(** The size of the registry after [ks]: one more entry for each key
    that is neither registered already nor registered earlier in [ks]. *)
Lemma register_all_size ks (m : gmap string (list byte)) :
  (size (register_all ks m) <= size m + length ks)%nat
  /\ (size (register_all ks m) = (size m + length ks)%nat
      <-> NoDup ks /\ forall k, k ∈ ks -> m !! String.string_of_list_byte k = None).
Proof.
  revert m. induction ks as [|k ks IH]; intros m.
  - cbn. split; [lia|]. split; [|lia]. intros _. split; [constructor|].
    intros k Hk. now apply elem_of_nil in Hk.
  - rewrite register_all_cons. destruct (IH (<[String.string_of_list_byte k := k]> m)) as [IH1 IH2].
    destruct (m !! String.string_of_list_byte k) as [v|] eqn:Ek.
    + assert (Hs : size (<[String.string_of_list_byte k := k]> m) = size m).
      { rewrite <- !size_dom. f_equal. rewrite dom_insert_L.
        apply subseteq_union_1_L, singleton_subseteq_l, elem_of_dom. eauto. }
      rewrite Hs in *. cbn [length]. split; [lia|]. split.
      * intros E. lia.
      * intros [_ Hf]. specialize (Hf k (list_elem_of_here _ _)). congruence.
    + rewrite map_size_insert_None in * by assumption. cbn [length].
      split; [lia|]. rewrite <- Nat.add_succ_comm, IH2. split.
      * intros [Hnd Hf]. split.
        -- constructor; [|assumption]. intros Hin. specialize (Hf k Hin).
           now rewrite lookup_insert_eq in Hf.
        -- intros k' Hk'. apply elem_of_cons in Hk' as [->|Hk']; [assumption|].
           specialize (Hf k' Hk'). rewrite lookup_insert in Hf.
           case_decide; [discriminate | assumption].
      * intros [Hnd Hf]. apply NoDup_cons in Hnd as [Hnk Hnd]. split; [assumption|].
        intros k' Hk'. rewrite lookup_insert. case_decide as E.
        -- apply string_of_list_byte_inj in E. subst k'. contradiction.
        -- apply Hf. now apply elem_of_cons; right.
Qed.

(** ** The harness monad *)
Section HarnessLemmas.

Context {DB Stats : Type} {backend : Backend DB Stats}.
Variable cfg : Config.

Lemma bind_eq {A B} (m : M DB A) (k : A -> M DB B) st :
  (m ≫= k) st =
  match m st with
  | Ok a st' => k a st'
  | Fatal msg st' => Fatal msg st'
  | Panicked p st' => Panicked p st'
  | Blocked st' => Blocked st'
  | Running st' => Running st'
  end.
Proof. reflexivity. Qed.

Lemma bind_Ok_inv {A B} (m : M DB A) (k : A -> M DB B) st b st2 :
  (m ≫= k) st = Ok b st2 ->
  exists a st1, m st = Ok a st1 /\ k a st1 = Ok b st2.
Proof. rewrite bind_eq. destruct (m st); try discriminate. eauto. Qed.

Lemma stable_ret R `{!Reflexive R} {A} (a : A) : stable R (ret a : M DB A).
Proof. intros st. cbn. reflexivity. Qed.

Lemma stable_log_Fatal R `{!Reflexive R} {A} msg :
  stable R (log_Fatal msg : M DB A).
Proof. intros st. cbn. reflexivity. Qed.

Lemma stable_bind R `{!Transitive R} {A B} (m : M DB A) (k : A -> M DB B) :
  stable R m -> (forall a, stable R (k a)) -> stable R (m ≫= k).
Proof.
  intros Hm Hk st. rewrite bind_eq. specialize (Hm st).
  destruct (m st) as [a st'| | | |]; try exact Hm.
  cbn in Hm. etransitivity; [exact Hm | apply Hk].
Qed.

Lemma choose_eq k n (st : State DB) :
  choose k n st = Ok (sched st (ticks st) k mod n)%nat st.
Proof. reflexivity. Qed.

(** Induction on a run of a system of goroutines: [I] holds of the
    configurations and states the run goes through, with the steps it
    has left, and [P] of every way it can end. *)
Lemma run_threads_ind {C A} (runnable : C -> nat)
  (step : nat -> C -> M DB (C + A))
  (I : nat -> C -> State DB -> Prop) (P : Outcome DB A -> Prop) :
  (forall c st, I O c st -> P (Running st)) ->
  (forall f c st, I (S f) c st -> runnable c = O -> P (Blocked st)) ->
  (forall f c st n, I (S f) c st -> (n < runnable c)%nat ->
     match step n c st with
     | Ok (inl c') st' => I f c' st'
     | Ok (inr a) st' => P (Ok a st')
     | Fatal msg st' => P (Fatal msg st')
     | Panicked p st' => P (Panicked p st')
     | Blocked st' => P (Blocked st')
     | Running st' => P (Running st')
     end) ->
  forall fuel k c st, I fuel c st ->
    P (run_threads runnable step fuel k c st).
Proof.
  intros H0 Hb Hs fuel. induction fuel as [|f IH]; intros k c st HI.
  - apply (H0 c), HI.
  - cbn [run_threads]. destruct (runnable c) as [|r] eqn:Er.
    + apply (Hb f c), Er. exact HI.
    + rewrite bind_eq, choose_eq, bind_eq.
      specialize (Hs f c st (sched st (ticks st) k mod S r)%nat HI).
      rewrite Er in Hs.
      assert (Hlt : (sched st (ticks st) k mod S r < S r)%nat)
        by (apply Nat.mod_upper_bound; discriminate).
      specialize (Hs Hlt).
      destruct (step _ c st) as [[c'|a] st'| | | |]; try exact Hs.
      apply IH, Hs.
Qed.

Lemma run_threads_stable R `{!PreOrder R} {C A} (runnable : C -> nat)
  (step : nat -> C -> M DB (C + A)) fuel k c :
  (forall n c, stable R (step n c)) ->
  stable R (run_threads runnable step fuel k c).
Proof.
  intros Hs st.
  apply (run_threads_ind runnable step (fun _ _ st' => R st st')
           (fun o => R st (final_state o))); try (intros; assumption).
  - intros f c0 st0 n HI _. specialize (Hs n c0 st0).
    destruct (step n c0 st0) as [[c'|a] st'| | | |]; cbn in Hs |- *;
      etransitivity; eassumption.
  - reflexivity.
Qed.

#[global] Instance registry_grows_preorder : PreOrder (registry_grows DB).
Proof.
  split.
  - intros st. split; [reflexivity|]. intros H. split; [reflexivity | exact H].
  - intros a b c [D1 S1] [D2 S2]. split; [etransitivity; eassumption|].
    intros Ha. destruct (S1 Ha) as [Sab Hb]. destruct (S2 Hb) as [Sbc Hc].
    split; [etransitivity; eassumption | exact Hc].
Qed.

#[global] Instance keeps_stats_count_preorder : PreOrder (keeps_stats_count DB).
Proof.
  split.
  - intros st. reflexivity.
  - intros a b c H1 H2. unfold keeps_stats_count in *. congruence.
Qed.

Lemma keeps_globals_registry {A} (m : M DB A) :
  keeps_globals m -> stable (registry_grows DB) m.
Proof.
  intros H st. unfold registry_grows. rewrite (H st).
  split; [reflexivity|]. intros Hs. split; [reflexivity | exact Hs].
Qed.

Lemma count_app p (a b : list Event) :
  count p (a ++ b) = (count p a + count p b)%nat.
Proof. unfold count. now rewrite List.filter_app, length_app. Qed.

Lemma register_key_registry seed sequential :
  stable (registry_grows DB) (register_key cfg seed sequential).
Proof.
  intros st. unfold register_key.
  destruct (makeKey cfg seed sequential) as [k|p]; [|reflexivity].
  cbn. split.
  - apply dom_insert_grows.
  - intros Hs. split; [now apply self_valued_insert_subseteq
                      | now apply self_valued_insert].
Qed.

(** [makeKV] is its two critical sections, one after the other. *)
Lemma makeKV_in_two_steps seed valueSize sequential (st : State DB) :
  (k ← register_key cfg seed sequential;
   v ← read_value valueSize; ret (k, v)) st
  = match makeKV cfg (globals st) seed valueSize sequential with
    | Panics p => Panicked p st
    | Done (k, v, g) => Ok (k, v) (set_globals g st)
    end.
Proof.
  rewrite bind_eq. unfold register_key, makeKV.
  destruct (makeKey cfg seed sequential) as [k|p]; [|reflexivity].
  rewrite bind_eq. unfold read_value. cbn [globals set_globals randSrc].
  destruct (Rand_Read (randSrc (globals st)) (Z.to_nat valueSize))
    as [v r]. reflexivity.
Qed.

(** *** What the phases preserve

    Any preorder on states kept by the primitive steps is kept by the
    phases built from them. *)
Section Composite.

Variable R : State DB -> State DB -> Prop.
Context `{!PreOrder R}.
Hypothesis R_pool_send : stable R (pool_send cfg).
Hypothesis R_Put : forall k v wo, stable R (Put k v wo).
Hypothesis R_Get : forall k ro, stable R (Get k ro).
Hypothesis R_NewIterator : stable R NewIterator.
Hypothesis R_CompactRange : stable R CompactRange.
Hypothesis R_touch : forall k v, stable R (touch k v).
Hypothesis R_range : stable R range_knownKeys.
Hypothesis R_register_key : forall i sq, stable R (register_key cfg i sq).
Hypothesis R_read_value : forall vs, stable R (read_value vs).

Lemma write_task_stable wo vs sq m c : stable R (write_task cfg wo vs sq m c).
Proof.
  unfold write_task.
  destruct (w_tasks c !! m) as [[|seed|k|k v|[e|]|]|];
    try (apply stable_ret; apply _).
  - apply stable_bind; [apply _ | apply R_register_key |].
    intros k. apply stable_ret; apply _.
  - apply stable_bind; [apply _ | apply R_read_value |].
    intros v. apply stable_ret; apply _.
  - apply stable_bind; [apply _ | apply R_Put |].
    intros e. apply stable_ret; apply _.
  - apply stable_log_Fatal; apply _.
  - destruct (w_pool c); apply stable_ret; apply _.
Qed.

Lemma write_step_stable wo vs lim sq n c :
  stable R (write_step cfg wo vs lim sq n c).
Proof.
  unfold write_step. destruct (write_main_ready cfg c); [destruct n|].
  - apply stable_ret; apply _.
  - apply stable_bind; [apply _ | apply write_task_stable |].
    intros c'. apply stable_ret; apply _.
  - apply stable_bind; [apply _ | apply write_task_stable |].
    intros c'. apply stable_ret; apply _.
Qed.

Lemma writeData_stable wo vs start limit sq :
  stable R (writeData cfg wo vs start limit sq).
Proof.
  unfold writeData. apply run_threads_stable; [apply _|].
  intros n c. apply write_step_stable.
Qed.

Lemma runFullCompact_stable : stable R runFullCompact.
Proof.
  unfold runFullCompact.
  apply stable_bind; [apply _ | apply R_CompactRange |].
  intros [e|]; [apply stable_log_Fatal | apply stable_ret]; apply _.
Qed.

Lemma readSeq_pass_stable limit entries rCount :
  stable R (readSeq_pass cfg limit entries rCount).
Proof.
  revert rCount. induction entries as [|[k v] rest IH]; intros rCount;
    cbn [readSeq_pass].
  - apply stable_ret; apply _.
  - apply stable_bind; [apply _ | apply R_pool_send |]. intros _.
    apply stable_bind; [apply _ | apply R_touch |]. intros _.
    destruct (limit <=? add64 rCount 1); [apply stable_ret; apply _ | apply IH].
Qed.

Lemma readSeq_stable fuel wo limit : stable R (readSeq cfg fuel wo limit).
Proof.
  unfold readSeq. generalize 0. induction fuel as [|fuel IH]; intros rCount;
    cbn [readSeq_loop].
  - intros st. cbn. reflexivity.
  - apply stable_bind; [apply _ | apply R_NewIterator |]. intros [entries err].
    apply stable_bind; [apply _ | apply readSeq_pass_stable |].
    intros [[|] n]; [apply stable_ret; apply _|].
    destruct err; [apply stable_log_Fatal; apply _ | apply IH].
Qed.

Lemma read_main_stable limit c : stable R (read_main limit c).
Proof.
  unfold read_main. destruct (r_pc c); try (apply stable_ret; apply _).
  - destruct (r_passes c); [intros st; cbn; reflexivity|].
    apply stable_bind; [apply _ | apply R_range |].
    intros keys. apply stable_ret; apply _.
  - destruct (r_keys c); apply stable_ret; apply _.
  - destruct (limit <=? r_rCount c); apply stable_ret; apply _.
Qed.

Lemma read_task_stable ro m c : stable R (read_task ro m c).
Proof.
  unfold read_task.
  destruct (r_tasks c !! m) as [[key|key n|key| |]|];
    try (apply stable_ret; apply _).
  - intros st. apply (stable_bind R); [apply R_Get|].
    intros x. apply stable_ret; apply _.
  - destruct (r_pool c); apply stable_ret; apply _.
Qed.

Lemma read_step_stable ro limit n c :
  stable R (read_step cfg ro limit n c).
Proof.
  unfold read_step. destruct (read_main_ready cfg c); [destruct n|].
  - apply read_main_stable.
  - apply stable_bind; [apply _ | apply read_task_stable |].
    intros c'. apply stable_ret; apply _.
  - apply stable_bind; [apply _ | apply read_task_stable |].
    intros c'. apply stable_ret; apply _.
Qed.

Lemma readRandom_stable fuel ro limit :
  stable R (readRandom cfg fuel ro limit).
Proof.
  intros st. unfold readRandom.
  apply run_threads_stable; [apply _|].
  intros n c. apply read_step_stable.
Qed.

Lemma run_op_stable fuel op : stable R (run_op cfg fuel op).
Proof.
  destruct op; cbn [run_op].
  - apply writeData_stable.
  - apply stable_bind; [apply _ | apply readSeq_stable |].
    intros _. apply stable_ret; apply _.
  - apply stable_bind; [apply _ | apply readRandom_stable |].
    intros _. apply stable_ret; apply _.
  - apply runFullCompact_stable.
Qed.

End Composite.

Ltac prim := intros st; cbv [now tick pool_send Put Get NewIterator CompactRange
  GetStats touch range_knownKeys read_value final_state log_event set_db
  set_globals];
  repeat match goal with
         | |- context [let '(_, _) := ?x in _] => destruct x
         | |- context [if ?x then _ else _] => destruct x
         end; cbn.

Lemma read_value_registry vs : stable (registry_grows DB) (read_value vs).
Proof.
  intros st. unfold read_value.
  destruct (Rand_Read (randSrc (globals st)) (Z.to_nat vs)) as [v r]. cbn.
  split; [reflexivity|]. intros Hs. split; [reflexivity | exact Hs].
Qed.

Lemma run_op_registry fuel op : stable (registry_grows DB) (run_op cfg fuel op).
Proof.
  apply run_op_stable; try apply _; intros; try apply register_key_registry;
    try apply read_value_registry;
    apply keeps_globals_registry; prim; reflexivity.
Qed.

Lemma NewTestResult_registry s e desc n :
  stable (registry_grows DB) (NewTestResult s e desc n).
Proof. apply keeps_globals_registry. prim. reflexivity. Qed.

Lemma now_registry : stable (registry_grows DB) now.
Proof. apply keeps_globals_registry. prim. reflexivity. Qed.

Lemma stats_count_log e (st : State DB) :
  is_stats e = false -> keeps_stats_count DB st (log_event e st).
Proof.
  intros He. unfold keeps_stats_count, log_event. cbn [trace].
  rewrite count_app. unfold count at 2. cbn [List.filter]. rewrite He.
  cbn [length]. lia.
Qed.

Lemma run_op_stats_count fuel op :
  stable (keeps_stats_count DB) (run_op cfg fuel op).
Proof.
  apply run_op_stable; try apply _.
  - prim; reflexivity.
  - intros k v wo st. unfold Put. destruct (db_Put (db st) k v wo). cbn.
    apply (stats_count_log (EvPut k v wo) (set_db d st)). reflexivity.
  - intros k ro st. now apply stats_count_log.
  - intros st. now apply stats_count_log.
  - intros st. unfold CompactRange. destruct (db_CompactRange (db st)). cbn.
    apply (stats_count_log EvCompactRange (set_db d st)). reflexivity.
  - intros k v st. now apply stats_count_log.
  - intros st. reflexivity.
  - intros i sq st. unfold register_key.
    destruct (makeKey cfg i sq) as [k|p]; reflexivity.
  - intros vs st. unfold read_value.
    destruct (Rand_Read (randSrc (globals st)) (Z.to_nat vs)); reflexivity.
Qed.

End HarnessLemmas.

(** ** Write phases and the registry *)

Lemma NoDup_fmap_inj_on {A B} (f : A -> B) (l : list A) :
  NoDup l ->
  (NoDup (f <$> l) <-> forall x y, x ∈ l -> y ∈ l -> f x = f y -> x = y).
Proof.
  intros Hl. split.
  - induction Hl as [|a l Ha Hl IH]; intros Hf x y Hx Hy E.
    + now apply elem_of_nil in Hx.
    + rewrite fmap_cons in Hf. apply NoDup_cons in Hf as [Hfa Hf].
      apply elem_of_cons in Hx as [->|Hx], Hy as [->|Hy]; auto.
      * exfalso. apply Hfa. rewrite E. now apply list_elem_of_fmap_2.
      * exfalso. apply Hfa. rewrite <- E. now apply list_elem_of_fmap_2.
  - intros Hinj. now apply NoDup_fmap_2_strong.
Qed.

Lemma Forall2_Done_fmap {A B} (f : A -> Result B) (l : list A) (ks : list B) :
  Forall2 (fun i k => f i = Done k) l ks -> f <$> l = Done <$> ks.
Proof. induction 1 as [|i k l ks E _ IH]; cbn; [reflexivity|]. now rewrite E, IH. Qed.

#[global] Instance Done_Inj {A} : Inj (=) (=) (@Done A).
Proof. intros a b. apply Done_inj. Qed.

Lemma NoDup_write_indices start limit : NoDup (write_indices start limit).
Proof. apply NoDup_seqZ. Qed.

Lemma length_Rand_Read r n : length (Rand_Read r n).1 = n.
Proof. unfold Rand_Read. cbn. now rewrite length_map, length_seq. Qed.

Lemma length_write_indices start limit :
  length (write_indices start limit)
  = Z.to_nat (add64 limit start - start).
Proof. unfold write_indices. apply length_seqZ. Qed.

(** ** Sums over the tasks in flight *)

Lemma sum_list_with_insert {A} (f : A -> nat) (l : list A) m (t t' : A) :
  l !! m = Some t ->
  (sum_list_with f (<[m := t']> l) + f t = sum_list_with f l + f t')%nat.
Proof.
  revert m. induction l as [|x l IH]; intros [|m]; simpl; try discriminate.
  - intros [= ->]. lia.
  - intros H. specialize (IH m H). lia.
Qed.

Lemma sum_list_with_delete {A} (f : A -> nat) (l : list A) m (t : A) :
  l !! m = Some t ->
  (sum_list_with f (delete m l) + f t = sum_list_with f l)%nat.
Proof.
  revert m. induction l as [|x l IH]; intros [|m]; simpl; try discriminate.
  - intros [= ->]. lia.
  - intros H. specialize (IH m H). lia.
Qed.

Lemma sum_list_with_le {A} (f g : A -> nat) (l : list A) :
  (forall x, f x <= g x)%nat -> (sum_list_with f l <= sum_list_with g l)%nat.
Proof.
  intros H. induction l as [|x l IH]; simpl; [lia|]. specialize (H x). lia.
Qed.

Lemma sum_list_with_lookup {A} (f : A -> nat) (l : list A) m (t : A) :
  l !! m = Some t -> (f t <= sum_list_with f l)%nat.
Proof.
  revert m. induction l as [|x l IH]; intros [|m]; simpl; try discriminate.
  - intros [= ->]. lia.
  - intros H. specialize (IH m H). lia.
Qed.

Lemma stage_count_app s l t :
  stage_count s (l ++ [t])
  = (stage_count s l + if (wt_stage t <? s)%nat then 1 else 0)%nat.
Proof. unfold stage_count. rewrite sum_list_with_app. simpl. lia. Qed.

Lemma stage_count_insert s l m t t' :
  l !! m = Some t ->
  (stage_count s (<[m := t']> l) + (if (wt_stage t <? s)%nat then 1 else 0)
   = stage_count s l + (if (wt_stage t' <? s)%nat then 1 else 0))%nat.
Proof. apply sum_list_with_insert. Qed.

Lemma stage_count_delete s l m t :
  l !! m = Some t ->
  (stage_count s (delete m l) + (if (wt_stage t <? s)%nat then 1 else 0)
   = stage_count s l)%nat.
Proof. apply sum_list_with_delete. Qed.

Lemma stage_count_mono s s' l :
  (s <= s')%nat -> (stage_count s l <= stage_count s' l)%nat.
Proof.
  intros H. apply sum_list_with_le. intros t.
  destruct (Nat.ltb_spec (wt_stage t) s), (Nat.ltb_spec (wt_stage t) s'); lia.
Qed.

Lemma stage_count_le_length s l : (stage_count s l <= length l)%nat.
Proof.
  unfold stage_count. induction l as [|t l IH]; simpl; [lia|].
  destruct (wt_stage t <? s)%nat; lia.
Qed.

Lemma stage_count_lookup s l m t :
  l !! m = Some t -> (wt_stage t < s)%nat -> (1 <= stage_count s l)%nat.
Proof.
  intros Hm Ht.
  pose proof (sum_list_with_lookup
    (fun t => if (wt_stage t <? s)%nat then 1%nat else 0%nat) l m t Hm) as H.
  cbn beta in H. destruct (Nat.ltb_spec (wt_stage t) s); [exact H | lia].
Qed.

Lemma stage_count_zero s l :
  stage_count s l = 0%nat -> Forall (fun t => (s <= wt_stage t)%nat) l.
Proof.
  unfold stage_count. induction l as [|t l IH]; simpl; [constructor|].
  destruct (Nat.ltb_spec (wt_stage t) s) as [Hlt|Hge]; [lia|].
  intros Hz. constructor; [assumption | apply IH; lia].
Qed.

Lemma add64_succ i lim : i < lim -> lim < 2 ^ 64 -> i + 1 <= add64 i 1.
Proof.
  intros Hi Hl. unfold add64, wrap64.
  destruct (Z.le_gt_cases 0 (i + 1)).
  - rewrite Z.mod_small; lia.
  - pose proof (Z.mod_pos_bound (i + 1) (2 ^ 64)). lia.
Qed.

Lemma add64_succ_exact i lim :
  0 <= i -> i < lim -> lim < 2 ^ 64 -> add64 i 1 = i + 1.
Proof. intros. unfold add64, wrap64. rewrite Z.mod_small; lia. Qed.

Lemma add64_lt a b : add64 a b < 2 ^ 64.
Proof. unfold add64, wrap64. pose proof (Z.mod_pos_bound (a + b) (2 ^ 64)). lia. Qed.

Section WriteSteps.

Context {DB Stats : Type} {backend : Backend DB Stats}.
Variable cfg : Config.
Variable wo : WriteOptions.
Variables valueSize startIndex lim : Z.
Variable sequential : bool.
Hypothesis lim_bound : lim < 2 ^ 64.

(** A step is the loop's or a task's. *)
Lemma write_step_cases n c (st : State DB) :
  (n < write_runnable cfg c)%nat ->
  (write_main_ready cfg c = true /\ n = O
   /\ write_step cfg wo valueSize lim sequential n c st
      = Ok (write_main lim c) st)
  \/ (exists m t, w_tasks c !! m = Some t
        /\ write_step cfg wo valueSize lim sequential n c st
           = (c' ← write_task cfg wo valueSize sequential m c;
              ret (inl c')) st).
Proof.
  unfold write_runnable, write_step. intros Hn.
  destruct (write_main_ready cfg c); [destruct n as [|m]|].
  - left. repeat split.
  - right. destruct (lookup_lt_is_Some_2 (w_tasks c) m) as [t Ht]; [lia|].
    exists m, t. split; [exact Ht | reflexivity].
  - right. destruct (lookup_lt_is_Some_2 (w_tasks c) n) as [t Ht]; [lia|].
    exists n, t. split; [exact Ht | reflexivity].
Qed.

Ltac shape_fields :=
  split; unfold w_held, w_counted, write_set_task;
  cbn [w_pc w_i w_pool w_wg w_tasks];
  rewrite ?length_insert, ?length_app; cbn [length]; try lia;
  try assumption;
  try (intros _; match goal with H : _ -> _ < lim |- _ =>
                   apply H; discriminate end).

Ltac meas :=
  unfold write_set_task; cbn [w_pc w_i w_pool w_wg w_tasks]; lia.

(** Every step keeps the shape and uses up one of the steps left. *)
Lemma write_step_shape n c (st : State DB) :
  write_shape lim c -> (n < write_runnable cfg c)%nat ->
  match write_step cfg wo valueSize lim sequential n c st with
  | Ok (inl c') _ =>
      write_shape lim c' /\ (write_measure lim c' < write_measure lim c)%nat
  | _ => True
  end.
Proof.
  intros [Hpool Hwg Hloop] Hn.
  destruct (write_step_cases n c st Hn)
    as [(Hready & -> & ->) | (m & t & Hm & ->)].
  - destruct c as [pc i pool wg tasks].
    unfold write_main, write_measure, write_main_ready, w_held, w_counted in *.
    cbn [w_pc w_i w_pool w_wg w_tasks] in *.
    destruct pc; cbv beta iota; try exact I.
    + split; [shape_fields | meas].
    + split; [shape_fields | meas].
    + split; [shape_fields | cbn [w_pc w_i w_pool w_wg w_tasks]; rewrite sum_list_with_app; simpl; lia].
      rewrite stage_count_app. cbn. lia.
    + assert (Hi : i < lim) by (apply Hloop; discriminate).
      pose proof (add64_succ i lim Hi lim_bound) as Hs.
      destruct (Z.ltb_spec (add64 i 1) lim) as [Hlt|Hge];
        (split; [shape_fields | meas]).
      intros H; now destruct H.
  - rewrite bind_eq. unfold write_task. rewrite Hm.
    pose proof (lookup_lt_Some _ _ _ Hm) as Hlen.
    pose proof (fun t' => stage_count_insert 5 _ _ _ t' Hm) as H5.
    pose proof (fun t' => sum_list_with_insert
                  (fun t => (6 - wt_stage t)%nat) _ _ _ t' Hm) as Hw.
    cbn beta in Hw.
    destruct c as [pc i pool wg tasks].
    unfold write_measure, w_held, w_counted in *.
    cbn [w_pc w_i w_pool w_wg w_tasks] in *.
    destruct t as [|seed|k|k v|[e|]|]; cbn [wt_stage] in *.
    + cbn. specialize (Hw (WtKey i)). specialize (H5 (WtKey i)).
      cbn in Hw, H5. split; [shape_fields | meas].
    + rewrite bind_eq. unfold register_key.
      destruct (makeKey cfg seed sequential) as [k|p]; [|exact I]. cbn.
      specialize (Hw (WtValue k)). specialize (H5 (WtValue k)).
      cbn in Hw, H5. split; [shape_fields | meas].
    + rewrite bind_eq. unfold read_value.
      destruct (Rand_Read _ _) as [v r]. cbn.
      specialize (Hw (WtPut k v)). specialize (H5 (WtPut k v)).
      cbn in Hw, H5. split; [shape_fields | meas].
    + rewrite bind_eq. unfold Put.
      destruct (db_Put (db st) k v wo) as [d err]. cbn.
      specialize (Hw (WtCheck err)). specialize (H5 (WtCheck err)).
      cbn in Hw, H5. split; [shape_fields | meas].
    + exact I.
    + cbn. specialize (Hw WtRecv). specialize (H5 WtRecv).
      cbn in Hw, H5. split; [shape_fields | meas].
    + destruct pool as [|p]; [lia|]. cbn.
      pose proof (sum_list_with_delete (fun t => (6 - wt_stage t)%nat)
                    _ _ _ Hm) as Hd. cbn in Hd.
      pose proof (stage_count_delete 5 _ _ _ Hm) as H5d. cbn in H5d.
      pose proof (length_delete tasks m (ex_intro _ _ Hm)) as Hld.
      split; [shape_fields | meas].
Qed.

End WriteSteps.

(** ** The invariant of a write phase *)
Section WriteInvariant.

Context {DB Stats : Type} {backend : Backend DB Stats}.
Variable cfg : Config.
Variable wo : WriteOptions.
Variables valueSize startIndex lim : Z.
Variable sequential : bool.
Hypothesis lim_bound : lim < 2 ^ 64.
Hypothesis start_nonneg : 0 <= startIndex.
Hypothesis start_below : startIndex < lim.

Lemma apply_puts_snoc (d : DB) puts k v wo' :
  apply_puts d (puts ++ [EvPut k v wo'])
  = (db_Put (apply_puts d puts) k v wo').1.
Proof. unfold apply_puts. now rewrite foldl_app. Qed.

Lemma put_failed_mono (d : DB) puts e x :
  put_failed wo d puts e -> put_failed wo d (puts ++ [x]) e.
Proof.
  intros (before & k & v & after & -> & H).
  exists before, k, v, (after ++ [x]). split; [|exact H].
  now rewrite <- app_assoc.
Qed.

Lemma task_ok_mono (d : DB) puts x t :
  task_ok cfg wo valueSize startIndex lim sequential d puts t ->
  task_ok cfg wo valueSize startIndex lim sequential d (puts ++ [x]) t.
Proof.
  destruct t as [|seed|k|k v|[e|]|]; cbn; try tauto.
  apply put_failed_mono.
Qed.

Lemma write_hist_refl (st : State DB) :
  write_hist cfg wo valueSize startIndex lim sequential st [] 0 [] st.
Proof.
  split; cbn; try reflexivity; try constructor; try lia.
  - destruct (randSrc (globals st)) as [s p]. cbn. f_equal. lia.
  - now rewrite app_nil_r.
Qed.

Lemma write_hist_register st0 keys reads puts (st : State DB) k :
  write_hist cfg wo valueSize startIndex lim sequential st0 keys reads puts st ->
  key_ok cfg startIndex lim sequential k ->
  write_hist cfg wo valueSize startIndex lim sequential st0
    (keys ++ [k]) reads puts
    (set_globals
       {| knownKeys := <[String.string_of_list_byte k := k]>
                         (knownKeys (globals st));
          randSrc := randSrc (globals st) |} st).
Proof.
  intros [Hkeys Hkeys_ok Hrand Htrace Hputs_ok Hdb Hclock Hticks Hsched Hrange
            Horder] Hk.
  split; cbn; try assumption.
  - rewrite register_all_snoc. now f_equal.
  - apply Forall_app. split; [assumption | now constructor].
  - rewrite length_app. cbn. lia.
Qed.

Lemma write_hist_read st0 keys reads puts (st : State DB) :
  write_hist cfg wo valueSize startIndex lim sequential st0 keys reads puts st ->
  (S reads <= length keys)%nat ->
  write_hist cfg wo valueSize startIndex lim sequential st0
    keys (S reads) puts
    (set_globals
       {| knownKeys := knownKeys (globals st);
          randSrc := (Rand_Read (randSrc (globals st))
                                (Z.to_nat valueSize)).2 |} st).
Proof.
  intros [Hkeys Hkeys_ok Hrand Htrace Hputs_ok Hdb Hclock Hticks Hsched Hrange
            Horder] Hr.
  split; cbn; try assumption; try lia.
  rewrite Hrand. cbn. f_equal. lia.
Qed.

Lemma write_hist_put st0 keys reads puts (st : State DB) k v :
  write_hist cfg wo valueSize startIndex lim sequential st0 keys reads puts st ->
  key_ok cfg startIndex lim sequential k ->
  length v = Z.to_nat valueSize ->
  (S (length puts) <= reads)%nat ->
  write_hist cfg wo valueSize startIndex lim sequential st0
    keys reads (puts ++ [EvPut k v wo])
    (log_event (EvPut k v wo) (set_db (db_Put (db st) k v wo).1 st)).
Proof.
  intros [Hkeys Hkeys_ok Hrand Htrace Hputs_ok Hdb Hclock Hticks Hsched Hrange
            Horder] Hk Hv Hr.
  split; cbn; try assumption.
  - rewrite Htrace. now rewrite <- app_assoc.
  - apply Forall_app. split; [assumption|]. constructor; [|constructor].
    exists k, v. auto.
  - rewrite apply_puts_snoc. now rewrite Hdb.
  - rewrite length_app. cbn. lia.
Qed.

Lemma w_launched_bound c :
  startIndex <= w_i c <= lim -> (w_pc c <> WAtWait -> w_i c < lim) ->
  (w_launched startIndex c <= Z.to_nat (lim - startIndex))%nat.
Proof.
  intros Hi Hl. unfold w_launched.
  destruct (w_pc c); try lia.
  assert (w_i c < lim) by (apply Hl; discriminate). lia.
Qed.

End WriteInvariant.

Section WriteRun.

Context {DB Stats : Type} {backend : Backend DB Stats}.
Variable cfg : Config.
Variable wo : WriteOptions.
Variables valueSize startIndex lim : Z.
Variable sequential : bool.
Hypothesis lim_bound : lim < 2 ^ 64.
Hypothesis start_nonneg : 0 <= startIndex.
Hypothesis start_below : startIndex < lim.

Ltac conf_fields :=
  unfold write_set_task, w_launched, w_held, w_counted in *;
  cbn [w_pc w_i w_pool w_wg w_tasks] in *.

(** The counts of the stages once the task at [m] has become [t']. *)
Ltac counts Hsc tasks m t' :=
  let H2 := fresh "H2" in let H3 := fresh "H3" in let H4 := fresh "H4" in
  pose proof (Hsc 2%nat t') as H2;
  pose proof (Hsc 3%nat t') as H3;
  pose proof (Hsc 4%nat t') as H4;
  cbn in H2, H3, H4;
  pose proof (stage_count_mono 2 3 (<[m := t']> tasks) ltac:(lia));
  pose proof (stage_count_mono 3 4 (<[m := t']> tasks) ltac:(lia)).

(** A step keeps the invariant, or ends the phase in one of the ways
    [write_post] lists. *)
Lemma write_step_inv st0 keys reads puts n c (st : State DB) :
  write_inv cfg wo valueSize startIndex lim sequential st0 keys reads puts c st ->
  (n < write_runnable cfg c)%nat ->
  match write_step cfg wo valueSize lim sequential n c st with
  | Ok (inl c') st' =>
      exists keys' reads' puts',
        write_inv cfg wo valueSize startIndex lim sequential
          st0 keys' reads' puts' c' st'
  | Ok (inr a) st' =>
      write_post cfg wo valueSize startIndex lim sequential st0 (Ok a st')
  | Fatal msg st' =>
      write_post cfg wo valueSize startIndex lim sequential st0 (Fatal msg st')
  | Panicked p st' =>
      write_post cfg wo valueSize startIndex lim sequential st0 (Panicked p st')
  | Blocked _ | Running _ => False
  end.
Proof.
  intros [Hshape Hhist Hi Hleft Htasks Hnk Hnr Hnp] Hn.
  pose proof (write_step_shape cfg wo valueSize lim sequential lim_bound
                n c st Hshape Hn) as Hsh.
  assert (Hbound : (w_launched startIndex c
                    <= Z.to_nat (lim - startIndex))%nat)
    by (apply w_launched_bound; [assumption | exact Hi | apply Hshape]).
  pose proof (stage_count_mono 2 3 (w_tasks c) ltac:(lia)) as M23.
  pose proof (stage_count_mono 3 4 (w_tasks c) ltac:(lia)) as M34.
  pose proof (stage_count_mono 4 5 (w_tasks c) ltac:(lia)) as M45.
  destruct (write_step_cases cfg wo valueSize lim sequential n c st Hn)
    as [(Hready & -> & E) | (m & t & Hm & E)]; rewrite E in *; clear E.
  - (* the launching loop *)
    destruct Hshape as [Hpool Hwg Hloop].
    destruct c as [pc i pool wg tasks].
    unfold write_main, write_main_ready in *. conf_fields.
    destruct pc; cbv beta iota in *.
    + exists keys, reads, puts. destruct Hsh as [Hsh _].
      split; conf_fields; try assumption; try lia. discriminate.
    + exists keys, reads, puts. destruct Hsh as [Hsh _].
      split; conf_fields; try assumption; try lia. discriminate.
    + exists keys, reads, puts. destruct Hsh as [Hsh _].
      split; conf_fields; rewrite ?stage_count_app; cbn;
        try assumption; try lia; try discriminate.
      apply Forall_app. split; [assumption | now constructor].
    + assert (Hlt : i < lim) by (apply Hloop; discriminate).
      rewrite (add64_succ_exact i lim) in * by lia.
      destruct (Z.ltb_spec (i + 1) lim) as [Hlt'|Hge];
        exists keys, reads, puts; destruct Hsh as [Hsh _];
        split; conf_fields; try assumption; try lia; try discriminate.
    + (* [wg.Wait()] returns *)
      apply Nat.eqb_eq in Hready. cbn.
      assert (Z0 : stage_count 5 tasks = 0%nat) by lia.
      assert (i = lim) by (apply Hleft; [reflexivity | assumption]). subst i.
      exists keys, puts.
      replace (Z.to_nat (lim - startIndex)) with reads by lia.
      split; [exact Hhist | lia].
  - (* a task *)
    rewrite bind_eq in *. unfold write_task in *. rewrite Hm in *.
    pose proof (fun s t' => stage_count_insert s _ _ _ t' Hm) as Hsc.
    pose proof (fun s h => stage_count_lookup s _ _ _ Hm h) as Hone.
    pose proof (proj1 (Forall_lookup _ _) Htasks _ _ Hm) as Ht.
    destruct c as [pc i pool wg tasks]. conf_fields.
    destruct t as [|seed|k|k v|[e|]|]; cbn [wt_stage task_ok] in *.
    + (* [i] is read *)
      cbn in *. exists keys, reads, puts. destruct Hsh as [Hsh _].
      counts Hsc tasks m (WtKey i).
      split; conf_fields; try assumption; try lia.
      apply Forall_insert; [assumption | exact Hi].
    + (* the key is registered *)
      rewrite bind_eq in *. unfold register_key in *.
      destruct (makeKey cfg seed sequential) as [k|p] eqn:Ek.
      * cbn in *. exists (keys ++ [k]), reads, puts. destruct Hsh as [Hsh _].
        counts Hsc tasks m (WtValue k).
        assert (Hk : key_ok cfg startIndex lim sequential k)
          by (exists seed; auto).
        split; conf_fields; try assumption; try lia.
        -- now apply write_hist_register.
        -- apply Forall_insert; [assumption | exact Hk].
        -- rewrite length_app. cbn. lia.
      * cbn. exists keys, reads, puts, seed.
        pose proof (Hone 2%nat ltac:(cbn; lia)) as H1.
        split; [exact Hhist|]. split; [lia|]. split; [exact Ht | exact Ek].
    + (* the value is drawn *)
      rewrite bind_eq in *. unfold read_value in *.
      pose proof (length_Rand_Read (randSrc (globals st))
                    (Z.to_nat valueSize)) as Hlen.
      pose proof (write_hist_read cfg wo valueSize startIndex lim sequential
                    st0 keys reads puts st Hhist) as Hr.
      destruct (Rand_Read (randSrc (globals st)) (Z.to_nat valueSize))
        as [v r]. cbn in *.
      exists keys, (S reads), puts. destruct Hsh as [Hsh _].
      counts Hsc tasks m (WtPut k v).
      split; conf_fields; try assumption; try lia.
      -- apply Hr. lia.
      -- apply Forall_insert; [assumption | split; assumption].
    + (* the entry is put *)
      rewrite bind_eq in *. unfold Put in *.
      pose proof (write_hist_put cfg wo valueSize startIndex lim sequential
                    st0 keys reads puts st k v Hhist (proj1 Ht) (proj2 Ht))
        as Hp.
      pose proof (wh_db _ _ _ _ _ _ _ _ _ _ _ Hhist) as Hdb.
      destruct (db_Put (db st) k v wo) as [d err] eqn:Eput. cbn in *.
      exists keys, reads, (puts ++ [EvPut k v wo]). destruct Hsh as [Hsh _].
      counts Hsc tasks m (WtCheck err).
      split; conf_fields; try assumption; try lia.
      -- apply Hp. lia.
      -- apply Forall_insert.
         ++ eapply Forall_impl; [exact Htasks|]. intros t.
            apply task_ok_mono.
         ++ destruct err as [e|]; cbn; [|exact I].
            exists puts, k, v, []. split; [reflexivity|].
            rewrite <- Hdb, Eput. reflexivity.
      -- rewrite length_app. cbn. lia.
    + (* [log.Fatal] *)
      cbn. split; [reflexivity|]. exists keys, reads, puts, e.
      split; [exact Hhist|]. split; [lia | exact Ht].
    + (* [wg.Done()] *)
      cbn in *. exists keys, reads, puts. destruct Hsh as [Hsh _].
      counts Hsc tasks m WtRecv.
      split; conf_fields; try assumption; try lia.
      apply Forall_insert; [assumption | exact I].
    + (* [<-pool] *)
      destruct Hshape as [Hpool _ _]. conf_fields.
      pose proof (lookup_lt_Some _ _ _ Hm) as Hlen.
      destruct pool as [|p]; [lia|]. cbn in *.
      exists keys, reads, puts. destruct Hsh as [Hsh _].
      pose proof (stage_count_delete 2 _ _ _ Hm) as H2.
      pose proof (stage_count_delete 3 _ _ _ Hm) as H3.
      pose proof (stage_count_delete 4 _ _ _ Hm) as H4. cbn in H2, H3, H4.
      split; conf_fields; try assumption; try lia.
      now apply Forall_delete.
Qed.

End WriteRun.

Section WriteOutcome.

Context {DB Stats : Type} {backend : Backend DB Stats}.
Variable cfg : Config.

Lemma write_measure_pos lim c : (1 <= write_measure lim c)%nat.
Proof. unfold write_measure. destruct (w_pc c); lia. Qed.

(** A range that is empty, or whose bound has wrapped below its start:
    the loop is left at once and nothing waits on [wg]. *)
Lemma writeData_empty_range wo vs start limit sq (st : State DB) :
  add64 limit start <= start ->
  writeData cfg wo vs start limit sq st = Ok tt st.
Proof.
  intros H. unfold writeData, write_fuel, write_init.
  replace (Z.to_nat (add64 limit start - start)) with 0%nat by lia.
  destruct (Z.ltb_spec start (add64 limit start)); [lia|].
  cbn [Nat.mul Nat.add run_threads]. unfold write_runnable at 1.
  cbn [write_main_ready w_pc w_wg w_tasks Nat.eqb length Nat.add].
  rewrite bind_eq, choose_eq, bind_eq. unfold write_runnable.
  cbn [write_main_ready w_pc w_wg w_tasks Nat.eqb length Nat.add].
  rewrite Nat.mod_1_r. reflexivity.
Qed.

(** However the scheduler interleaves the loop and its tasks, a write
    phase ends in one of the ways [write_post] lists. *)
Lemma writeData_post wo vs start limit sq (st : State DB) :
  0 <= start ->
  write_post cfg wo vs start (add64 limit start) sq st
             (writeData cfg wo vs start limit sq st).
Proof.
  intros Hs. pose proof (add64_lt limit start) as Hl.
  destruct (Z.le_gt_cases (add64 limit start) start) as [Hle|Hlt].
  { rewrite writeData_empty_range by assumption. cbn.
    replace (Z.to_nat (add64 limit start - start)) with 0%nat by lia.
    exists [], []. split; [apply write_hist_refl | split; reflexivity]. }
  unfold writeData. set (lim := add64 limit start) in *.
  apply (run_threads_ind _ _
    (fun f c st' =>
       (exists keys reads puts,
           write_inv cfg wo vs start lim sq st keys reads puts c st')
       /\ (write_measure lim c <= f)%nat)).
  - intros c st' [_ Hm]. pose proof (write_measure_pos lim c). lia.
  - intros f c st' [(keys & reads & puts & Hinv) _] Hr.
    destruct Hinv as [[Hpool Hwg Hloop] Hhist _ _ _ _ _ _].
    unfold write_runnable, write_main_ready, w_held, w_counted in *.
    destruct (w_tasks c) as [|t tasks] eqn:Et; [|cbn in Hr; lia].
    cbn [length stage_count sum_list_with] in *. cbn. split.
    + destruct (w_pc c); cbv beta iota in Hr; try lia.
      * destruct (Nat.ltb_spec (w_pool c) (pool_cap cfg)); lia.
      * destruct (Nat.eqb_spec (w_wg c) 0); lia.
    + eauto.
  - intros f c st' n [(keys & reads & puts & Hinv) Hm] Hn.
    pose proof (write_step_inv cfg wo vs start lim sq Hl Hs Hlt
                  st keys reads puts n c st' Hinv Hn) as Hstep.
    pose proof (write_step_shape cfg wo vs lim sq Hl n c st'
                  (wi_shape _ _ _ _ _ _ _ _ _ _ _ _ Hinv) Hn) as Hsh.
    destruct (write_step cfg wo vs lim sq n c st') as [[c'|[]] st2| | | |];
      try assumption; try contradiction.
    split; [exact Hstep | lia].
  - split.
    + exists [], 0%nat, []. unfold write_init.
      destruct (Z.ltb_spec start lim); [|lia].
      split; [split | apply write_hist_refl | | | | | | ];
        unfold w_launched, w_held, w_counted;
        cbn [w_pc w_i w_pool w_wg w_tasks]; try (cbn; lia);
        try constructor; try discriminate; try lia.
    + unfold write_init, write_measure, write_fuel.
      destruct (Z.ltb_spec start lim); [|lia]. cbn. lia.
Qed.

End WriteOutcome.

Section WritePhase.

Context {DB Stats : Type} {backend : Backend DB Stats}.
Variable cfg : Config.

(** A write phase that returns has registered a key, drawn a value and
    made a put for each of its tasks, as many as its range has
    indices. *)
Lemma writeData_Ok wo vs start limit sq (st st' : State DB) :
  0 <= start ->
  writeData cfg wo vs start limit sq st = Ok tt st' ->
  let n := length (write_indices start limit) in
  exists keys puts,
    write_hist cfg wo vs start (add64 limit start) sq st keys n puts st'
    /\ length keys = n /\ length puts = n.
Proof.
  intros Hs H. pose proof (writeData_post cfg wo vs start limit sq st Hs) as P.
  rewrite H in P. cbn in P. rewrite length_write_indices. exact P.
Qed.

(** The registry after keys that it already holds under their own
    names. *)
Lemma register_all_known_keys ks (m : gmap string (list byte)) :
  Forall (fun k => m !! String.string_of_list_byte k = Some k) ks ->
  register_all ks m = m.
Proof.
  induction 1 as [|k ks Hk _ IH]; [reflexivity|].
  rewrite register_all_cons, insert_id by exact Hk. exact IH.
Qed.

End WritePhase.

(** ** The phase script *)

Section ScriptLemmas.

Context {DB Stats : Type} {backend : Backend DB Stats}.
Variable cfg : Config.

Ltac unfold_run :=
  cbv [RunE run_script run_phase run_op phase_script ph_op ph_desc ph_count
       mbind harness_bind bind now NewTestResult GetStats ret
       reset_knownKeys].

Ltac split_op :=
  match goal with
  | |- context [writeData ?c ?wo ?a ?b ?n ?s ?st] =>
      destruct (writeData c wo a b n s st) as [[] ?| | | |]
  | |- context [readSeq ?c ?f ?wo ?l ?st] =>
      destruct (readSeq c f wo l st)
  | |- context [readRandom ?c ?f ?ro ?l ?st] =>
      destruct (readRandom c f ro l st)
  | |- context [runFullCompact ?st] =>
      destruct (runFullCompact st) as [[] ?| | | |]
  end.

(** [RunE] is the generic executor applied to the script. *)
Lemma RunE_run_script fuel (st : State DB) :
  RunE cfg fuel st
  = (reset_knownKeys;; run_script cfg fuel (phase_script cfg) []) st.
Proof.
  unfold_run. repeat (split_op; try reflexivity).
Qed.

End ScriptLemmas.

Lemma Time_Sub_exact t u :
  minDuration <= t - u <= maxDuration -> Time_Sub t u = t - u.
Proof.
  unfold Time_Sub, wrapInt64, minDuration, maxDuration. intros H.
  replace ((t - u + 2 ^ 63) mod 2 ^ 64 - 2 ^ 63) with (t - u)
    by (rewrite Z.mod_small; lia).
  destruct (Z.ltb_spec (t - u) 0), (Z.ltb_spec u t), (Z.ltb_spec 0 (t - u)),
    (Z.ltb_spec t u); cbn; lia.
Qed.

Lemma write_indices_no_wrap start limit :
  0 <= start -> 0 <= limit -> start + limit < 2 ^ 64 ->
  write_indices start limit = seqZ start limit.
Proof.
  intros Hs Hl Hlt. unfold write_indices, add64, wrap64.
  rewrite Z.mod_small by lia. f_equal. lia.
Qed.


Section RunLemmas.

Context {DB Stats : Type} {backend : Backend DB Stats}.
Variable cfg : Config.

Lemma NewTestResult_eq s e desc n (st : State DB) :
  NewTestResult s e desc n st
  = Ok {| StartTime := s; EndTime := e; TestDuration := Time_Sub e s;
          Description := desc; OpCount := n; TRStats := db_Stats (db st);
          OpRate := float64_div (float64_of_Z n)
                                (Duration_Seconds (Time_Sub e s)) |}
       (log_event EvStats st).
Proof. reflexivity. Qed.

(** A completed step of the script: the operation ran between two
    readings of the clock and the record was built after it. *)
Lemma run_phase_Ok fuel p (st : State DB) r st' :
  run_phase cfg fuel p st = Ok r st' ->
  exists st1,
    run_op cfg fuel (ph_op p) (tick st) = Ok tt st1
    /\ st' = log_event EvStats (tick st1)
    /\ r = {| StartTime := clock st (ticks st);
              EndTime := clock st1 (ticks st1);
              TestDuration := Time_Sub (clock st1 (ticks st1))
                                       (clock st (ticks st));
              Description := ph_desc p; OpCount := ph_count p;
              TRStats := db_Stats (db st1);
              OpRate := float64_div (float64_of_Z (ph_count p))
                          (Duration_Seconds
                             (Time_Sub (clock st1 (ticks st1))
                                       (clock st (ticks st)))) |}.
Proof.
  unfold run_phase. rewrite bind_eq. cbn [now]. rewrite bind_eq.
  destruct (run_op cfg fuel (ph_op p) (tick st)) as [[] st1| | | |];
    try discriminate.
  rewrite bind_eq. cbn [now]. rewrite NewTestResult_eq.
  intros [= <- <-]. exists st1. auto.
Qed.

Lemma run_script_Ok fuel ps trs (st : State DB) out st' :
  run_script cfg fuel ps trs st = Ok out st' ->
  exists rs,
    out = trs ++ rs
    /\ Forall2 (fun p r => Description r = ph_desc p
                           /\ OpCount r = ph_count p /\ record_ok r) ps rs
    /\ count is_stats (trace st')
       = (count is_stats (trace st) + length ps)%nat.
Proof.
  revert trs st. induction ps as [|p ps IH]; intros trs st; cbn [run_script].
  - intros [= <- <-]. exists []. rewrite app_nil_r. repeat split.
    + constructor.
    + cbn. lia.
  - intros H. apply bind_Ok_inv in H as (r & st1 & H1 & H2).
    apply IH in H2 as (rs & -> & Hrs & Hc).
    apply run_phase_Ok in H1 as (st0 & Hop & -> & Hr).
    exists (r :: rs).
    rewrite <- app_assoc. repeat split; try reflexivity.
    + constructor; [|exact Hrs]. rewrite Hr. repeat split.
    + rewrite Hc. cbn [log_event trace tick]. rewrite count_app.
      pose proof (run_op_stats_count cfg fuel (ph_op p) (tick st)) as Hk.
      rewrite Hop in Hk. unfold keeps_stats_count in Hk.
      cbn [final_state tick trace] in Hk.
      rewrite Hk. unfold count at 2. cbn [List.filter is_stats length]. lia.
Qed.

Lemma run_phase_registry fuel p :
  stable (registry_grows DB) (run_phase cfg fuel p).
Proof.
  unfold run_phase.
  apply stable_bind; [apply _ | apply now_registry |]. intros start.
  apply stable_bind; [apply _ | apply run_op_registry |]. intros _.
  apply stable_bind; [apply _ | apply now_registry |]. intros t.
  apply NewTestResult_registry.
Qed.

Lemma run_script_registry fuel ps trs :
  stable (registry_grows DB) (run_script cfg fuel ps trs).
Proof.
  revert trs. induction ps as [|p ps IH]; intros trs; cbn [run_script].
  - apply stable_ret; apply _.
  - apply stable_bind; [apply _ | apply run_phase_registry |].
    intros r. apply IH.
Qed.

Lemma RunE_self_valued fuel (st : State DB) :
  self_valued (knownKeys (globals (final_state (RunE cfg fuel st)))).
Proof.
  rewrite RunE_run_script, bind_eq. cbn [reset_knownKeys].
  match goal with |- context [run_script cfg fuel ?ps ?trs ?s] =>
    pose proof (run_script_registry fuel ps trs s) as [_ H] end.
  apply H. cbn. apply self_valued_empty.
Qed.

End RunLemmas.


(** C5.  The record built by [NewTestResult] has
    [TestDuration = EndTime - StartTime] (as [Time.Sub] computes it, the
    exact difference whenever it fits a [Duration]) and
    [OpRate = float64(OpCount) / TestDuration.Seconds()]; the recorder
    calls [Stats] exactly once and stores the snapshot of the store as it
    is then.  In a step of the script the operation makes no [Stats]
    call, so the one call is made at the end of the phase; a run that
    completes has twelve records, all of this form, and has made twelve
    [Stats] calls. *)
Theorem NewTestResult_record {DB Stats} {backend : Backend DB Stats}
  (cfg : Config) :
  (forall s e desc n (st : State DB),
      exists r, NewTestResult s e desc n st = Ok r (log_event EvStats st)
        /\ StartTime r = s /\ EndTime r = e
        /\ Description r = desc /\ OpCount r = n
        /\ TestDuration r = Time_Sub e s
        /\ OpRate r = float64_div (float64_of_Z n)
                                  (Duration_Seconds (Time_Sub e s))
        /\ TRStats r = db_Stats (db st))
  /\ (forall s e, minDuration <= e - s <= maxDuration -> Time_Sub e s = e - s)
  /\ (forall fuel p (st : State DB) r st',
        run_phase cfg fuel p st = Ok r st' ->
        exists st1,
          run_op cfg fuel (ph_op p) (tick st) = Ok tt st1
          /\ count is_stats (trace st1) = count is_stats (trace st)
          /\ trace st' = trace st1 ++ [EvStats]
          /\ TRStats r = db_Stats (db st1)
          /\ db st' = db st1)
  /\ (forall fuel (st : State DB) trs st',
        RunE cfg fuel st = Ok trs st' ->
        Forall record_ok trs
        /\ length trs = 12%nat
        /\ count is_stats (trace st')
           = (count is_stats (trace st) + length trs)%nat).
Proof.
  split; [|split; [|split]].
  - intros s e desc n st. eexists. rewrite NewTestResult_eq.
    split; [reflexivity|]. cbn. repeat split.
  - intros s e. apply Time_Sub_exact.
  - intros fuel p st r st' H. apply run_phase_Ok in H as (st1 & Hop & -> & ->).
    exists st1. split; [exact Hop|]. split; [|repeat split].
    pose proof (run_op_stats_count cfg fuel (ph_op p) (tick st)) as Hk.
    rewrite Hop in Hk. exact Hk.
  - intros fuel st trs st' H. rewrite RunE_run_script, bind_eq in H.
    cbn [reset_knownKeys] in H. apply run_script_Ok in H as (rs & -> & Hrs & Hc).
    rewrite app_nil_l. pose proof (Forall2_length _ _ _ Hrs) as Hlen.
    split; [|split].
    + clear Hc Hlen. generalize dependent (phase_script cfg). intros ps Hrs.
      induction Hrs as [|p r ps rs (_ & _ & Hr) _ IH]; constructor; assumption.
    + rewrite <- Hlen. reflexivity.
    + rewrite Hc, <- Hlen. reflexivity.
Qed.

(** What holds of the registry under every schedule. *)
Section RegistryBound.

Context {DB Stats : Type} {backend : Backend DB Stats}.
Variable cfg : Config.

Lemma writeData_registry wo vs start limit sq (st st' : State DB) :
  0 <= start ->
  writeData cfg wo vs start limit sq st = Ok tt st' ->
  exists keys,
    knownKeys (globals st') = register_all keys (knownKeys (globals st))
    /\ length keys = length (write_indices start limit)
    /\ Forall (fun k => exists seed,
                 start <= seed <= add64 limit start
                 /\ makeKey cfg seed sq = Done k) keys.
Proof.
  intros Hs H.
  apply writeData_Ok in H as (keys & puts & Hh & Hn & _); [|exact Hs].
  exists keys. split; [apply Hh|]. split; [exact Hn | apply Hh].
Qed.

End RegistryBound.

(** ** The read phases *)

Lemma count_touches_touch l : count is_touch (touches l) = length l.
Proof.
  unfold count, touches. induction l as [|[k v] l IH]; cbn; [reflexivity|].
  now rewrite IH.
Qed.

Lemma count_touches_iterator l : count is_iterator (touches l) = 0%nat.
Proof.
  unfold count, touches. induction l as [|[k v] l IH]; cbn; [reflexivity|].
  exact IH.
Qed.

Section ReadLemmas.

Context {DB Stats : Type} {backend : Backend DB Stats}.
Variable cfg : Config.

Lemma add_trace_nil (st : State DB) : add_trace [] st = st.
Proof. destruct st. unfold add_trace. cbn. now rewrite app_nil_r. Qed.

Lemma add_trace_log e tr (st : State DB) :
  add_trace tr (log_event e st) = add_trace (e :: tr) st.
Proof. unfold add_trace, log_event. cbn. now rewrite <- app_assoc. Qed.

Lemma add_trace_add tr1 tr2 (st : State DB) :
  add_trace tr2 (add_trace tr1 st) = add_trace (tr1 ++ tr2) st.
Proof. unfold add_trace. cbn. now rewrite <- app_assoc. Qed.

Lemma pool_send_Ok (st : State DB) :
  0 < degreeOfParallelism cfg -> pool_send cfg st = Ok tt st.
Proof.
  intros H. unfold pool_send.
  now destruct (Z.leb_spec (degreeOfParallelism cfg) 0); [lia|].
Qed.

(** One pass that starts below the limit touches the entries it needs,
    or all of them when there are fewer. *)
Lemma readSeq_pass_healthy limit entries rCount (st : State DB) :
  0 < degreeOfParallelism cfg -> 0 <= rCount < limit -> limit < 2 ^ 64 ->
  readSeq_pass cfg limit entries rCount st
  = Ok (limit - rCount <=? Z.of_nat (length entries),
        rCount + Z.min (limit - rCount) (Z.of_nat (length entries)))
       (add_trace (touches (take (Z.to_nat (limit - rCount)) entries)) st).
Proof.
  intros Hp. revert rCount st.
  induction entries as [|[k v] rest IH]; intros rCount st Hr Hl.
  - cbn [readSeq_pass length]. rewrite take_nil. cbn [touches map].
    rewrite add_trace_nil.
    destruct (Z.leb_spec (limit - rCount) (Z.of_nat 0)); [lia|].
    unfold ret. f_equal. f_equal. lia.
  - cbn [readSeq_pass]. rewrite bind_eq, pool_send_Ok by assumption.
    rewrite bind_eq. cbn [touch].
    assert (Ha : add64 rCount 1 = rCount + 1).
    { unfold add64, wrap64. apply Z.mod_small. lia. }
    rewrite Ha. cbn [length]. rewrite Nat2Z.inj_succ.
    replace (Z.to_nat (limit - rCount))
      with (S (Z.to_nat (limit - (rCount + 1)))) by lia.
    rewrite firstn_cons. cbn [touches map fst snd]. rewrite <- add_trace_log.
    destruct (Z.leb_spec limit (rCount + 1)).
    + replace (Z.to_nat (limit - (rCount + 1))) with 0%nat by lia.
      rewrite take_0. cbn [map]. rewrite add_trace_nil.
      destruct (Z.leb_spec (limit - rCount) (Z.succ (Z.of_nat (length rest))));
        [|lia].
      unfold ret. f_equal. f_equal. lia.
    + rewrite IH by lia. f_equal. f_equal; [|lia].
      destruct (Z.leb_spec (limit - (rCount + 1)) (Z.of_nat (length rest))),
        (Z.leb_spec (limit - rCount) (Z.succ (Z.of_nat (length rest))));
        (reflexivity || lia).
Qed.

Lemma passes_last need E : 1 <= need <= E -> (need + E - 1) / E = 1.
Proof. intros H. symmetry. apply (Z.div_unique _ _ 1 (need - 1)); lia. Qed.

Lemma passes_next need E :
  0 < E -> (need - E + E - 1) / E = (need + E - 1) / E - 1.
Proof.
  intros H. replace (need - E + E - 1) with (need + E - 1 + (-1) * E) by lia.
  rewrite Z.div_add by lia. lia.
Qed.

(** With a store that yields the same [E >= 1] entries at every pass and
    reports no error, the loop stops at [limit] after
    [ceil ((limit - rCount) / E)] passes. *)
Lemma readSeq_loop_healthy limit entries :
  0 < degreeOfParallelism cfg -> limit < 2 ^ 64 -> entries <> [] ->
  forall fuel rCount (st : State DB),
    0 <= rCount < limit ->
    db_NewIterator (db st) = (entries, None) ->
    let E := Z.of_nat (length entries) in
    let passes := (limit - rCount + E - 1) / E in
    passes <= Z.of_nat fuel ->
    exists tr,
      readSeq_loop cfg fuel limit rCount st = Ok limit (add_trace tr st)
      /\ Z.of_nat (count is_touch tr) = limit - rCount
      /\ Z.of_nat (count is_iterator tr) = passes.
Proof.
  intros Hp Hl He fuel.
  assert (HE : 0 < Z.of_nat (length entries)).
  { destruct entries; [contradiction | cbn; lia]. }
  induction fuel as [|fuel IH]; intros rCount st Hr Hit E passes Hfuel.
  - exfalso. subst passes E.
    assert (1 <= (limit - rCount + Z.of_nat (length entries) - 1)
                 / Z.of_nat (length entries)); [|lia].
    apply Z.div_le_lower_bound; lia.
  - cbn [readSeq_loop]. rewrite bind_eq. cbn [NewIterator]. rewrite Hit.
    cbn beta iota. rewrite bind_eq, readSeq_pass_healthy by assumption.
    fold E. destruct (Z.leb_spec (limit - rCount) E) as [Hle|Hgt].
    + rewrite add_trace_log. eexists. split; [|split].
      * unfold ret. f_equal. lia.
      * change (EvNewIterator :: ?l) with ([EvNewIterator] ++ l).
        rewrite count_app, count_touches_touch, length_take. cbn. lia.
      * change (EvNewIterator :: ?l) with ([EvNewIterator] ++ l).
        rewrite count_app, count_touches_iterator. subst passes.
        rewrite passes_last by lia. reflexivity.
    + rewrite Z.min_r by lia.
      destruct (IH (rCount + E)
                  (add_trace (touches (take (Z.to_nat (limit - rCount)) entries))
                             (log_event EvNewIterator st)))
        as (tr & Hrun & Ht & Hi).
      * lia.
      * exact Hit.
      * fold E. replace (limit - (rCount + E) + E - 1)
          with (limit - rCount - E + E - 1) by lia.
        rewrite passes_next by lia. subst passes. lia.
      * rewrite Hrun, add_trace_add, add_trace_log. eexists.
        split; [reflexivity|]. split.
        -- change (EvNewIterator :: ?l) with ([EvNewIterator] ++ l).
           rewrite !count_app, count_touches_touch, length_take, !Nat2Z.inj_add.
           rewrite Ht. cbn. fold E. lia.
        -- change (EvNewIterator :: ?l) with ([EvNewIterator] ++ l).
           rewrite !count_app, count_touches_iterator, !Nat2Z.inj_add, Hi.
           fold E. replace (limit - (rCount + E) + E - 1)
             with (limit - rCount - E + E - 1) by lia.
           rewrite passes_next by lia. subst passes. cbn. lia.
Qed.

Lemma readSeq_pass_stop limit entries rCount (st : State DB) n st' :
  readSeq_pass cfg limit entries rCount st = Ok (true, n) st' -> limit <= n.
Proof.
  revert rCount st. induction entries as [|[k v] rest IH]; intros rCount st;
    cbn [readSeq_pass].
  - discriminate.
  - intros H. apply bind_Ok_inv in H as ([] & st1 & _ & H).
    apply bind_Ok_inv in H as ([] & st2 & _ & H).
    destruct (Z.leb_spec limit (add64 rCount 1)).
    + injection H as <- _. assumption.
    + now apply IH in H.
Qed.

Lemma readSeq_loop_Ok fuel limit rCount (st : State DB) n st' :
  readSeq_loop cfg fuel limit rCount st = Ok n st' -> limit <= n.
Proof.
  revert rCount st. induction fuel as [|fuel IH]; intros rCount st;
    cbn [readSeq_loop]; [discriminate|].
  intros H. apply bind_Ok_inv in H as ([entries err] & st1 & _ & H).
  apply bind_Ok_inv in H as ([[|] m] & st2 & Hpass & H).
  - injection H as <- _. now apply readSeq_pass_stop in Hpass.
  - destruct err; [discriminate|]. now apply IH in H.
Qed.

(** Nothing to iterate over: every pass ends at once and the loop goes
    round for as long as it is left to run. *)
Lemma readSeq_loop_empty fuel limit rCount (st : State DB) :
  db_NewIterator (db st) = ([], None) ->
  readSeq_loop cfg fuel limit rCount st
  = Running (add_trace (replicate fuel EvNewIterator) st).
Proof.
  revert st. induction fuel as [|fuel IH]; intros st Hit; cbn [readSeq_loop].
  - cbn [replicate]. now rewrite add_trace_nil.
  - rewrite bind_eq. cbn [NewIterator]. rewrite Hit. cbn beta iota.
    rewrite bind_eq. cbn [readSeq_pass ret]. rewrite IH by exact Hit.
    now rewrite add_trace_log.
Qed.

(** *** readRandom under every schedule *)

Lemma log_event_add_trace e tr (st : State DB) :
  log_event e (add_trace tr st) = add_trace (tr ++ [e]) st.
Proof. unfold add_trace, log_event. cbn. now rewrite <- app_assoc. Qed.

Lemma read_step_cases ro limit n c (st : State DB) :
  (n < read_runnable cfg c)%nat ->
  (read_main_ready cfg c = true /\ n = O
   /\ read_step cfg ro limit n c st = read_main limit c st)
  \/ (exists m t, r_tasks c !! m = Some t
        /\ read_step cfg ro limit n c st
           = (c' ← read_task ro m c; ret (inl c')) st).
Proof.
  unfold read_runnable, read_step. intros Hn.
  destruct (read_main_ready cfg c); [destruct n as [|m]|].
  - left. repeat split.
  - right. destruct (lookup_lt_is_Some_2 (r_tasks c) m) as [t Ht]; [lia|].
    exists m, t. split; [exact Ht | reflexivity].
  - right. destruct (lookup_lt_is_Some_2 (r_tasks c) n) as [t Ht]; [lia|].
    exists n, t. split; [exact Ht | reflexivity].
Qed.

Lemma add64_one_le n : 0 <= n -> 0 <= add64 n 1 <= n + 1.
Proof.
  intros H. unfold add64, wrap64.
  pose proof (Z.mod_pos_bound (n + 1) (2 ^ 64) ltac:(lia)).
  pose proof (Z.mod_le (n + 1) (2 ^ 64) ltac:(lia) ltac:(lia)). lia.
Qed.

Lemma rtask_ok_mono (st0 : State DB) stores t :
  rtask_ok st0 stores t -> rtask_ok st0 (S stores) t.
Proof. destruct t; cbn; try tauto. intros [? ?]. split; [assumption | lia]. Qed.

Ltac rconf :=
  unfold read_set_task, read_set_pc, r_held, r_counted in *;
  cbn [r_pc r_passes r_keys r_randKey r_rCount r_pool r_wg r_tasks] in *.

(** A step keeps the invariant, or ends the phase as [read_post]
    says. *)
Lemma read_step_inv ro limit st0 gets stores n c (st : State DB) :
  read_inv ro limit st0 gets stores c st ->
  (n < read_runnable cfg c)%nat ->
  match read_step cfg ro limit n c st with
  | Ok (inl c') st' =>
      exists gets' stores', read_inv ro limit st0 gets' stores' c' st'
  | o => read_post cfg ro limit st0
           match o with
           | Ok (inr a) st' => Ok a st'
           | Ok (inl _) st' => Running st'
           | Fatal msg st' => Fatal msg st'
           | Panicked p st' => Panicked p st'
           | Blocked st' => Blocked st'
           | Running st' => Running st'
           end
  end.
Proof.
  intros [Hst Hgets Hkeys Hrk Htasks Hcount Hstores Hpool Hwg Hwait] Hn.
  destruct (read_step_cases ro limit n c st Hn)
    as [(Hready & -> & E) | (m & t & Hm & E)]; rewrite E; clear E.
  - (* the launching loop *)
    destruct c as [pc passes keys randKey rCount pool wg tasks].
    unfold read_main, read_main_ready in *. rconf.
    destruct pc as [| | | | | |seen]; cbv beta iota in *.
    + (* a new pass *)
      destruct passes as [|passes]; [cbn; eauto|].
      rewrite bind_eq. cbn [range_knownKeys ret].
      exists gets, stores. split; rconf; try assumption; try lia.
      * subst st. cbn [add_trace globals].
        apply Forall_forall. intros k Hk.
        apply list_elem_of_fmap in Hk as ([s k'] & -> & Hk).
        apply elem_of_map_to_list in Hk. exists s. exact Hk.
      * destruct Hrk as [Hrk | [Ht _]]; [now left | right].
        split; [exact Ht | now right].
      * discriminate.
    + (* the next key *)
      destruct keys as [|key rest]; cbn [ret].
      * exists gets, stores. split; rconf; try assumption; try lia.
        -- destruct Hrk as [Hrk | [Ht _]]; [now left | right].
           split; [exact Ht | now left].
        -- discriminate.
      * apply Forall_cons in Hkeys as [Hk Hrest].
        exists gets, stores. split; rconf; try assumption; try lia.
        -- now left.
        -- discriminate.
    + exists gets, stores. cbn [ret].
      destruct Hrk as [Hrk | [_ [?|?]]]; try discriminate.
      split; rconf; try assumption; try lia; [now left | discriminate].
    + exists gets, stores. cbn [ret].
      destruct Hrk as [Hrk | [_ [?|?]]]; try discriminate.
      split; rconf; try assumption; try lia; [now left | discriminate].
    + exists gets, stores. cbn [ret].
      destruct Hrk as [Hrk | [_ [?|?]]]; try discriminate.
      split; rconf; rewrite ?length_app, ?sum_list_with_app; cbn;
        try assumption; try lia; try discriminate.
      * now left.
      * apply Forall_app. split; [assumption | now constructor].
    + (* the test *)
      destruct Hrk as [Hrk | [_ [?|?]]]; try discriminate.
      destruct (Z.leb_spec limit rCount); cbn [ret];
        exists gets, stores; split; rconf; try assumption; try lia;
        try (now left); try discriminate.
      intros seen' [= <-]. lia.
    + (* [wg.Wait()] returns *)
      cbn. apply Nat.eqb_eq in Hready. exists gets.
      split; [exact Hst|]. split; [exact Hgets|].
      specialize (Hwait seen eq_refl).
      assert (Hz : sum_list_with rt_at_get tasks = 0%nat).
      { assert (Hle : (sum_list_with rt_at_get tasks
                       <= sum_list_with rt_before_done tasks)%nat).
        { apply sum_list_with_le. intros []; cbn; lia. }
        lia. }
      lia.
  - (* a task *)
    rewrite bind_eq. unfold read_task. rewrite Hm.
    pose proof (lookup_lt_Some _ _ _ Hm) as Hlen.
    pose proof (fun t' => sum_list_with_insert rt_at_get _ _ _ t' Hm) as Hg.
    pose proof (fun t' => sum_list_with_insert rt_before_done _ _ _ t' Hm)
      as Hd.
    pose proof (proj1 (Forall_lookup _ _) Htasks _ _ Hm) as Ht.
    assert (Hrk' : registered st0 (r_randKey c)).
    { destruct Hrk as [Hrk | [E _]]; [exact Hrk|].
      rewrite E in Hm. discriminate. }
    destruct c as [pc passes keys randKey rCount pool wg tasks]. rconf.
    destruct t as [key|key n0|key| |]; cbn [rtask_ok] in *.
    + (* [rCount] is read *)
      cbn. exists gets, stores.
      specialize (Hg (RtStore key rCount)).
      specialize (Hd (RtStore key rCount)). cbn in Hg, Hd.
      split; rconf; rewrite ?length_insert; try assumption; try lia.
      * now left.
      * apply Forall_insert; [assumption|]. cbn. split; [assumption | lia].
    + (* [rCount] is written *)
      cbn. exists gets, (S stores).
      specialize (Hg (RtGet key)). specialize (Hd (RtGet key)).
      cbn in Hg, Hd. destruct Ht as [Hkey Hn0].
      pose proof (add64_one_le n0 ltac:(lia)).
      split; rconf; rewrite ?length_insert; try assumption; try lia.
      * now left.
      * apply Forall_insert; [|exact Hkey].
        eapply Forall_impl; [exact Htasks|]. intros t.
        apply rtask_ok_mono.
      * intros seen Hs. specialize (Hwait seen Hs). lia.
    + (* the key is got *)
      rewrite bind_eq. cbn [Get ret].
      set (k := if rangeVarShared st then randKey else key).
      assert (Hk : registered st0 k) by (subst k; destruct (rangeVarShared st); assumption).
      exists (gets ++ [EvGet k ro]), stores.
      specialize (Hg RtDone). specialize (Hd RtDone). cbn in Hg, Hd.
      split; rconf; rewrite ?length_insert, ?length_app; cbn [length];
        try assumption; try lia.
      * subst st. apply log_event_add_trace.
      * apply Forall_app. split; [assumption|].
        constructor; [|constructor]. exists k. auto.
      * now left.
      * apply Forall_insert; [assumption | exact I].
    + (* [wg.Done()] *)
      cbn. exists gets, stores.
      specialize (Hg RtRecv). specialize (Hd RtRecv). cbn in Hg, Hd.
      split; rconf; rewrite ?length_insert; try assumption; try lia.
      * now left.
      * apply Forall_insert; [assumption | exact I].
    + (* [<-pool] *)
      destruct pool as [|p]; [lia|]. cbn.
      pose proof (sum_list_with_delete rt_at_get _ _ _ Hm) as Hg'.
      pose proof (sum_list_with_delete rt_before_done _ _ _ Hm) as Hd'.
      pose proof (length_delete tasks m (ex_intro _ _ Hm)) as Hld.
      cbn in Hg', Hd'.
      exists gets, stores.
      split; rconf; try assumption; try lia.
      * now left.
      * now apply Forall_delete.
Qed.

(** However the scheduler interleaves the loop and its tasks,
    [readRandom] ends as [read_post] says: it never reaches
    [log.Fatal] and never panics, and when it returns it has made at
    least [limit] gets, all of registered keys. *)
Lemma readRandom_post fuel ro limit (st : State DB) :
  read_post cfg ro limit st (readRandom cfg fuel ro limit st).
Proof.
  unfold readRandom.
  apply (run_threads_ind _ _
    (fun _ c st' => exists gets stores,
                      read_inv ro limit st gets stores c st')).
  - intros c st' (gets & stores & Hinv). cbn. exists gets.
    split; apply Hinv.
  - intros f c st' (gets & stores & Hinv) Hr. cbn.
    destruct Hinv as [Hst Hgets _ _ _ _ _ Hpool Hwg _].
    unfold read_runnable, read_main_ready, r_held, r_counted in *.
    destruct (r_tasks c) as [|t tasks]; [|cbn in Hr; lia].
    cbn [length sum_list_with] in *. split; [|eauto].
    destruct (r_pc c); cbv beta iota in Hr; try lia.
    + destruct (Nat.ltb_spec (r_pool c) (pool_cap cfg)); lia.
    + destruct (Nat.eqb_spec (r_wg c) 0); lia.
  - intros f c st' n (gets & stores & Hinv) Hn.
    pose proof (read_step_inv ro limit st gets stores n c st' Hinv Hn) as H.
    destruct (read_step cfg ro limit n c st') as [[c'|a] st2| | | |];
      exact H.
  - exists [], 0%nat. unfold read_init.
    split; rconf; try (cbn; lia); try discriminate;
      try (right; split; [reflexivity | now left]);
      try apply Forall_nil_2.
    unfold add_trace. destruct st. cbn. now rewrite app_nil_r.
Qed.

(** An empty registry: every pass ends at once and the loop goes round
    for as long as it is left to run. *)
Lemma readRandom_empty fuel ro limit (st : State DB) :
  knownKeys (globals st) = ∅ ->
  readRandom cfg fuel ro limit st = Running st.
Proof.
  intros He. unfold readRandom.
  apply (run_threads_ind _ _
    (fun _ c st' => st' = st /\ r_tasks c = [] /\ r_keys c = []
                    /\ (r_pc c = RAtRange \/ r_pc c = RAtNext))
    (fun o => o = Running st)).
  - intros c st' (-> & _). reflexivity.
  - intros f c st' (-> & Ht & _ & Hpc) Hr.
    unfold read_runnable, read_main_ready in Hr. rewrite Ht in Hr.
    destruct Hpc as [E | E]; rewrite E in Hr; cbn in Hr; lia.
  - intros f c st' n (-> & Ht & Hk & Hpc) Hn.
    unfold read_runnable, read_main_ready in Hn. rewrite Ht in Hn.
    unfold read_step, read_main_ready.
    destruct c as [pc passes keys randKey rCount pool wg tasks].
    cbn [r_pc r_tasks r_keys] in *. subst tasks keys.
    destruct Hpc as [-> | ->]; cbn in Hn; assert (n = O) by lia; subst n;
      cbn [read_main r_pc r_passes r_keys].
    + destruct passes as [|passes]; [reflexivity|].
      rewrite bind_eq. cbn [range_knownKeys]. rewrite He, map_to_list_empty.
      cbn. repeat split. now right.
    + cbn. repeat split. now left.
  - repeat split. now left.
Qed.

Lemma readRandom_not_Fatal fuel ro limit (st : State DB) msg st' :
  readRandom cfg fuel ro limit st <> Fatal msg st'.
Proof.
  intros H. pose proof (readRandom_post fuel ro limit st) as P.
  rewrite H in P. exact P.
Qed.

(** The three checked operations, and the task of [writeData] whose
    put has failed. *)
Lemma write_task_Put_error wo vs sq m c (st : State DB) e :
  w_tasks c !! m = Some (WtCheck (Some e)) ->
  write_task cfg wo vs sq m c st = Fatal "Failed to put value" st.
Proof. intros H. unfold write_task. rewrite H. reflexivity. Qed.

Lemma runFullCompact_error (st : State DB) d e :
  db_CompactRange (db st) = (d, Some e) ->
  runFullCompact st
  = Fatal "error compacting data" (log_event EvCompactRange (set_db d st)).
Proof.
  intros H. unfold runFullCompact. rewrite bind_eq. unfold CompactRange.
  rewrite H. reflexivity.
Qed.

Lemma readSeq_iterator_error fuel wo limit (st : State DB) e :
  db_NewIterator (db st) = ([], Some e) ->
  readSeq cfg (S fuel) wo limit st
  = Fatal "Error reading sequentially" (log_event EvNewIterator st).
Proof.
  intros H. unfold readSeq. cbn [readSeq_loop]. rewrite bind_eq.
  cbn [NewIterator]. rewrite H. reflexivity.
Qed.

End ReadLemmas.

(** C6, as amended.  With a degree of parallelism of at least one, a
    limit [L] of at least one and a store whose iterator yields the same
    [E >= 1] entries at every pass and reports no error, [readSeq] stops
    with its count equal to [L], having touched [L] entries over
    [ceil (L / E)] passes; with [L = 500] and [E = 100] that is five
    passes. *)
Theorem readSeq_reaches_limit {DB Stats} {backend : Backend DB Stats}
  (cfg : Config) (fuel : nat) (wo : WriteOptions) (limit : Z)
  (entries : list (list byte * list byte)) (st : State DB) :
  0 < degreeOfParallelism cfg ->
  1 <= limit < 2 ^ 64 ->
  entries <> [] ->
  db_NewIterator (db st) = (entries, None) ->
  let E := Z.of_nat (length entries) in
  let passes := (limit + E - 1) / E in
  passes <= Z.of_nat fuel ->
  exists tr,
    readSeq cfg fuel wo limit st = Ok limit (add_trace tr st)
    /\ Z.of_nat (count is_touch tr) = limit
    /\ Z.of_nat (count is_iterator tr) = passes
    /\ (limit = 500 -> E = 100 -> passes = 5).
Proof.
  intros Hp Hl He Hit E passes Hfuel.
  destruct (readSeq_loop_healthy cfg limit entries Hp (proj2 Hl) He fuel 0 st)
    as (tr & Hrun & Ht & Hi); try assumption; try lia.
  { rewrite Z.sub_0_r. exact Hfuel. }
  exists tr. rewrite Z.sub_0_r in *. repeat split; try assumption.
  intros -> HE. subst passes. rewrite HE. reflexivity.
Qed.

(** C7.  A read phase that returns has counted at least [limit] touches;
    [readSeq] on a store with nothing to iterate and [readRandom] on an
    empty registry are still running after any number of passes, whatever
    the limit is, so a [readRandom] that returns had a registry that was
    not empty. *)
Theorem read_phases_end_only_at_limit {DB Stats} {backend : Backend DB Stats}
  (cfg : Config) :
  (forall fuel wo limit (st : State DB) n st',
      readSeq cfg fuel wo limit st = Ok n st' -> limit <= n)
  /\ (forall fuel ro limit (st : State DB) n st',
        readRandom cfg fuel ro limit st = Ok n st' ->
        limit <= n /\ knownKeys (globals st) <> ∅)
  /\ (forall fuel wo limit (st : State DB),
        db_NewIterator (db st) = ([], None) ->
        readSeq cfg fuel wo limit st
        = Running (add_trace (replicate fuel EvNewIterator) st))
  /\ (forall fuel ro limit (st : State DB),
        knownKeys (globals st) = ∅ ->
        readRandom cfg fuel ro limit st = Running st).
Proof.
  split; [|split; [|split]].
  - intros fuel wo limit st n st'. apply readSeq_loop_Ok.
  - intros fuel ro limit st n st' H. split.
    + pose proof (readRandom_post cfg fuel ro limit st) as P.
      rewrite H in P. destruct P as (gets & _ & _ & Hn). lia.
    + intros He. now rewrite readRandom_empty in H.
  - intros fuel wo limit st. apply readSeq_loop_empty.
  - intros fuel ro limit st. apply readRandom_empty.
Qed.

(** ** The admission pool *)

Module ExecutorFacts.
Import Executor.

Lemma invariant_init L C : invariant L C (init C).
Proof. unfold invariant, init, held_by_main, counted_by_main, past_loop. cbn. lia. Qed.

Ltac close_invariant :=
  unfold invariant, held_by_main, counted_by_main, past_loop in *;
  cbn in *; intuition (try discriminate; try congruence; try lia).

Lemma invariant_step L C s s' :
  invariant L C s -> step L s s' -> invariant L C s'.
Proof.
  intros Hinv Hstep.
  destruct Hstep; destruct s as [pc0 ex0 tl0 pl0 wg0 fl0 ad0 ar0 fin0]; cbn in *; subst;
    try (destruct pc0; try congruence); close_invariant.
Qed.

Lemma invariant_reachable L C s : reachable L C s -> invariant L C s.
Proof.
  unfold reachable. revert s. apply rtc_ind_r.
  - apply invariant_init.
  - intros s s' _ Hstep IH. eapply invariant_step; eassumption.
Qed.

End ExecutorFacts.

(** C9.  In every state a phase of [C] operations can reach with a pool
    of [L] slots, at most [L] operations are in flight; once [wg.Wait()]
    has returned, all [C] operations have ended and none is left to
    launch or in flight. *)
Theorem pool_bounds_in_flight_and_barrier_waits (L C : nat)
  (s : Executor.ExecState) :
  Executor.reachable L C s ->
  (Executor.in_flight s <= L)%nat
  /\ (Executor.pc s = Executor.Returned ->
      Executor.finished s = C /\ Executor.in_flight s = 0%nat
      /\ Executor.to_launch s = 0%nat).
Proof.
  intros H. apply ExecutorFacts.invariant_reachable in H.
  destruct H as (I1 & I2 & I3 & I4 & I5 & I6 & I7). split; [lia|].
  intros Hpc. specialize (I7 Hpc). unfold Executor.past_loop in I5.
  rewrite Hpc in I5. specialize (I5 eq_refl). lia.
Qed.

Lemma finished_run_reachable : Executor.reachable 1 2 finished_run.
Proof.
  unfold Executor.reachable, Executor.init.
  eapply rtc_l; [eapply Executor.step_send; cbn; eauto; lia|]; cbn.
  eapply rtc_l; [eapply Executor.step_add; cbn; eauto|]; cbn.
  eapply rtc_l; [eapply Executor.step_go; cbn; eauto|]; cbn.
  eapply rtc_l; [eapply Executor.step_op; cbn; eauto|]; cbn.
  eapply rtc_l; [eapply Executor.step_done; cbn; eauto|]; cbn.
  eapply rtc_l; [eapply Executor.step_recv; cbn; eauto|]; cbn.
  eapply rtc_l; [eapply Executor.step_send; cbn; eauto; lia|]; cbn.
  eapply rtc_l; [eapply Executor.step_add; cbn; eauto|]; cbn.
  eapply rtc_l; [eapply Executor.step_go; cbn; eauto|]; cbn.
  eapply rtc_l; [eapply Executor.step_op; cbn; eauto|]; cbn.
  eapply rtc_l; [eapply Executor.step_done; cbn; eauto|]; cbn.
  eapply rtc_l; [eapply Executor.step_recv; cbn; eauto|]; cbn.
  eapply rtc_l; [eapply Executor.step_leave; cbn; eauto|]; cbn.
  eapply rtc_l; [eapply Executor.step_wait; cbn; eauto|]; cbn.
  apply rtc_refl.
Defined.

Lemma pool_bounds_in_flight_and_barrier_waits_witness :
  Executor.reachable 1 2 finished_run
  /\ (Executor.in_flight finished_run <= 1)%nat
  /\ (Executor.pc finished_run = Executor.Returned ->
      Executor.finished finished_run = 2%nat
      /\ Executor.in_flight finished_run = 0%nat
      /\ Executor.to_launch finished_run = 0%nat).
Proof.
  split; [exact finished_run_reachable|].
  exact (pool_bounds_in_flight_and_barrier_waits 1 2 finished_run
           finished_run_reachable).
Defined.

(** ** Concrete runs *)

(** Known digests. *)
Example sha1_Sum_empty :
  sha1.Sum []
  = [ xda; x39; xa3; xee; x5e; x6b; x4b; x0d; x32; x55;
      xbf; xef; x95; x60; x18; x90; xaf; xd8; x07; x09 ].
Proof. vm_compute. reflexivity. Qed.

Example sha1_Sum_abc :
  sha1.Sum [x61; x62; x63]
  = [ xa9; x99; x3e; x36; x47; x06; x81; x6a; xba; x3e;
      x25; x71; x78; x50; xc2; x6c; x9c; xd0; xd8; x9d ].
Proof. vm_compute. reflexivity. Qed.

(** A message of 56 bytes, which takes two blocks:
    "abcdbcdecdefdefgefghfghighijhijkijkljklmklmnlmnomnopnopq". *)
Example sha1_Sum_two_blocks :
  sha1.Sum [ x61; x62; x63; x64; x62; x63; x64; x65; x63; x64; x65; x66;
             x64; x65; x66; x67; x65; x66; x67; x68; x66; x67; x68; x69;
             x67; x68; x69; x6a; x68; x69; x6a; x6b; x69; x6a; x6b; x6c;
             x6a; x6b; x6c; x6d; x6b; x6c; x6d; x6e; x6c; x6d; x6e; x6f;
             x6d; x6e; x6f; x70; x6e; x6f; x70; x71 ]
  = [ x84; x98; x3e; x44; x1c; x3b; xd2; x6e; xba; xae;
      x4a; xa1; xf9; x51; x29; xe5; xe5; x46; x70; xf1 ].
Proof. vm_compute. reflexivity. Qed.

(** Three operations in half a second: six per second. *)
Example OpRate_six :
  float64_div (float64_of_Z 3) (Duration_Seconds 500000000)
  = S754_finite false 6755399441055744 (-50).
Proof. vm_compute. reflexivity. Qed.

(** A phase that takes no time has an infinite rate. *)
Example OpRate_zero_duration :
  float64_div (float64_of_Z 3) (Duration_Seconds 0) = S754_infinity false.
Proof. vm_compute. reflexivity. Qed.

Lemma makeKV_sequential_key_witness :
  8 <= keySize (smallConfig 10 1) /\ 0 <= 5 < 2 ^ 64
  /\ key_of (makeKV (smallConfig 10 1) initGlobals 5 4 true)
     = Done (be_bytes64 (MaxUint64 - 5) ++ replicate 2 x00).
Proof.
  split; [cbn; lia|]. split; [lia|].
  apply (makeKV_sequential_key (smallConfig 10 1) initGlobals 5 4); cbn; lia.
Defined.

Lemma makeKV_sequential_short_key_panics :
  key_of (makeKV (smallConfig 4 1) initGlobals 0 4 true)
  = Panics IndexOutOfRange
  /\ ~ (exists key, key_of (makeKV (smallConfig 4 1) initGlobals 0 4 true)
                    = Done key).
Proof.
  assert (H : key_of (makeKV (smallConfig 4 1) initGlobals 0 4 true)
              = Panics IndexOutOfRange) by reflexivity.
  split; [exact H|]. intros [key Hk]. rewrite H in Hk. discriminate.
Qed.

Lemma makeKV_hashed_key_witness :
  8 <= keySize (smallConfig 10 1) <= 20 /\ 0 <= 1 < 2 ^ 64
  /\ key_of (makeKV (smallConfig 10 1) initGlobals 1 4 false)
     = Done (take 10 (sha1.Sum (le_bytes64 1 ++ replicate 2 x00))).
Proof.
  split; [cbn; lia|]. split; [lia|].
  apply (makeKV_hashed_key (smallConfig 10 1) initGlobals 1 4); cbn; lia.
Defined.

Lemma makeKV_hashed_long_key_panics :
  key_of (makeKV (smallConfig 21 1) initGlobals 0 4 false)
  = Panics SliceBoundsOutOfRange
  /\ ~ (exists key, key_of (makeKV (smallConfig 21 1) initGlobals 0 4 false)
                    = Done key).
Proof.
  assert (H : key_of (makeKV (smallConfig 21 1) initGlobals 0 4 false)
              = Panics SliceBoundsOutOfRange) by (vm_compute; reflexivity).
  split; [exact H|]. intros [key Hk]. rewrite H in Hk. discriminate.
Qed.

Lemma makeKV_panics_outside_key_bounds_witness :
  keySize (smallConfig 4 1) < 8
  /\ key_of (makeKV (smallConfig 4 1) initGlobals 7 4 true)
     = Panics IndexOutOfRange.
Proof.
  split; [cbn; lia|].
  apply (makeKV_panics_outside_key_bounds (smallConfig 4 1) initGlobals 7 4 true).
  cbn; lia.
Defined.

(** C3, at the failing input.  With a store whose [Get] fails on every
    call, a registry of one key and a limit of one, [readRandom] makes
    the call, drops the error and returns normally. *)
Theorem readRandom_ignores_Get_error :
  let cfg := smallConfig 8 1 in
  let key := be_bytes64 7 in
  let st := stateWithKeys [(key, [x2a])] [key] in
  (db_Get (Backend := brokenGetBackend) (db st) key (readOptions cfg)).2
  = Some "leveldb: corruption"
  /\ readRandom (backend := brokenGetBackend) cfg 1 (readOptions cfg) 1 st
     = Ok 1 (log_event (EvGet key (readOptions cfg)) st).
Proof. split; vm_compute; reflexivity. Qed.

(** With a limit of zero and a store of one entry, [readSeq] touches
    the entry before it compares the count with the limit: it stops at a
    count of one.  With a pool of no slots the first send is never
    received: the reader is blocked before its first touch. *)
Lemma readSeq_count_misses_limit :
  (let cfg := smallConfig 8 1 in
   let st := initState [([x01], [x02])] in
   readSeq (backend := memBackend) cfg 3 (writeOptions cfg) 0 st
   = Ok 1 (add_trace [EvNewIterator; EvTouch [x01] [x02]] st)
   /\ count is_touch [EvNewIterator; EvTouch [x01] [x02]] = 1%nat)
  /\ (let cfg := smallConfig 8 0 in
      let st := initState [([x01], [x02])] in
      readSeq (backend := memBackend) cfg 3 (writeOptions cfg) 5 st
      = Blocked (add_trace [EvNewIterator] st)).
Proof. repeat split; vm_compute; reflexivity. Qed.

Lemma readSeq_reaches_limit_witness :
  let cfg := smallConfig 8 1 in
  let st := initState hundredEntries in
  0 < degreeOfParallelism cfg /\ 1 <= 500 < 2 ^ 64 /\ hundredEntries <> []
  /\ db_NewIterator (Backend := memBackend) (db st) = (hundredEntries, None)
  /\ exists tr,
       readSeq (backend := memBackend) cfg 5 (writeOptions cfg) 500 st
       = Ok 500 (add_trace tr st)
       /\ Z.of_nat (count is_touch tr) = 500
       /\ Z.of_nat (count is_iterator tr) = 5.
Proof.
  intros cfg st.
  assert (H1 : 0 < degreeOfParallelism cfg) by (cbn; lia).
  assert (H2 : 1 <= 500 < 2 ^ 64) by lia.
  assert (H3 : hundredEntries <> []) by discriminate.
  assert (H4 : db_NewIterator (Backend := memBackend) (db st)
               = (hundredEntries, None)) by reflexivity.
  repeat (split; [assumption|]).
  destruct (readSeq_reaches_limit (backend := memBackend) cfg 5
              (writeOptions cfg) 500 hundredEntries st H1 H2 H3 H4)
    as (tr & Hrun & Ht & Hi & _).
  - vm_compute. discriminate.
  - exists tr. repeat split; assumption.
Defined.

Lemma read_phases_end_only_at_limit_witness :
  let cfg := smallConfig 8 1 in
  readSeq (backend := memBackend) cfg 7 (writeOptions cfg) 5 (initState [])
  = Running (add_trace (replicate 7 EvNewIterator) (initState []))
  /\ readRandom (backend := memBackend) cfg 7 (readOptions cfg) 5 (initState [])
     = Running (initState []).
Proof.
  intros cfg.
  destruct (read_phases_end_only_at_limit (backend := memBackend) cfg)
    as (_ & _ & Hseq & Hrand).
  split; [apply Hseq | apply Hrand]; reflexivity.
Defined.


Lemma NewTestResult_record_witness :
  match RunE (backend := memBackend) (smallConfig 8 1) 4 (initState []) with
  | Ok trs st' =>
      Forall record_ok trs /\ length trs = 12%nat
      /\ count is_stats (trace st') = 12%nat
  | _ => False
  end.
Proof.
  destruct (NewTestResult_record (backend := memBackend) (smallConfig 8 1))
    as (_ & _ & _ & H).
  specialize (H 4%nat (initState [])).
  assert (C : completed (RunE (backend := memBackend) (smallConfig 8 1) 4
                              (initState [])) = true)
    by (vm_compute; reflexivity).
  destruct (RunE (smallConfig 8 1) 4 (initState [])) as [trs st'| | | |];
    try discriminate C.
  destruct (H trs st' eq_refl) as (Hok & Hlen & Hc).
  split; [exact Hok|]. split; [exact Hlen|]. rewrite Hc, Hlen. reflexivity.
Defined.

(** C8, at the failing input.  With one slot in the pool and the range
    of the indices 0 and 1, whose sequential keys differ, the scheduler
    lets the loop advance [i] to 1 before the first task has read it and
    lets the second task read it before the loop advances it again:
    both tasks build the key of index 1.  The write phase completes,
    both puts carry that key, and after a phase over two distinct
    indices whose keys do not collide the registry and the store hold
    one entry. *)
Theorem writeData_race_registers_an_index_twice :
  let cfg := smallConfig 8 1 in
  let wo := writeOptions cfg in
  let key0 := be_bytes64 MaxUint64 in
  let key1 := be_bytes64 (MaxUint64 - 1) in
  write_indices 0 2 = [0; 1]
  /\ makeKey cfg 0 true = Done key0 /\ makeKey cfg 1 true = Done key1
  /\ key0 <> key1
  /\ match writeData (backend := memBackend) cfg wo 4 0 2 true (raceState [])
     with
     | Ok _ st' =>
         trace st' = [ EvPut key1 (replicate 4 x00) wo;
                       EvPut key1 (replicate 4 x00) wo ]
         /\ (map_to_list (knownKeys (globals st'))).*2 = [key1]
         /\ size (knownKeys (globals st')) = 1%nat
         /\ db st' = [(key1, replicate 4 x00)]
     | _ => False
     end.
Proof.
  intros cfg wo key0 key1.
  split; [reflexivity|]. split; [vm_compute; reflexivity|].
  split; [vm_compute; reflexivity|]. split; [discriminate|].
  vm_compute. repeat split; reflexivity.
Qed.

(** * Further properties *)

(** ** The order of sequential keys *)

Lemma be_value_app a b :
  be_value (a ++ b) = be_value a * 256 ^ Z.of_nat (length b) + be_value b.
Proof.
  unfold be_value. rewrite fold_left_app. generalize (fold_left (fun acc b0 => acc * 256 + Z_of_byte b0) a 0).
  induction b as [|x b IH]; intros acc; cbn [fold_left length].
  - cbn. lia.
  - rewrite IH, (IH (0 * 256 + Z_of_byte x)), Nat2Z.inj_succ, Z.pow_succ_r by lia.
    lia.
Qed.

Lemma be_value_cons x a :
  be_value (x :: a) = Z_of_byte x * 256 ^ Z.of_nat (length a) + be_value a.
Proof.
  change (x :: a) with ([x] ++ a). rewrite be_value_app. unfold be_value at 1.
  cbn. lia.
Qed.

Lemma be_value_bound a : 0 <= be_value a < 256 ^ Z.of_nat (length a).
Proof.
  induction a as [|x a IH].
  - cbn. lia.
  - rewrite be_value_cons. cbn [length]. rewrite Nat2Z.inj_succ, Z.pow_succ_r by lia.
    pose proof (Z_of_byte_range x). nia.
Qed.

Lemma Z_of_byte_compare x y :
  N.compare (Byte.to_N x) (Byte.to_N y)
  = Z.compare (Z_of_byte x) (Z_of_byte y).
Proof. unfold Z_of_byte. now rewrite N2Z.inj_compare. Qed.

(** On byte strings of one length the bytewise order is the order of
    the numbers they denote. *)
Lemma bytes_compare_be_value a b :
  length a = length b ->
  bytes_compare a b = Z.compare (be_value a) (be_value b).
Proof.
  revert b. induction a as [|x a IH]; intros [|y b] Hlen; try discriminate.
  - reflexivity.
  - injection Hlen as Hlen. cbn [bytes_compare].
    rewrite Z_of_byte_compare, !be_value_cons, <- Hlen, (IH b Hlen).
    pose proof (be_value_bound a) as Ha. pose proof (be_value_bound b) as Hb.
    rewrite <- Hlen in Hb.
    set (p := 256 ^ Z.of_nat (length a)) in *.
    destruct (Z.compare_spec (Z_of_byte x) (Z_of_byte y)) as [E|E|E].
    + rewrite E. destruct (Z.compare_spec (be_value a) (be_value b));
        symmetry; [apply Z.compare_eq_iff | apply Z.compare_lt_iff
                  | apply Z.compare_gt_iff]; lia.
    + symmetry. apply Z.compare_lt_iff. nia.
    + symmetry. apply Z.compare_gt_iff. nia.
Qed.

Lemma makeKey_sequential_compare cfg i j ki kj :
  0 <= i < 2 ^ 64 -> 0 <= j < 2 ^ 64 ->
  makeKey cfg i true = Done ki ->
  makeKey cfg j true = Done kj ->
  bytes_compare ki kj = (j ?= i).
Proof.
  intros Hi Hj. rewrite !makeKey_sequential.
  destruct (keySize cfg <? 8); [discriminate|].
  intros Ei Ej. apply Done_inj in Ei, Ej. subst ki kj.
  rewrite bytes_compare_be_value
    by (rewrite !length_app, !length_replicate; reflexivity).
  rewrite !be_value_app, !sub64_MaxUint64 by lia.
  rewrite !be_value_be_bytes64 by (unfold MaxUint64; lia).
  assert (0 < 256 ^ Z.of_nat (length (replicate (Z.to_nat (keySize cfg) - 8) x00)))
    by (apply Z.pow_pos_nonneg; lia).
  destruct (Z.compare_spec j i) as [E | E | E].
  - subst j. apply Z.compare_refl.
  - apply Z.compare_lt_iff. nia.
  - apply Z.compare_gt_iff. nia.
Qed.

(** X1.  Sequential keys are ordered against their indices: for
    [0 <= i < j < 2^64] the key of [j] is smaller than the key of [i] in
    the bytewise order in which the store compares keys, so a sequential
    fill presents its keys in strictly descending order. *)
Theorem sequential_keys_reverse_order cfg i j ki kj :
  0 <= i -> i < j -> j < 2 ^ 64 ->
  makeKey cfg i true = Done ki ->
  makeKey cfg j true = Done kj ->
  bytes_compare kj ki = Lt /\ bytes_compare ki kj = Gt.
Proof.
  intros Hi Hij Hj Ei Ej.
  rewrite (makeKey_sequential_compare cfg j i kj ki) by (assumption || lia).
  rewrite (makeKey_sequential_compare cfg i j ki kj) by (assumption || lia).
  split; [now apply Z.compare_lt_iff | now apply Z.compare_gt_iff].
Qed.

Lemma sequential_keys_reverse_order_witness :
  bytes_compare (be_bytes64 (MaxUint64 - 6) ++ replicate 2 x00)
                (be_bytes64 (MaxUint64 - 5) ++ replicate 2 x00) = Lt
  /\ bytes_compare (be_bytes64 (MaxUint64 - 5) ++ replicate 2 x00)
                   (be_bytes64 (MaxUint64 - 6) ++ replicate 2 x00) = Gt.
Proof.
  apply (sequential_keys_reverse_order (smallConfig 10 1) 5 6); try lia;
    reflexivity.
Defined.

(** ** More on write phases *)

Lemma makeKey_Done_of_bounds cfg i sq :
  8 <= keySize cfg -> (sq = false -> keySize cfg <= 20) ->
  exists k, makeKey cfg i sq = Done k.
Proof.
  intros H8 H20. pose proof (proj2 (makeKey_panics cfg i sq) (conj H8 H20)) as Hp.
  destruct (makeKey cfg i sq) as [k|p]; [eauto | discriminate].
Qed.

Lemma write_indices_nonempty start limit :
  write_indices start limit <> [] -> start < add64 limit start.
Proof.
  unfold write_indices. intros H.
  destruct (Z.lt_ge_cases start (add64 limit start)) as [Hlt|Hge];
    [exact Hlt|].
  exfalso. apply H. unfold seqZ.
  replace (Z.to_nat (add64 limit start - start)) with 0%nat by lia.
  reflexivity.
Qed.

Lemma put_failed_nonempty {DB Stats} {backend : Backend DB Stats}
  wo (d : DB) puts e :
  put_failed wo d puts e -> (1 <= length puts)%nat.
Proof.
  intros (before & k & v & after & -> & _).
  rewrite length_app. cbn. lia.
Qed.

Lemma register_all_subseteq ks (m : gmap string (list byte)) :
  self_valued m -> m ⊆ register_all ks m.
Proof.
  revert m. induction ks as [|k ks IH]; intros m Hm; [reflexivity|].
  rewrite register_all_cons.
  transitivity (<[String.string_of_list_byte k := k]> m).
  - now apply self_valued_insert_subseteq.
  - apply IH. now apply self_valued_insert.
Qed.

Section WritePhaseMore.

Context {DB Stats : Type} {backend : Backend DB Stats}.
Variable cfg : Config.

(** Without a slot in the pool the first send waits for ever. *)
Lemma writeData_no_slot wo vs start limit sq (st : State DB) :
  write_indices start limit <> [] ->
  degreeOfParallelism cfg <= 0 ->
  writeData cfg wo vs start limit sq st = Blocked st.
Proof.
  intros Hne Hp. apply write_indices_nonempty in Hne.
  unfold writeData, write_fuel.
  replace (10 * Z.to_nat (add64 limit start - start) + 1)%nat
    with (S (10 * Z.to_nat (add64 limit start - start))) by lia.
  cbn [run_threads].
  unfold write_runnable, write_main_ready, write_init, pool_cap.
  destruct (Z.ltb_spec start (add64 limit start)); [|lia].
  cbn [w_pc w_pool w_tasks length].
  replace (Z.to_nat (degreeOfParallelism cfg)) with 0%nat by lia.
  reflexivity.
Qed.

(** When no key can be built, the task that first reaches [makeKV]
    panics, whichever it is, and nothing has been registered or
    written by then. *)
Lemma writeData_first_key_panics wo vs start limit sq p (st : State DB) :
  write_indices start limit <> [] ->
  0 < degreeOfParallelism cfg ->
  (forall seed, makeKey cfg seed sq = Panics p) ->
  writeData cfg wo vs start limit sq st = Panicked p st.
Proof.
  intros Hne Hp Hpanic. apply write_indices_nonempty in Hne.
  pose proof (add64_lt limit start) as Hl.
  unfold writeData. set (lim := add64 limit start) in *.
  apply (run_threads_ind _ _
    (fun f c st' =>
       st' = st /\ write_shape lim c /\ (write_measure lim c <= f)%nat
       /\ Forall (fun t => t = WtArgs \/ exists seed, t = WtKey seed)
                 (w_tasks c)
       /\ (w_pc c = WAtIncr \/ w_pc c = WAtWait -> w_tasks c <> []))
    (fun o => o = Panicked p st)).
  - intros c st' (_ & _ & Hm & _). pose proof (write_measure_pos lim c). lia.
  - intros f c st' (-> & [Hpool Hwg _] & _ & _ & Hnil) Hr. exfalso.
    unfold write_runnable, write_main_ready, w_held, w_counted, pool_cap in *.
    destruct (w_tasks c) as [|t tasks]; [|cbn in Hr; lia].
    cbn [length] in *.
    destruct (w_pc c); cbv beta iota in *; try (cbn in Hr; lia).
    + destruct (Nat.ltb_spec (w_pool c) (Z.to_nat (degreeOfParallelism cfg)));
        cbn in Hr; lia.
    + apply Hnil; auto.
  - intros f c st' n (-> & Hshape & Hm & Htasks & Hnil) Hn.
    pose proof (write_step_shape cfg wo vs lim sq Hl n c st Hshape Hn) as Hsh.
    destruct (write_step_cases cfg wo vs lim sq n c st Hn)
      as [(Hready & -> & E) | (m & t & Hlook & E)];
      rewrite E in *; clear E.
    + (* the launching loop *)
      destruct c as [pc i pool wg tasks].
      unfold write_main, write_main_ready in *.
      cbn [w_pc w_i w_pool w_wg w_tasks] in *.
      destruct pc; cbv beta iota in *.
      1-4: destruct Hsh as [Hsh Hlt];
           split; [reflexivity|]; split; [exact Hsh|]; split; [lia|];
           cbn [w_pc w_tasks]; split.
      * assumption.
      * intros [?|?]; discriminate.
      * assumption.
      * intros [?|?]; discriminate.
      * apply Forall_app. split; [assumption|].
        constructor; [now left | constructor].
      * intros _ Happ. now apply app_eq_nil in Happ as [_ ?].
      * assumption.
      * intros _. apply Hnil. now left.
      * exfalso. destruct Hshape as [_ Hwg _].
        unfold w_counted in Hwg. cbn [w_pc w_wg w_tasks] in Hwg.
        apply Nat.eqb_eq in Hready. rewrite Hready in Hwg.
        destruct tasks as [|t tasks]; [apply Hnil; auto|].
        apply Forall_cons in Htasks as [[-> | [seed ->]] _];
          unfold stage_count in Hwg; cbn in Hwg; lia.
    + (* a task *)
      rewrite bind_eq in *. unfold write_task in *. rewrite Hlook in *.
      pose proof (proj1 (Forall_lookup _ _) Htasks _ _ Hlook)
        as [-> | [seed ->]].
      * cbn in Hsh |- *. destruct Hsh as [Hsh Hlt].
        split; [reflexivity|]. split; [exact Hsh|]. split; [lia|].
        unfold write_set_task. cbn [w_pc w_tasks]. split.
        -- apply Forall_insert; [assumption|]. right. eauto.
        -- intros Hpc Hins. apply (f_equal length) in Hins.
           rewrite length_insert in Hins. apply Hnil in Hpc.
           destruct (w_tasks c); [now apply Hpc | discriminate].
      * rewrite bind_eq. unfold register_key. rewrite Hpanic. reflexivity.
  - unfold write_init. destruct (Z.ltb_spec start lim); [|lia].
    split; [reflexivity|]. split.
    { split; unfold w_held, w_counted; cbn [w_pc w_i w_pool w_wg w_tasks];
        try reflexivity. intros _. assumption. }
    split.
    { unfold write_measure, write_fuel. cbn. lia. }
    split; [constructor|]. cbn. intros [?|?]; discriminate.
Qed.

End WritePhaseMore.

(** X2.  With at least one slot in the pool, a key size within the
    bounds of the mode and a store whose [Put] reports no error,
    [writeData] returns normally however its tasks are scheduled: it has
    made exactly one [Put] per index of its range and nothing else, each
    with a value of [valueSize] bytes and the key of a value its task
    can have read in [i]; the store is the result of these puts in the
    order of the log, and the random source has advanced by [valueSize]
    bytes per index. *)
Theorem writeData_returns_with_one_put_per_task
  {DB Stats} {backend : Backend DB Stats}
  (cfg : Config) wo vs start limit sq (st : State DB) :
  0 <= start ->
  0 < degreeOfParallelism cfg ->
  8 <= keySize cfg -> (sq = false -> keySize cfg <= 20) ->
  (forall d k v, (db_Put d k v wo).2 = None) ->
  let n := length (write_indices start limit) in
  exists st' puts,
    writeData cfg wo vs start limit sq st = Ok tt st'
    /\ trace st' = trace st ++ puts
    /\ length puts = n
    /\ Forall (put_ok cfg wo vs start (add64 limit start) sq) puts
    /\ db st' = apply_puts (db st) puts
    /\ readPos (randSrc (globals st'))
       = (readPos (randSrc (globals st)) + n * Z.to_nat vs)%nat.
Proof.
  intros Hs Hp H8 H20 Hput n.
  pose proof (writeData_post cfg wo vs start limit sq st Hs) as P.
  destruct (writeData cfg wo vs start limit sq st)
    as [[] st'|msg st'|p st'|st'|st']; cbn in P.
  - destruct P as (keys & puts & Hh & _ & Hn).
    exists st', puts. subst n. rewrite length_write_indices.
    split; [reflexivity|]. split; [apply Hh|]. split; [exact Hn|].
    split; [apply Hh|]. split; [apply Hh|].
    rewrite (wh_rand _ _ _ _ _ _ _ _ _ _ _ Hh). reflexivity.
  - destruct P as (_ & keys & reads & puts & e & _ & _ & Hf).
    destruct Hf as (before & k & v & after & _ & Hf).
    rewrite Hput in Hf. discriminate.
  - destruct P as (keys & reads & puts & seed & _ & _ & _ & Hk).
    destruct (makeKey_Done_of_bounds cfg seed sq H8 H20) as [k Hk'].
    congruence.
  - destruct P as [P _]. unfold pool_cap in P. lia.
  - contradiction.
Qed.

Lemma writeData_returns_with_one_put_per_task_witness :
  let cfg := smallConfig 8 1 in
  exists st' puts,
    writeData (backend := memBackend) cfg (writeOptions cfg) 4 0 3 false
              (raceState []) = Ok tt st'
    /\ trace st' = puts /\ length puts = 3%nat
    /\ readPos (randSrc (globals st')) = 12%nat.
Proof.
  intros cfg.
  destruct (writeData_returns_with_one_put_per_task (backend := memBackend)
              cfg (writeOptions cfg) 4 0 3 false (raceState []))
    as (st' & puts & Hrun & Htr & Hn & _ & _ & Hr); try (cbn; lia).
  - reflexivity.
  - exists st', puts. repeat split; assumption.
Defined.

(** X3.  A [writeData] that ends in [log.Fatal] ends with the message
    "Failed to put value", and one of the puts it has made returned an
    error on the store as it was then; it has made only [Put] calls, at
    least one and at most as many as its range has indices, and the
    store is the result of these puts. *)
Theorem writeData_Fatal_only_after_failed_Put
  {DB Stats} {backend : Backend DB Stats}
  (cfg : Config) wo vs start limit sq (st : State DB) msg st' :
  0 <= start ->
  writeData cfg wo vs start limit sq st = Fatal msg st' ->
  msg = "Failed to put value"
  /\ exists puts e,
       trace st' = trace st ++ puts
       /\ Forall (put_ok cfg wo vs start (add64 limit start) sq) puts
       /\ (1 <= length puts <= length (write_indices start limit))%nat
       /\ db st' = apply_puts (db st) puts
       /\ put_failed wo (db st) puts e.
Proof.
  intros Hs H.
  pose proof (writeData_post cfg wo vs start limit sq st Hs) as P.
  rewrite H in P. cbn in P.
  destruct P as (-> & keys & reads & puts & e & Hh & Hn & Hf).
  split; [reflexivity|]. exists puts, e.
  split; [apply Hh|]. split; [apply Hh|]. split.
  - pose proof (put_failed_nonempty _ _ _ _ Hf).
    pose proof (wh_order _ _ _ _ _ _ _ _ _ _ _ Hh).
    rewrite length_write_indices. lia.
  - split; [apply Hh | exact Hf].
Qed.

Lemma writeData_Fatal_only_after_failed_Put_witness :
  let cfg := smallConfig 8 1 in
  exists st',
    writeData (backend := brokenPutBackend) cfg (writeOptions cfg) 4 0 3 true
              (initState []) = Fatal "Failed to put value" st'
    /\ exists e, trace st' = [e]
         /\ put_failed (backend := brokenPutBackend) (writeOptions cfg) []
              [e] "leveldb: closed".
Proof.
  intros cfg.
  assert (E : exists st',
             writeData (backend := brokenPutBackend) cfg (writeOptions cfg)
               4 0 3 true (initState []) = Fatal "Failed to put value" st'
             /\ length (trace st') = 1%nat).
  { eexists. split; [vm_compute; reflexivity | reflexivity]. }
  destruct E as (st' & Hrun & Hlen). exists st'. split; [exact Hrun|].
  destruct (writeData_Fatal_only_after_failed_Put (backend := brokenPutBackend)
              cfg (writeOptions cfg) 4 0 3 true (initState []) _ st'
              ltac:(lia) Hrun)
    as (_ & puts & e & Htr & _ & _ & _ & Hf).
  cbn [trace initState app] in Htr. rewrite Htr in Hlen.
  destruct puts as [|x [|y puts]]; try discriminate Hlen.
  exists x. split; [exact Htr|].
  destruct Hf as (before & k & v & after & Hp & Hf).
  exists before, k, v, after. split; [exact Hp|].
  destruct before as [|b [|b' before]]; destruct after; try discriminate Hp.
  reflexivity.
Defined.

(** X4.  On a range that is not empty, [writeData] gets nowhere when the
    configuration is out of bounds: with no slot in the pool it blocks at
    the first send, with a key size below eight the first task panics on
    the index check, and with a key size above twenty the first task of a
    non-sequential phase panics on the slice bounds; in each case nothing
    has been written. *)
Theorem writeData_blocked_or_panics_at_first_task
  {DB Stats} {backend : Backend DB Stats}
  (cfg : Config) wo vs start limit sq (st : State DB) :
  write_indices start limit <> [] ->
  (degreeOfParallelism cfg <= 0 ->
     writeData cfg wo vs start limit sq st = Blocked st)
  /\ (0 < degreeOfParallelism cfg -> keySize cfg < 8 ->
        writeData cfg wo vs start limit sq st = Panicked IndexOutOfRange st)
  /\ (0 < degreeOfParallelism cfg -> 20 < keySize cfg ->
        writeData cfg wo vs start limit false st
        = Panicked SliceBoundsOutOfRange st).
Proof.
  intros Hne. split; [|split].
  - now apply writeData_no_slot.
  - intros Hp Hk. apply writeData_first_key_panics; try assumption.
    intros seed. destruct sq; rewrite ?makeKey_sequential, ?makeKey_hashed;
      destruct (Z.ltb_spec (keySize cfg) 8); (reflexivity || lia).
  - intros Hp Hk. apply writeData_first_key_panics; try assumption.
    intros seed. rewrite makeKey_hashed.
    destruct (Z.ltb_spec (keySize cfg) 8); [lia|].
    destruct (Z.ltb_spec 20 (keySize cfg)); (reflexivity || lia).
Qed.

Lemma writeData_blocked_or_panics_at_first_task_witness :
  writeData (backend := memBackend) (smallConfig 8 0)
            (writeOptions (smallConfig 8 0)) 4 0 3 true (initState [])
  = Blocked (initState [])
  /\ writeData (backend := memBackend) (smallConfig 4 1)
               (writeOptions (smallConfig 4 1)) 4 0 3 true (initState [])
     = Panicked IndexOutOfRange (initState []).
Proof.
  split.
  - apply (writeData_blocked_or_panics_at_first_task (backend := memBackend)
             (smallConfig 8 0)); [discriminate | cbn; lia].
  - apply (writeData_blocked_or_panics_at_first_task (backend := memBackend)
             (smallConfig 4 1)); [discriminate | cbn; lia | cbn; lia].
Defined.

(** X5.  The loop bound [startIndex + writeLimit] is computed in
    [uint64]: when the sum reaches [2^64] it wraps below the start, the
    loop body never runs and [writeData] returns with the state
    unchanged; when it does not, the indices are
    [startIndex, ..., startIndex + writeLimit - 1], [writeLimit] of
    them. *)
Theorem writeData_wrapped_range_writes_nothing
  {DB Stats} {backend : Backend DB Stats}
  (cfg : Config) wo vs start limit sq (st : State DB) :
  0 <= start < 2 ^ 64 -> 0 <= limit < 2 ^ 64 ->
  (2 ^ 64 <= start + limit ->
     writeData cfg wo vs start limit sq st = Ok tt st)
  /\ (start + limit < 2 ^ 64 ->
        write_indices start limit = seqZ start limit
        /\ length (write_indices start limit) = Z.to_nat limit).
Proof.
  intros Hs Hl. split.
  - intros Hw. apply writeData_empty_range. unfold add64, wrap64.
    replace ((limit + start) mod 2 ^ 64) with (limit + start - 2 ^ 64); [lia|].
    apply (Z.mod_unique_pos _ _ 1); lia.
  - intros Hn. rewrite write_indices_no_wrap by lia.
    split; [reflexivity | apply length_seqZ].
Qed.

Lemma writeData_wrapped_range_writes_nothing_witness :
  let cfg := smallConfig 8 1 in
  writeData (backend := memBackend) cfg (writeOptions cfg) 6 2 (2 ^ 64 - 1) false
            (initState []) = Ok tt (initState []).
Proof.
  intros cfg.
  apply (writeData_wrapped_range_writes_nothing (backend := memBackend) cfg);
    lia.
Defined.

(** X6.  A write phase that completes has registered one key per index
    of its range, each the key of a value its task can have read in
    [i]: the registry has lost no name and has grown by at most as many
    entries as the range has indices; if every entry was registered
    under its own bytes before, that is still so and no entry has
    changed; from an empty registry the size is at most the number of
    indices. *)
Theorem write_phase_registry_growth
  {DB Stats} {backend : Backend DB Stats}
  (cfg : Config) wo vs start limit sq (st st' : State DB) :
  0 <= start ->
  writeData cfg wo vs start limit sq st = Ok tt st' ->
  let reg := knownKeys (globals st) in
  let reg' := knownKeys (globals st') in
  let n := length (write_indices start limit) in
  (exists keys,
      reg' = register_all keys reg /\ length keys = n
      /\ Forall (key_ok cfg start (add64 limit start) sq) keys)
  /\ dom reg ⊆ dom reg'
  /\ (size reg' <= size reg + n)%nat
  /\ (self_valued reg -> reg ⊆ reg' /\ self_valued reg')
  /\ (reg = ∅ -> (size reg' <= n)%nat /\ self_valued reg').
Proof.
  intros Hs H reg reg' n.
  apply writeData_Ok in H as (keys & puts & Hh & Hn & _); [|exact Hs].
  pose proof (wh_keys _ _ _ _ _ _ _ _ _ _ _ Hh) as Hreg.
  fold reg reg' in Hreg. fold n in Hn.
  assert (Hsize : (size reg' <= size reg + n)%nat).
  { rewrite Hreg, <- Hn. apply register_all_size. }
  assert (Hself : self_valued reg -> reg ⊆ reg' /\ self_valued reg').
  { intros Hr. rewrite Hreg.
    split; [now apply register_all_subseteq
           | now apply register_all_self_valued]. }
  split; [exists keys; split; [exact Hreg|]; split; [exact Hn | apply Hh]|].
  split.
  { rewrite Hreg, register_all_dom. apply union_subseteq_r. }
  split; [exact Hsize|]. split; [exact Hself|].
  intros He. rewrite He, map_size_empty in Hsize. split; [lia|].
  apply Hself. rewrite He. apply self_valued_empty.
Qed.

Lemma write_phase_registry_growth_witness :
  let cfg := smallConfig 8 1 in
  match writeData (backend := memBackend) cfg (writeOptions cfg) 4 0 3 true
                  (raceState []) with
  | Ok _ st' =>
      (size (knownKeys (globals st')) <= 3)%nat
      /\ self_valued (knownKeys (globals st'))
  | _ => False
  end.
Proof.
  intros cfg.
  pose proof (write_phase_registry_growth (backend := memBackend)
                cfg (writeOptions cfg) 4 0 3 true (raceState [])) as H.
  assert (C : completed (writeData (backend := memBackend) cfg
                           (writeOptions cfg) 4 0 3 true (raceState [])) = true)
    by (vm_compute; reflexivity).
  destruct (writeData cfg (writeOptions cfg) 4 0 3 true (raceState []))
    as [[] st'| | | |]; try discriminate C.
  destruct (H st' ltac:(lia) eq_refl) as (_ & _ & _ & _ & He).
  apply He. reflexivity.
Defined.

(** X7.  A write phase that completes on a registry that already holds,
    under its own bytes, the key of every value its tasks can read in
    [i] leaves the registry as it found it, whatever its value size and
    write options are: an overwrite registers nothing new. *)
Theorem overwrite_of_registered_seeds_leaves_registry
  {DB Stats} {backend : Backend DB Stats}
  (cfg : Config) wo vs start limit sq (st st' : State DB) :
  0 <= start ->
  (forall seed k, start <= seed <= add64 limit start ->
     makeKey cfg seed sq = Done k ->
     knownKeys (globals st) !! String.string_of_list_byte k = Some k) ->
  writeData cfg wo vs start limit sq st = Ok tt st' ->
  knownKeys (globals st') = knownKeys (globals st).
Proof.
  intros Hs Hknown H.
  apply writeData_registry in H as (keys & -> & _ & Hkeys); [|exact Hs].
  apply register_all_known_keys.
  eapply Forall_impl; [exact Hkeys|].
  intros k (seed & Hseed & Hk). now apply (Hknown seed).
Qed.

Lemma overwrite_of_registered_seeds_leaves_registry_witness :
  let cfg := smallConfig 8 1 in
  let keys := map (fun i => be_bytes64 (MaxUint64 - i)) [0; 1; 2] in
  let st := stateWithKeys [] keys in
  match writeData (backend := memBackend) cfg (writeOptions cfg) 4 0 2 true st
  with
  | Ok _ st' => knownKeys (globals st') = knownKeys (globals st)
  | _ => False
  end.
Proof.
  intros cfg keys st.
  pose proof (overwrite_of_registered_seeds_leaves_registry
                (backend := memBackend) cfg (writeOptions cfg) 4 0 2 true st)
    as H.
  assert (C : completed (writeData (backend := memBackend) cfg
                           (writeOptions cfg) 4 0 2 true st) = true)
    by (vm_compute; reflexivity).
  destruct (writeData cfg (writeOptions cfg) 4 0 2 true st)
    as [[] st'| | | |]; try discriminate C.
  apply (H st'); [lia | | reflexivity].
  intros seed k Hseed Hk.
  change (add64 2 0) with 2 in Hseed.
  assert (Hc : seed = 0 \/ seed = 1 \/ seed = 2) by lia.
  destruct Hc as [-> | [-> | ->]]; vm_compute in Hk;
    injection Hk as <-; vm_compute; reflexivity.
Defined.

(** ** More on the read phases *)

Lemma Forall_read_event_touches l :
  Forall (fun e => read_event e = true) (touches l).
Proof. unfold touches. apply Forall_map, Forall_forall. reflexivity. Qed.

Section ReadLemmasMore.

Context {DB Stats : Type} {backend : Backend DB Stats}.
Variable cfg : Config.

#[global] Instance reads_only_preorder : PreOrder (@reads_only DB).
Proof.
  split.
  - intros st. exists []. split; [now rewrite add_trace_nil | constructor].
  - intros a b c (t1 & -> & H1) (t2 & -> & H2). exists (t1 ++ t2).
    split; [apply add_trace_add | now apply Forall_app].
Qed.

Lemma reads_only_log e (st : State DB) :
  read_event e = true -> reads_only st (log_event e st).
Proof.
  intros He. exists [e]. split; [reflexivity | now constructor].
Qed.

Lemma pool_send_reads_only : stable (@reads_only DB) (pool_send cfg).
Proof.
  intros st. unfold pool_send.
  destruct (degreeOfParallelism cfg <=? 0); cbn; reflexivity.
Qed.

Lemma readSeq_reads_only fuel wo limit :
  stable (@reads_only DB) (readSeq cfg fuel wo limit).
Proof.
  apply readSeq_stable; try apply _.
  - apply pool_send_reads_only.
  - intros st. now apply reads_only_log.
  - intros k v st. now apply reads_only_log.
Qed.

Lemma readRandom_reads_only fuel ro limit :
  stable (@reads_only DB) (readRandom cfg fuel ro limit).
Proof.
  apply readRandom_stable; try apply _.
  - intros k ro' st. now apply reads_only_log.
  - intros st. cbn. reflexivity.
Qed.

End ReadLemmasMore.

(** X8.  A [readRandom] that returns has changed nothing but the log of
    calls: it has added calls of [Get] only, each with the phase's
    options and a key of the registry, and no fewer of them than the
    count it returns, which is at least the limit. *)
Theorem readRandom_returns_at_or_past_limit
  {DB Stats} {backend : Backend DB Stats}
  (cfg : Config) (fuel : nat) (ro : ReadOptions) (limit : Z)
  (st : State DB) n st' :
  readRandom cfg fuel ro limit st = Ok n st' ->
  exists gets,
    st' = add_trace gets st
    /\ Forall (get_ok ro st) gets
    /\ limit <= n <= Z.of_nat (length gets).
Proof.
  intros H. pose proof (readRandom_post cfg fuel ro limit st) as P.
  rewrite H in P. exact P.
Qed.

Lemma readRandom_returns_at_or_past_limit_witness :
  let cfg := smallConfig 8 1 in
  let key := be_bytes64 7 in
  let st := withSched loopFirst (stateWithKeys [(key, [x2a])] [key]) in
  let get := EvGet key (readOptions cfg) in
  readRandom (backend := memBackend) cfg 3 (readOptions cfg) 1 st
  = Ok 1 (add_trace [get; get] st)
  /\ exists gets,
       add_trace [get; get] st = add_trace gets st
       /\ 1 <= 1 <= Z.of_nat (length gets).
Proof.
  intros cfg key st get.
  assert (E : readRandom (backend := memBackend) cfg 3 (readOptions cfg) 1 st
              = Ok 1 (add_trace [get; get] st))
    by (vm_compute; reflexivity).
  split; [exact E|].
  destruct (readRandom_returns_at_or_past_limit (backend := memBackend)
              cfg 3 (readOptions cfg) 1 st 1 _ E) as (gets & Hst & _ & Hn).
  exists gets. split; [exact Hst | exact Hn].
Defined.

(** X9.  When the iterator yields [E] entries and then reports an error,
    [readSeq] notices the error only if the limit has not been reached:
    with a limit of at most [E] it returns normally after [limit]
    touches, and with a larger limit it touches the [E] entries and ends
    in [log.Fatal] with "Error reading sequentially". *)
Theorem readSeq_sees_iterator_error_only_below_limit
  {DB Stats} {backend : Backend DB Stats}
  (cfg : Config) (fuel : nat) (wo : WriteOptions) (limit : Z)
  (entries : list (list byte * list byte)) (e : error) (st : State DB) :
  0 < degreeOfParallelism cfg ->
  1 <= limit < 2 ^ 64 ->
  db_NewIterator (db st) = (entries, Some e) ->
  readSeq cfg (S fuel) wo limit st
  = if limit <=? Z.of_nat (length entries)
    then Ok limit
           (add_trace (EvNewIterator :: touches (take (Z.to_nat limit) entries)) st)
    else Fatal "Error reading sequentially"
           (add_trace (EvNewIterator :: touches entries) st).
Proof.
  intros Hp Hl Hit. unfold readSeq. cbn [readSeq_loop]. rewrite bind_eq.
  cbn [NewIterator]. rewrite Hit. cbn beta iota.
  rewrite bind_eq, readSeq_pass_healthy by lia. rewrite Z.sub_0_r.
  rewrite add_trace_log.
  destruct (Z.leb_spec limit (Z.of_nat (length entries))).
  - unfold ret. f_equal. lia.
  - unfold log_Fatal. rewrite take_ge by lia. reflexivity.
Qed.

Lemma readSeq_sees_iterator_error_only_below_limit_witness :
  let cfg := smallConfig 8 1 in
  let st := initState [([x01], [x02])] in
  readSeq (backend := brokenIteratorBackend) cfg 1 (writeOptions cfg) 1 st
  = Ok 1 (add_trace [EvNewIterator; EvTouch [x01] [x02]] st)
  /\ readSeq (backend := brokenIteratorBackend) cfg 1 (writeOptions cfg) 2 st
     = Fatal "Error reading sequentially"
             (add_trace [EvNewIterator; EvTouch [x01] [x02]] st).
Proof.
  intros cfg st. split.
  - rewrite (readSeq_sees_iterator_error_only_below_limit
               (backend := brokenIteratorBackend) cfg 0
               (writeOptions cfg) 1 (db st) "leveldb: corruption" st);
      [reflexivity | cbn; lia | lia | reflexivity].
  - rewrite (readSeq_sees_iterator_error_only_below_limit
               (backend := brokenIteratorBackend) cfg 0
               (writeOptions cfg) 2 (db st) "leveldb: corruption" st);
      [reflexivity | cbn; lia | lia | reflexivity].
Defined.

(** X10.  The read phases only read.  Whatever their outcome, [readSeq]
    and [readRandom] add to the trace nothing but iterator creations,
    touches and [Get] calls; the store, the registry, the random source
    and the clock are as before, and no [Put] and no [Stats] call has
    been made. *)
Theorem read_phases_only_read {DB Stats} {backend : Backend DB Stats}
  (cfg : Config) :
  (forall fuel wo limit (st : State DB),
      reads_only st (final_state (readSeq cfg fuel wo limit st)))
  /\ (forall fuel ro limit (st : State DB),
        reads_only st (final_state (readRandom cfg fuel ro limit st)))
  /\ (forall (st st' : State DB),
        reads_only st st' ->
        db st' = db st /\ globals st' = globals st
        /\ ticks st' = ticks st /\ clock st' = clock st
        /\ count is_put (trace st') = count is_put (trace st)
        /\ count is_stats (trace st') = count is_stats (trace st)).
Proof.
  split; [|split].
  - intros fuel wo limit st. apply readSeq_reads_only.
  - intros fuel ro limit st. apply readRandom_reads_only.
  - intros st st' (tr & -> & Htr). cbn [add_trace db globals ticks clock trace].
    rewrite !count_app. repeat split.
    + assert (count is_put tr = 0%nat); [|lia].
      unfold count. induction Htr as [|e tr He _ IH]; [reflexivity|].
      cbn. destruct e; try discriminate He; exact IH.
    + assert (count is_stats tr = 0%nat); [|lia].
      unfold count. induction Htr as [|e tr He _ IH]; [reflexivity|].
      cbn. destruct e; try discriminate He; exact IH.
Qed.

Lemma read_phases_only_read_witness :
  let cfg := smallConfig 8 1 in
  let st := stateWithKeys hundredEntries [] in
  let st' := final_state (readSeq (backend := memBackend) cfg 2
                            (writeOptions cfg) 5 st) in
  reads_only st st'
  /\ db st' = db st
  /\ count is_put (trace st') = count is_put (trace st).
Proof.
  intros cfg st st'.
  destruct (read_phases_only_read (backend := memBackend) cfg)
    as (H1 & _ & H3).
  split; [apply H1|].
  destruct (H3 st st' (H1 _ _ _ _)) as (Hd & _ & _ & _ & Hp & _).
  split; [exact Hd | exact Hp].
Defined.

(** ** More on the run *)

Lemma elem_of_phase_keys cfg sq idx i k :
  i ∈ idx -> makeKey cfg i sq = Done k ->
  String.string_of_list_byte k ∈ phase_keys cfg sq idx.
Proof.
  intros Hi Hk. unfold phase_keys. apply elem_of_list_to_set.
  apply list_elem_of_omap. exists i. split; [exact Hi|]. now rewrite Hk.
Qed.

Lemma elem_of_write_seeds start limit seed :
  start < add64 limit start -> start <= seed <= add64 limit start ->
  seed ∈ write_seeds start limit.
Proof.
  intros Hlt Hs. unfold write_seeds.
  destruct (Z.ltb_spec start (add64 limit start)); [|lia].
  apply elem_of_seqZ. lia.
Qed.

Lemma size_list_to_set_le (l : list string) :
  (size (list_to_set l : gset string) <= length l)%nat.
Proof.
  induction l as [|x l IH]; cbn [list_to_set length].
  - rewrite size_empty. lia.
  - rewrite size_union_alt, size_singleton.
    pose proof (subseteq_size (list_to_set l ∖ {[x]}) (list_to_set l : gset string)
                  ltac:(apply subseteq_difference_l; reflexivity)).
    lia.
Qed.

Lemma size_phase_keys cfg sq idx :
  (size (phase_keys cfg sq idx) <= length idx)%nat.
Proof.
  unfold phase_keys. etransitivity; [apply size_list_to_set_le|].
  induction idx as [|i idx IH]; [reflexivity|]. cbn [omap list_omap length].
  destruct (makeKey cfg i sq); cbn; lia.
Qed.

Lemma size_union_le (X Y : gset string) : (size (X ∪ Y) <= size X + size Y)%nat.
Proof.
  rewrite size_union_alt.
  pose proof (subseteq_size (Y ∖ X) Y ltac:(apply subseteq_difference_l; reflexivity)).
  lia.
Qed.

Section RunLemmasMore.

Context {DB Stats : Type} {backend : Backend DB Stats}.
Variable cfg : Config.

#[global] Instance same_clock_preorder : PreOrder (@same_clock DB).
Proof.
  split.
  - intros st. split; reflexivity.
  - intros a b c [H1 H2] [H3 H4]. split; congruence.
Qed.

Lemma run_op_same_clock fuel op :
  stable (@same_clock DB) (run_op cfg fuel op).
Proof.
  apply run_op_stable; try apply _.
  - intros st. unfold pool_send.
    destruct (degreeOfParallelism cfg <=? 0); split; reflexivity.
  - intros k v wo st. unfold Put. destruct (db_Put (db st) k v wo).
    split; reflexivity.
  - intros k ro st. split; reflexivity.
  - intros st. split; reflexivity.
  - intros st. unfold CompactRange. destruct (db_CompactRange (db st)).
    split; reflexivity.
  - intros k v st. split; reflexivity.
  - intros st. split; reflexivity.
  - intros i sq st. unfold register_key.
    destruct (makeKey cfg i sq); split; reflexivity.
  - intros vs st. unfold read_value.
    destruct (Rand_Read (randSrc (globals st)) (Z.to_nat vs));
      split; reflexivity.
Qed.

(** The records of a completed script hold successive readings of the
    clock, two per step. *)
Lemma run_script_clock fuel ps trs (st : State DB) out st' :
  run_script cfg fuel ps trs st = Ok out st' ->
  exists rs,
    out = trs ++ rs
    /\ ticks st' = (ticks st + 2 * length ps)%nat
    /\ clock st' = clock st
    /\ forall j r, rs !! j = Some r ->
         StartTime r = clock st (ticks st + 2 * j)%nat
         /\ EndTime r = clock st (ticks st + 2 * j + 1)%nat.
Proof.
  revert trs st. induction ps as [|p ps IH]; intros trs st; cbn [run_script].
  - intros [= <- <-]. exists []. rewrite app_nil_r.
    split; [reflexivity|]. split; [cbn; lia|]. split; [reflexivity|].
    intros j r Hj. now rewrite lookup_nil in Hj.
  - intros H. apply bind_Ok_inv in H as (r & st1 & H1 & H2).
    apply IH in H2 as (rs & -> & Ht & Hc & Hrs).
    apply run_phase_Ok in H1 as (st0 & Hop & -> & Hr).
    pose proof (run_op_same_clock fuel (ph_op p) (tick st)) as Hk.
    rewrite Hop in Hk. destruct Hk as [Hk1 Hk2].
    cbn [final_state tick ticks clock log_event] in *.
    exists (r :: rs). rewrite <- app_assoc. split; [reflexivity|].
    split; [cbn [length]; lia|]. split; [congruence|].
    intros [|j'] r' Hj.
    + injection Hj as <-. rewrite Hr. cbn [StartTime EndTime].
      rewrite Hk1, Hk2. split; f_equal; lia.
    + cbn in Hj. destruct (Hrs j' r' Hj) as [Hs He].
      rewrite Hs, He, Hk1, Hk2. split; f_equal; lia.
Qed.

Lemma run_op_write_dom fuel vs start n sq (st st' : State DB) :
  0 <= start ->
  run_op cfg fuel (OpWrite vs start n sq) st = Ok tt st' ->
  dom (knownKeys (globals st'))
  ⊆ phase_keys cfg sq (write_seeds start n) ∪ dom (knownKeys (globals st)).
Proof.
  cbn [run_op]. intros Hs H.
  apply writeData_registry in H as (keys & -> & Hn & Hkeys); [|exact Hs].
  rewrite register_all_dom. apply union_mono_r.
  intros s Hin. apply elem_of_list_to_set, list_elem_of_fmap in Hin
    as (k & -> & Hk).
  pose proof (proj1 (Forall_forall _ _) Hkeys k Hk) as (seed & Hseed & Hd).
  apply (elem_of_phase_keys cfg sq _ seed k); [|exact Hd].
  apply elem_of_write_seeds; [|exact Hseed].
  rewrite length_write_indices in Hn.
  destruct keys; [now apply elem_of_nil in Hk | cbn in Hn; lia].
Qed.

Lemma run_op_other_globals fuel op (st : State DB) :
  (forall vs start n sq, op <> OpWrite vs start n sq) ->
  globals (final_state (run_op cfg fuel op st)) = globals st.
Proof.
  intros Hop. destruct op as [vs start n sq|limit|limit|]; cbn [run_op].
  - now destruct (Hop vs start n sq).
  - rewrite bind_eq.
    pose proof (readSeq_reads_only cfg fuel (writeOptions cfg) limit st)
      as (tr & E & _).
    destruct (readSeq cfg fuel (writeOptions cfg) limit st);
      cbn [final_state ret] in *; now rewrite E.
  - rewrite bind_eq.
    pose proof (readRandom_reads_only cfg fuel (readOptions cfg) limit st)
      as (tr & E & _).
    destruct (readRandom cfg fuel (readOptions cfg) limit st);
      cbn [final_state ret] in *; now rewrite E.
  - unfold runFullCompact. rewrite bind_eq. unfold CompactRange.
    destruct (db_CompactRange (db st)) as [d [e|]]; reflexivity.
Qed.

Lemma run_phase_dom fuel p (st : State DB) r st' :
  (forall vs start n sq, ph_op p = OpWrite vs start n sq -> 0 <= start) ->
  run_phase cfg fuel p st = Ok r st' ->
  dom (knownKeys (globals st'))
  ⊆ script_keys cfg [p] ∪ dom (knownKeys (globals st)).
Proof.
  intros Hs H. apply run_phase_Ok in H as (st1 & Hop & -> & _).
  cbn [log_event tick globals]. unfold script_keys. cbn [map].
  rewrite union_list_cons, union_list_nil, union_empty_r_L.
  destruct (ph_op p) as [vs start n sq|limit|limit|] eqn:Eop.
  - apply run_op_write_dom in Hop; [exact Hop|]. now apply (Hs vs start n sq).
  - pose proof (run_op_other_globals fuel (OpReadSeq limit) (tick st)
                  ltac:(discriminate)) as Hg.
    rewrite Hop in Hg. cbn in Hg. rewrite Hg. now rewrite union_empty_l_L.
  - pose proof (run_op_other_globals fuel (OpReadRandom limit) (tick st)
                  ltac:(discriminate)) as Hg.
    rewrite Hop in Hg. cbn in Hg. rewrite Hg. now rewrite union_empty_l_L.
  - pose proof (run_op_other_globals fuel OpCompact (tick st)
                  ltac:(discriminate)) as Hg.
    rewrite Hop in Hg. cbn in Hg. rewrite Hg. now rewrite union_empty_l_L.
Qed.

Lemma run_script_dom fuel ps trs (st : State DB) out st' :
  Forall (fun p => forall vs start n sq,
                     ph_op p = OpWrite vs start n sq -> 0 <= start) ps ->
  run_script cfg fuel ps trs st = Ok out st' ->
  dom (knownKeys (globals st'))
  ⊆ script_keys cfg ps ∪ dom (knownKeys (globals st)).
Proof.
  intros Hps. revert trs st.
  induction Hps as [|p ps Hp _ IH]; intros trs st; cbn [run_script].
  - intros [= <- <-]. unfold script_keys. cbn [map].
    now rewrite union_list_nil, union_empty_l_L.
  - intros H. apply bind_Ok_inv in H as (r & st1 & H1 & H2).
    apply IH in H2. apply (run_phase_dom _ _ _ _ _ Hp) in H1.
    unfold script_keys in *. cbn [map] in *.
    rewrite union_list_cons, union_list_nil, union_empty_r_L in H1.
    rewrite union_list_cons.
    etransitivity; [exact H2|]. apply union_least.
    + intros x Hx. rewrite !elem_of_union. tauto.
    + etransitivity; [exact H1|]. intros x. rewrite !elem_of_union. tauto.
Qed.

End RunLemmasMore.

(** X11.  A run of [RunE] that completes has read the clock twenty-four
    times: the record of step [j] holds reading [2j] as its start and
    reading [2j + 1] as its end.  With a clock that never goes back, every
    record ends no earlier than it starts and no later than the next one
    starts. *)
Theorem RunE_records_hold_successive_clock_readings
  {DB Stats} {backend : Backend DB Stats}
  (cfg : Config) fuel (st : State DB) trs st' :
  RunE cfg fuel st = Ok trs st' ->
  ticks st' = (ticks st + 24)%nat
  /\ (forall j r, trs !! j = Some r ->
        StartTime r = clock st (ticks st + 2 * j)%nat
        /\ EndTime r = clock st (ticks st + 2 * j + 1)%nat)
  /\ ((forall a b, (a <= b)%nat -> clock st a <= clock st b) ->
      forall j r r', trs !! j = Some r -> trs !! S j = Some r' ->
        StartTime r <= EndTime r /\ EndTime r <= StartTime r').
Proof.
  intros H. rewrite RunE_run_script, bind_eq in H. cbn [reset_knownKeys] in H.
  apply run_script_clock in H as (rs & -> & Ht & Hc & Hrs).
  rewrite app_nil_l. cbn [set_globals ticks clock] in *.
  split; [exact Ht|]. split; [exact Hrs|].
  intros Hmono j r r' Hj Hj'.
  destruct (Hrs j r Hj) as [Hs He]. destruct (Hrs (S j) r' Hj') as [Hs' _].
  rewrite Hs, He, Hs'. split; apply Hmono; lia.
Qed.

Lemma RunE_records_hold_successive_clock_readings_witness :
  match RunE (backend := memBackend) (smallConfig 8 1) 4 (initState []) with
  | Ok trs st' =>
      ticks st' = 24%nat
      /\ forall j r, trs !! j = Some r ->
           StartTime r = 500000000 * Z.of_nat (2 * j)
           /\ EndTime r = 500000000 * Z.of_nat (2 * j + 1)
  | _ => False
  end.
Proof.
  pose proof (RunE_records_hold_successive_clock_readings
                (backend := memBackend) (smallConfig 8 1) 4 (initState []))
    as H.
  assert (C : completed (RunE (backend := memBackend) (smallConfig 8 1) 4
                              (initState [])) = true)
    by (vm_compute; reflexivity).
  destruct (RunE (smallConfig 8 1) 4 (initState [])) as [trs st'| | | |];
    try discriminate C.
  destruct (H trs st' eq_refl) as (Ht & Hrs & _).
  split; [exact Ht|]. exact Hrs.
Defined.

(** X12.  [RunE] empties the registry before its first phase, so after a
    run that completes every registered key is a key of one of the three
    fills (the small sequential, the small random and the large random
    one) for a value a task can have read in [i], whatever was
    registered before the run; there are at most as many of them as
    these values. *)
Theorem RunE_registry_within_the_phase_seeds
  {DB Stats} {backend : Backend DB Stats}
  (cfg : Config) fuel (st : State DB) trs st' :
  RunE cfg fuel st = Ok trs st' ->
  let small := write_seeds 0 (smallFillLimit cfg) in
  let large := write_seeds (mul64 (smallFillLimit cfg) 2)
                           (largeFillLimit cfg) in
  dom (knownKeys (globals st'))
  ⊆ phase_keys cfg true small ∪ phase_keys cfg false small
    ∪ phase_keys cfg false large
  /\ (size (knownKeys (globals st')) <= 2 * length small + length large)%nat.
Proof.
  intros H small large.
  rewrite RunE_run_script, bind_eq in H. cbn [reset_knownKeys] in H.
  apply run_script_dom in H.
  2:{ unfold phase_script. repeat constructor; intros vs start n sq;
        cbn [ph_op]; intros [= <- <- <- <-]; try lia;
        unfold mul64, wrap64; apply Z.mod_pos_bound; lia. }
  cbn [set_globals globals knownKeys] in H.
  rewrite dom_empty_L, union_empty_r_L in H.
  assert (E : script_keys cfg (phase_script cfg)
              = phase_keys cfg true small ∪ phase_keys cfg false small
                ∪ phase_keys cfg false large).
  { unfold script_keys, phase_script. cbn [map ph_op].
    rewrite !union_list_cons, union_list_nil. fold small large.
    apply set_eq. intros x. rewrite !elem_of_union, elem_of_empty. tauto. }
  rewrite E in H. split; [exact H|].
  rewrite <- size_dom. apply subseteq_size in H.
  pose proof (size_union_le (phase_keys cfg true small ∪ phase_keys cfg false small)
                (phase_keys cfg false large)).
  pose proof (size_union_le (phase_keys cfg true small) (phase_keys cfg false small)).
  pose proof (size_phase_keys cfg true small).
  pose proof (size_phase_keys cfg false small).
  pose proof (size_phase_keys cfg false large).
  lia.
Qed.

Lemma RunE_registry_within_the_phase_seeds_witness :
  match RunE (backend := memBackend) (smallConfig 8 1) 4 (raceState []) with
  | Ok trs st' => (size (knownKeys (globals st')) <= 11)%nat
  | _ => False
  end.
Proof.
  pose proof (RunE_registry_within_the_phase_seeds
                (backend := memBackend) (smallConfig 8 1) 4 (raceState []))
    as H.
  assert (C : completed (RunE (backend := memBackend) (smallConfig 8 1) 4
                              (raceState [])) = true)
    by (vm_compute; reflexivity).
  destruct (RunE (smallConfig 8 1) 4 (raceState [])) as [trs st'| | | |];
    try discriminate C.
  destruct (H trs st' eq_refl) as (_ & Hs). exact Hs.
Defined.

(** ** More on the admission pool *)

Lemma step_lowers_measure L s s' :
  Executor.step L s s' -> (exec_measure s' < exec_measure s)%nat.
Proof.
  intros H. destruct H; destruct s as [pc0 ex0 tl0 pl0 wg0 fl0 ad0 ar0 fin0];
    unfold exec_measure; cbn in *; subst; try destruct pc0; cbn; lia.
Qed.

Lemma nsteps_measure L n s s' :
  nsteps (Executor.step L) n s s' ->
  (n + exec_measure s' <= exec_measure s)%nat.
Proof.
  induction 1 as [|n x y z Hstep _ IH]; [lia|].
  apply step_lowers_measure in Hstep. lia.
Qed.

(** X13.  With at least one slot in the pool a phase cannot deadlock:
    in every reachable state in which [log.Fatal] has not ended the
    process and the launching goroutine has not returned from
    [wg.Wait()], some goroutine can take a step. *)
Theorem executor_progress (L C : nat) (s : Executor.ExecState) :
  (0 < L)%nat ->
  Executor.reachable L C s ->
  Executor.exited s = false ->
  Executor.pc s <> Executor.Returned ->
  exists s', Executor.step L s s'.
Proof.
  intros HL Hr Hex Hpc. apply ExecutorFacts.invariant_reachable in Hr.
  destruct Hr as (I1 & I2 & I3 & I4 & I5 & I6 & I7).
  unfold Executor.held_by_main, Executor.counted_by_main, Executor.past_loop in *.
  assert (Htask : (0 < Executor.in_flight s + Executor.at_done s
                        + Executor.at_recv s)%nat ->
                  exists s', Executor.step L s s').
  { intros Hpos.
    destruct (Executor.in_flight s) as [|n] eqn:Ef.
    - destruct (Executor.at_done s) as [|n] eqn:Ed.
      + destruct (Executor.at_recv s) as [|n] eqn:Er; [lia|].
        destruct (Executor.pool_len s) as [|p] eqn:Ep; [lia|].
        eexists. eapply Executor.step_recv; eassumption.
      + destruct (Executor.wg s) as [|w] eqn:Ew; [lia|].
        eexists. eapply Executor.step_done; eassumption.
    - eexists. eapply Executor.step_op; eassumption. }
  destruct (Executor.pc s) eqn:Epc; try contradiction.
  - destruct (Executor.to_launch s) as [|n] eqn:El.
    + eexists. now apply Executor.step_leave.
    + destruct (Nat.lt_ge_cases (Executor.pool_len s) L) as [Hlt|Hge].
      * eexists. eapply Executor.step_send; eassumption.
      * apply Htask. lia.
  - eexists. now apply Executor.step_add.
  - destruct (Executor.to_launch s) as [|n] eqn:El.
    + exfalso. now apply I6.
    + eexists. eapply Executor.step_go; eassumption.
  - destruct (Executor.wg s) as [|w] eqn:Ew.
    + eexists. now apply Executor.step_wait.
    + apply Htask. lia.
Qed.

Lemma executor_progress_witness :
  exists s', Executor.step 1 (Executor.init 2) s'.
Proof.
  apply (executor_progress 1 2 (Executor.init 2)).
  - lia.
  - apply rtc_refl.
  - reflexivity.
  - discriminate.
Defined.

(** X14.  With a pool of no slots and at least one operation to launch,
    the initial state is the only reachable one: the first send on the
    pool never completes. *)
Theorem executor_blocked_without_slots (C : nat) (s : Executor.ExecState) :
  Executor.reachable 0 (S C) s -> s = Executor.init (S C).
Proof.
  unfold Executor.reachable. revert s. apply rtc_ind_r; [reflexivity|].
  intros s s' _ Hstep ->.
  inversion Hstep; cbn in *; try discriminate; lia.
Qed.

Lemma executor_blocked_without_slots_witness :
  Executor.init 3 = Executor.init 3.
Proof.
  apply (executor_blocked_without_slots 2 (Executor.init 3)). apply rtc_refl.
Defined.

(** X15.  Every execution of a phase of [C] operations has at most
    [10 * C + 5] steps, whatever the pool size and the interleaving are:
    a phase cannot run forever on scheduling alone. *)
Theorem executor_runs_are_bounded (L C n : nat) (s : Executor.ExecState) :
  nsteps (Executor.step L) n (Executor.init C) s -> (n <= 10 * C + 5)%nat.
Proof.
  intros H. apply nsteps_measure in H.
  unfold exec_measure at 2 in H. cbn in H. lia.
Qed.

Lemma executor_runs_are_bounded_witness : (1 <= 10 * 2 + 5)%nat.
Proof.
  apply (executor_runs_are_bounded 1 2 1
           {| Executor.pc := Executor.AtAdd; Executor.exited := false;
              Executor.to_launch := 2; Executor.pool_len := 1;
              Executor.wg := 0; Executor.in_flight := 0;
              Executor.at_done := 0; Executor.at_recv := 0;
              Executor.finished := 0 |}).
  eapply nsteps_l; [|apply nsteps_O].
  eapply (Executor.step_send 1 (Executor.init 2) 1); cbn; auto.
Defined.

(** ** The Markdown pages *)

Import docutil.

(** Induction on a command tree: a property that holds of a command
    whenever it holds of its subcommands holds of every command. *)
Lemma Command_tree_ind (P : Command -> Prop) :
  (forall c, Forall P (Commands c) -> P c) -> forall c, P c.
Proof.
  intros H. fix IH 1. intros c. apply H.
  destruct c as [? ? ? ? ? ? ? ? ? ? ? cs]. simpl.
  induction cs as [|a cs IHcs]; constructor; [apply IH | exact IHcs].
Qed.

Lemma string_app_assoc (a b c : string) : (a +:+ b) +:+ c = a +:+ (b +:+ c).
Proof.
  induction a as [|x a IH]; unfold String.append; fold String.append;
    simpl; [reflexivity | f_equal; exact IH].
Qed.

Lemma string_app_nil_r (a : string) : a +:+ "" = a.
Proof.
  induction a as [|x a IH]; unfold String.append; fold String.append;
    simpl; [reflexivity | f_equal; exact IH].
Qed.

Lemma string_app_cons x (a b : string) :
  String x a +:+ b = String x (a +:+ b).
Proof. reflexivity. Qed.

Lemma ReplaceAll_space_app (a b : string) :
  ReplaceAll_space (a +:+ b) = ReplaceAll_space a +:+ ReplaceAll_space b.
Proof.
  induction a as [|x a IH]; [reflexivity|].
  rewrite string_app_cons. simpl. rewrite string_app_cons.
  f_equal. exact IH.
Qed.

Lemma ReplaceAll_space_md (a : string) :
  ReplaceAll_space (a +:+ ".md") = ReplaceAll_space a +:+ ".md".
Proof. rewrite ReplaceAll_space_app. reflexivity. Qed.

Section DocLemmas.

Context {FS : Type} {fsys : FileSystem FS}.
Variable sort_Sort : list Command -> list Command.
Variable filepath_Join : string -> string -> string.

Lemma genMarkdownDoc_eq parents cmd dir st :
  genMarkdownDoc sort_Sort filepath_Join parents cmd dir st =
  match doc_loop
          (fun c => genMarkdownDoc sort_Sort filepath_Join (cmd :: parents)
                      c dir)
          (Commands cmd) st with
  | (st1, Some err) => (st1, Some err)
  | (st1, None) =>
      genMarkdownFile sort_Sort filepath_Join parents cmd dir st1
  end.
Proof.
  destruct cmd as [? ? ? ? ? ? ? ? ? ? ? cs]. simpl.
  match goal with
  | |- match ?a with _ => _ end = match ?b with _ => _ end =>
      assert (E : a = b); [|rewrite E; reflexivity]
  end.
  match goal with |- context [?x :: parents] =>
    generalize (x :: parents) end.
  intros ps. revert st.
  induction cs as [|c cs IH]; intros st; simpl; [reflexivity|].
  destruct (skipped c); [apply IH|].
  match goal with |- context [genMarkdownDoc ?s ?j ?p c dir st] =>
    destruct (genMarkdownDoc s j p c dir st) as [st1 [err|]] end;
    [reflexivity | apply IH].
Qed.

Lemma doc_nodes_eq parents cmd :
  doc_nodes parents cmd =
  doc_nodes_loop (doc_nodes (cmd :: parents)) (Commands cmd)
  ++ [(parents, cmd)].
Proof.
  destruct cmd as [? ? ? ? ? ? ? ? ? ? ? cs]. simpl. f_equal.
  match goal with |- context [?x :: parents] =>
    generalize (x :: parents) end.
  intros ps.
  induction cs as [|c cs IH]; simpl; [reflexivity|].
  destruct (skipped c); [apply IH|]. f_equal. apply IH.
Qed.

Lemma doc_trace_app dir n1 n2 r t1 t2 :
  doc_trace sort_Sort filepath_Join dir n1 None t1 ->
  doc_trace sort_Sort filepath_Join dir n2 r t2 ->
  doc_trace sort_Sort filepath_Join dir (n1 ++ n2) r (t1 ++ t2).
Proof.
  intros H1 H2. simpl in H1. subst t1. destruct r as [err|]; simpl in *.
  - destruct H2 as (dn & node & rest & ftr & -> & Hf & ->).
    exists (n1 ++ dn), node, rest, ftr. split; [now rewrite <- app_assoc|].
    split; [exact Hf|]. rewrite flat_map_app, <- app_assoc. reflexivity.
  - subst t2. now rewrite flat_map_app.
Qed.

Lemma doc_trace_stop dir n1 n2 err t1 :
  doc_trace sort_Sort filepath_Join dir n1 (Some err) t1 ->
  doc_trace sort_Sort filepath_Join dir (n1 ++ n2) (Some err) t1.
Proof.
  intros (dn & node & rest & ftr & -> & Hf & ->).
  exists dn, node, (rest ++ n2), ftr. split; [|split; [exact Hf|reflexivity]].
  now rewrite <- app_assoc.
Qed.

Lemma genMarkdownFile_trace parents cmd dir st st' r :
  genMarkdownFile sort_Sort filepath_Join parents cmd dir st = (st', r) ->
  exists tr, calls st' = calls st ++ tr
    /\ doc_trace sort_Sort filepath_Join dir [(parents, cmd)] r tr.
Proof.
  unfold genMarkdownFile, Create, WriteTo, Close.
  destruct (os_Create (fs st) _) as [f1 [e1|]] eqn:E1.
  - intros [= <- <-]. eexists. split; [reflexivity|].
    exists [], (parents, cmd), [], [(CallCreate
      (filepath_Join dir (basename (parents, cmd))), Some e1)].
    split; [reflexivity|]. split; [left; reflexivity | reflexivity].
  - cbn [fs calls].
    destruct (file_Write f1 _ _) as [f2 e2] eqn:E2. cbn [fs calls].
    intros [= <- <-]. cbn [calls]. eexists. split.
    { rewrite <- !app_assoc. reflexivity. }
    destruct e2 as [e2|]; simpl.
    + exists [], (parents, cmd), [], [(CallCreate
        (filepath_Join dir (basename (parents, cmd))), None);
        (CallWrite (filepath_Join dir (basename (parents, cmd)))
           (genMarkdownPage sort_Sort parents cmd), Some e2);
        (CallClose (filepath_Join dir (basename (parents, cmd))), None)].
      split; [reflexivity|]. split; [right; reflexivity | reflexivity].
    + reflexivity.
Qed.

Lemma doc_loop_trace dir
  (rec : Command -> DocState FS -> DocState FS * option error)
  (nodes_of : Command -> list Node) cs :
  Forall (fun c => forall st st' r, rec c st = (st', r) ->
            exists tr, calls st' = calls st ++ tr
              /\ doc_trace sort_Sort filepath_Join dir (nodes_of c) r tr)
         cs ->
  forall st st' r, doc_loop rec cs st = (st', r) ->
    exists tr, calls st' = calls st ++ tr
      /\ doc_trace sort_Sort filepath_Join dir
           (doc_nodes_loop nodes_of cs) r tr.
Proof.
  induction 1 as [|c cs Hc _ IH]; intros st st' r; simpl.
  - intros [= <- <-]. exists []. split; [now rewrite app_nil_r|reflexivity].
  - destruct (skipped c); [apply IH|].
    destruct (rec c st) as [st1 [err|]] eqn:E.
    + intros [= <- <-]. destruct (Hc _ _ _ E) as (tr & Htr & Hd).
      exists tr. split; [exact Htr|]. now apply doc_trace_stop.
    + intros Hl. destruct (Hc _ _ _ E) as (t1 & Ht1 & Hd1).
      destruct (IH _ _ _ Hl) as (t2 & Ht2 & Hd2).
      exists (t1 ++ t2). split.
      * rewrite Ht2, Ht1, <- app_assoc. reflexivity.
      * now apply doc_trace_app.
Qed.

Lemma genMarkdownDoc_trace dir cmd :
  forall parents st st' r,
    genMarkdownDoc sort_Sort filepath_Join parents cmd dir st = (st', r) ->
    exists tr, calls st' = calls st ++ tr
      /\ doc_trace sort_Sort filepath_Join dir (doc_nodes parents cmd) r tr.
Proof.
  induction cmd as [cmd IH] using Command_tree_ind.
  intros parents st st' r. rewrite genMarkdownDoc_eq, doc_nodes_eq.
  destruct (doc_loop _ (Commands cmd) st) as [st1 r1] eqn:El.
  eapply (doc_loop_trace dir _ (doc_nodes (cmd :: parents))) in El.
  2:{ eapply Forall_impl; [exact IH|]. intros c Hc st0 st0' r0.
      apply Hc. }
  destruct El as (t1 & Ht1 & Hd1). destruct r1 as [err|].
  - intros [= <- <-]. exists t1. split; [exact Ht1|].
    now apply doc_trace_stop.
  - intros Hf. apply genMarkdownFile_trace in Hf.
    destruct Hf as (t2 & Ht2 & Hd2). exists (t1 ++ t2). split.
    + rewrite Ht2, Ht1, <- app_assoc. reflexivity.
    + now apply doc_trace_app.
Qed.

End DocLemmas.

(** *** The See-also list *)

Lemma seeAlso_children_texts parents cmd lh l :
  seeAlso_children (CommandPath parents cmd) lh l =
  texts (fun n => nl +:+ seeAlso_entry lh n +:+ nl)
        (map (fun c => (cmd :: parents, c))
             (filter (fun c => skipped c = false) l)).
Proof.
  induction l as [|c l IH]; [reflexivity|]. simpl.
  rewrite filter_cons. destruct (skipped c) eqn:Hs.
  - rewrite decide_False by discriminate. exact IH.
  - rewrite decide_True by reflexivity. simpl. rewrite <- IH.
    unfold seeAlso_entry, basename. simpl.
    rewrite ReplaceAll_space_md, !string_app_assoc. reflexivity.
Qed.

(** X16.  The text [printSeeAlso] writes for a command is the entry of its
    parent, if it has one, the entries of its sorted subcommands that are
    not skipped, each on a line of its own followed by an empty line, and
    a final line feed.  The link of every entry is the link handler
    applied to the name [genMarkdownDoc] gives the page of the command
    the entry names: replacing the spaces of the path with ".md"
    appended, as [printSeeAlso] does, gives the same name as appending
    ".md" after the replacement, as [genMarkdownDoc] does. *)
Theorem printSeeAlso_links_to_page_names sort_Sort parents cmd lh :
  (printSeeAlso sort_Sort parents cmd (CommandPath parents cmd) lh).1 =
  texts (fun n => nl +:+ seeAlso_entry lh n) (seeAlso_parent_node parents)
  +:+ texts (fun n => nl +:+ seeAlso_entry lh n +:+ nl)
        (seeAlso_children_nodes sort_Sort parents cmd)
  +:+ nl.
Proof.
  unfold printSeeAlso, seeAlso_children_nodes. cbn [fst].
  rewrite seeAlso_children_texts. f_equal.
  destruct parents as [|p anc]; [reflexivity|].
  unfold seeAlso_parent, seeAlso_parent_node, texts, seeAlso_entry, basename.
  simpl. rewrite ReplaceAll_space_md, !string_app_assoc, string_app_nil_r.
  reflexivity.
Qed.

Lemma hasSeeAlso_loop_filter cs :
  hasSeeAlso_loop cs = true <-> filter (fun c => skipped c = false) cs <> [].
Proof.
  induction cs as [|c cs IH]; simpl.
  - rewrite filter_nil. split; [discriminate | intros H; now destruct H].
  - rewrite filter_cons. destruct (skipped c).
    + rewrite decide_False by discriminate. exact IH.
    + rewrite decide_True by reflexivity. split; [discriminate | reflexivity].
Qed.

(** X17.  [hasSeeAlso] holds exactly when the See-also list has an entry:
    when [sort.Sort] permutes the subcommands, it returns true if and
    only if the command has a parent or a subcommand that the loop of
    [printSeeAlso] does not skip. *)
Theorem hasSeeAlso_iff_list_has_an_entry sort_Sort parents cmd :
  Permutation (sort_Sort (Commands cmd)) (Commands cmd) ->
  hasSeeAlso parents cmd = true <->
  seeAlso_targets sort_Sort (parents, cmd) <> [].
Proof.
  intros Hp. unfold hasSeeAlso, seeAlso_targets, seeAlso_children_nodes.
  cbn [fst snd]. destruct parents as [|p anc]; simpl.
  - rewrite hasSeeAlso_loop_filter.
    assert (Hf : Permutation
                   (filter (fun c => skipped c = false)
                           (sort_Sort (Commands cmd)))
                   (filter (fun c => skipped c = false) (Commands cmd)))
      by now rewrite Hp.
    split; intros H E; apply H.
    + apply map_eq_nil in E. rewrite E in Hf.
      now apply Permutation_nil in Hf.
    + rewrite E in Hf. apply Permutation_sym, Permutation_nil in Hf.
      now rewrite Hf.
  - split; [discriminate | reflexivity].
Qed.

Lemma StronglySorted_filter_bool {A} (R : relation A) (P : A -> Prop)
  `{forall x, Decision (P x)} l :
  StronglySorted R l -> StronglySorted R (filter P l).
Proof.
  induction 1 as [|x l Hl IH Hx]; [constructor|].
  rewrite filter_cons. destruct (decide (P x)); [|exact IH].
  constructor; [exact IH|].
  apply Forall_forall. intros y Hy. apply list_elem_of_filter in Hy.
  rewrite Forall_forall in Hx. apply Hx, Hy.
Qed.

(** X18.  When [sort.Sort] leaves the subcommands permuted and sorted by
    [byName], the subcommands listed under See also are the subcommands
    that are available and not help topics, each as often as it occurs,
    in an order in which no name is less than a name before it; each is
    listed with the command as its parent. *)
Theorem seeAlso_children_in_name_order sort_Sort parents cmd :
  Permutation (sort_Sort (Commands cmd)) (Commands cmd) ->
  StronglySorted (fun a b => byName_Less b a = false)
    (sort_Sort (Commands cmd)) ->
  Permutation (snd <$> seeAlso_children_nodes sort_Sort parents cmd)
    (filter (fun c => skipped c = false) (Commands cmd))
  /\ StronglySorted (fun a b => byName_Less b a = false)
       (snd <$> seeAlso_children_nodes sort_Sort parents cmd)
  /\ Forall (fun n => n.1 = cmd :: parents)
       (seeAlso_children_nodes sort_Sort parents cmd).
Proof.
  intros Hp Hs. unfold seeAlso_children_nodes, Node.
  assert (E : forall l : list Command,
             snd <$> map (fun c => (cmd :: parents, c)) l = l).
  { induction l as [|c l IH]; [reflexivity|]. simpl. f_equal. exact IH. }
  rewrite E. split; [now rewrite Hp|]. split.
  - now apply StronglySorted_filter_bool.
  - apply Forall_forall. intros n Hn. apply list_elem_of_fmap in Hn.
    destruct Hn as (c & -> & _). reflexivity.
Qed.

(** *** The files of a run *)

Lemma ReplaceAll_space_no_space s :
  ~ In space (String.list_ascii_of_string (ReplaceAll_space s)).
Proof.
  induction s as [|c s IH]; simpl; [tauto|].
  intros [E|H]; [|exact (IH H)].
  destruct (Ascii.eqb c space) eqn:Ec.
  - discriminate E.
  - apply Ascii.eqb_neq in Ec. congruence.
Qed.

Lemma list_ascii_of_string_app a b :
  String.list_ascii_of_string (a +:+ b) =
  String.list_ascii_of_string a ++ String.list_ascii_of_string b.
Proof.
  induction a as [|x a IH]; [reflexivity|].
  rewrite string_app_cons. simpl. f_equal. exact IH.
Qed.

(** X19.  The name of a page contains no space: it is the command path
    with every space replaced by an underscore, of the same length as the
    path, followed by ".md". *)
Theorem basename_has_no_space node :
  ~ In space (String.list_ascii_of_string (basename node))
  /\ exists stem, basename node = stem +:+ ".md"
       /\ String.length stem = String.length (CommandPath node.1 node.2).
Proof.
  unfold basename. split.
  - rewrite list_ascii_of_string_app, in_app_iff.
    intros [H|H]; [exact (ReplaceAll_space_no_space _ H)|].
    simpl in H. unfold space in H.
    repeat (destruct H as [H|H]; [discriminate H|]). exact H.
  - eexists. split; [reflexivity|].
    generalize (CommandPath node.1 node.2). intros s.
    induction s as [|c s IH]; simpl; [reflexivity | now rewrite IH].
Qed.

Lemma Forall_succeeded_page_calls sort_Sort filepath_Join dir nodes :
  Forall succeeded (flat_map (page_calls sort_Sort filepath_Join dir) nodes).
Proof.
  induction nodes as [|n nodes IH]; simpl; [constructor|].
  repeat (constructor; [reflexivity|]). exact IH.
Qed.

Section RunTheorems.

Context {FS : Type} {fsys : FileSystem FS}.
Variable sort_Sort : list Command -> list Command.
Variable filepath_Join : string -> string -> string.

(** X20.  [genMarkdownDoc] makes its file-system calls in the order of
  the pages: for every command that gets a page, the pages under each
  of its subcommands that are not skipped, in the order of
  [Commands()], and then its own page, created under the directory
  with the page name, written with the text of [genMarkdownPage] and
  closed.  A run that returns an error has made an initial part of
  these calls; a run that returns nil has made all of them, and nothing
  else. *)
Theorem genMarkdownDoc_writes_pages_in_order parents cmd dir st st' r :
  genMarkdownDoc sort_Sort filepath_Join parents cmd dir st = (st', r) ->
  exists tr,
    calls st' = calls st ++ tr
    /\ tr.*1 `prefix_of` (flat_map (page_calls sort_Sort filepath_Join dir) (doc_nodes parents cmd)).*1
    /\ (r = None -> tr = flat_map (page_calls sort_Sort filepath_Join dir) (doc_nodes parents cmd)).
Proof.
  intros H. apply genMarkdownDoc_trace in H. destruct H as (tr & Ht & Hd).
  exists tr. split; [exact Ht|]. destruct r as [err|]; simpl in Hd.
  - split; [|discriminate].
    destruct Hd as (dn & node & rest & ftr & -> & Hf & ->).
    rewrite flat_map_app, !fmap_app. apply prefix_app. simpl.
    destruct Hf as [-> | ->]; simpl; eexists; reflexivity.
  - subst tr. split; [reflexivity | reflexivity].
Qed.

(** X21.  [genMarkdownDoc] stops at the first call that fails and returns
  its error: when it returns an error, that error was returned by a
  creation or a write, every call before it succeeded, and the only
  call after it, if any, closes the file whose write failed; when it
  returns nil, every call succeeded. *)
Theorem genMarkdownDoc_returns_first_error parents cmd dir st st' r :
  genMarkdownDoc sort_Sort filepath_Join parents cmd dir st = (st', r) ->
  exists tr,
    calls st' = calls st ++ tr
    /\ match r with
       | None => Forall succeeded tr
       | Some err =>
           exists pre call post,
             tr = pre ++ (call, Some err) :: post
             /\ Forall succeeded pre
             /\ (post = [] \/ exists f, post = [(CallClose f, None)])
       end.
Proof.
  intros H. apply genMarkdownDoc_trace in H. destruct H as (tr & Ht & Hd).
  exists tr. split; [exact Ht|]. destruct r as [err|]; simpl in Hd.
  - destruct Hd as (dn & node & rest & ftr & _ & Hf & ->).
    destruct Hf as [-> | ->].
    + eexists _, _, []. split; [reflexivity|].
      split; [apply Forall_succeeded_page_calls | left; reflexivity].
    + eexists (_ ++ [_]), _, [_]. split.
      { rewrite <- app_assoc. reflexivity. }
      split; [|right; eexists; reflexivity].
      apply Forall_app. split; [apply Forall_succeeded_page_calls|].
      constructor; [reflexivity | constructor].
  - subst tr. apply Forall_succeeded_page_calls.
Qed.

(** X22.  Every file that [genMarkdownDoc] creates is written next and
  closed directly after the write, whether the write succeeds or
  fails. *)
Theorem genMarkdownDoc_closes_created_files parents cmd dir st st' r :
  genMarkdownDoc sort_Sort filepath_Join parents cmd dir st = (st', r) ->
  exists tr,
    calls st' = calls st ++ tr
    /\ forall i f,
         tr !! i = Some (CallCreate f, None) ->
         (exists content err, tr !! (i + 1)%nat
                                = Some (CallWrite f content, err))
         /\ tr !! (i + 2)%nat = Some (CallClose f, None).
Proof.
  intros H. apply genMarkdownDoc_trace in H. destruct H as (tr & Ht & Hd).
  exists tr. split; [exact Ht|].
  assert (Hpage : forall node (t : list FsEvent) (w : option error),
    (forall i f, t !! i = Some (CallCreate f, None) ->
       (exists content err, t !! (i + 1)%nat
                              = Some (CallWrite f content, err))
       /\ t !! (i + 2)%nat = Some (CallClose f, None)) ->
    forall i f,
      ([(CallCreate (filepath_Join dir (basename node)), None);
        (CallWrite (filepath_Join dir (basename node))
           (genMarkdownPage sort_Sort node.1 node.2), w);
        (CallClose (filepath_Join dir (basename node)), None)] ++ t) !! i
        = Some (CallCreate f, None) ->
      (exists content err,
          ([(CallCreate (filepath_Join dir (basename node)), None);
            (CallWrite (filepath_Join dir (basename node))
               (genMarkdownPage sort_Sort node.1 node.2), w);
            (CallClose (filepath_Join dir (basename node)), None)] ++ t)
            !! (i + 1)%nat = Some (CallWrite f content, err))
      /\ ([(CallCreate (filepath_Join dir (basename node)), None);
           (CallWrite (filepath_Join dir (basename node))
              (genMarkdownPage sort_Sort node.1 node.2), w);
           (CallClose (filepath_Join dir (basename node)), None)] ++ t)
           !! (i + 2)%nat = Some (CallClose f, None)).
  { intros node t w Hrec i f. destruct i as [|[|[|i]]]; simpl.
    - intros [= <-]. split; [eexists _, _; reflexivity | reflexivity].
    - discriminate.
    - discriminate.
    - apply Hrec. }
  assert (Hnil : forall i f, @nil FsEvent !! i = Some (CallCreate f, None) ->
    (exists content err, @nil FsEvent !! (i + 1)%nat
                           = Some (CallWrite f content, err))
    /\ @nil FsEvent !! (i + 2)%nat = Some (CallClose f, None)).
  { intros i f. rewrite lookup_nil. discriminate. }
  assert (Hplan : forall nodes (t : list FsEvent),
    (forall i f, t !! i = Some (CallCreate f, None) ->
       (exists content err, t !! (i + 1)%nat
                              = Some (CallWrite f content, err))
       /\ t !! (i + 2)%nat = Some (CallClose f, None)) ->
    forall i f, (flat_map (page_calls sort_Sort filepath_Join dir) nodes ++ t) !! i = Some (CallCreate f, None) ->
       (exists content err, (flat_map (page_calls sort_Sort filepath_Join dir) nodes ++ t) !! (i + 1)%nat
                              = Some (CallWrite f content, err))
       /\ (flat_map (page_calls sort_Sort filepath_Join dir) nodes ++ t) !! (i + 2)%nat = Some (CallClose f, None)).
  { induction nodes as [|n nodes IH]; intros t Hrec; [exact Hrec|].
    intros i f. cbn [flat_map]. rewrite <- app_assoc.
    apply (Hpage n _ None). apply IH, Hrec. }
  destruct r as [err|]; simpl in Hd.
  - destruct Hd as (dn & node & rest & ftr & _ & Hf & ->).
    apply Hplan. destruct Hf as [-> | ->].
    + intros [|i] f; simpl; [discriminate|]. rewrite lookup_nil.
      discriminate.
    + intros i f Hi.
      pose proof (Hpage node [] (Some err) Hnil i f) as Hp.
      rewrite !app_nil_r in Hp. apply Hp, Hi.
  - subst tr. intros i f Hi.
    pose proof (Hplan (doc_nodes parents cmd) [] Hnil i f) as Hp.
    rewrite !app_nil_r in Hp. apply Hp, Hi.
Qed.

End RunTheorems.

(** *** Links and pages *)

Lemma doc_nodes_last parents cmd : (parents, cmd) ∈ doc_nodes parents cmd.
Proof. rewrite doc_nodes_eq. apply elem_of_app. right. constructor. Qed.

Lemma doc_nodes_loop_elem (rec : Command -> list Node) cs n :
  n ∈ doc_nodes_loop rec cs <->
  exists c, c ∈ cs /\ skipped c = false /\ n ∈ rec c.
Proof.
  induction cs as [|c cs IH]; simpl.
  - split; [intros H; inversion H | intros (c & H & _); inversion H].
  - destruct (skipped c) eqn:Hs.
    + rewrite IH. split.
      * intros (c' & Hc & Hs' & Hn). exists c'.
        split; [now constructor | now split].
      * intros (c' & Hc & Hs' & Hn). exists c'.
        apply elem_of_cons in Hc. destruct Hc as [-> | Hc]; [congruence|].
        now repeat split.
    + rewrite elem_of_app, IH. split.
      * intros [Hn | (c' & Hc & Hs' & Hn)].
        -- exists c. split; [constructor | now split].
        -- exists c'. split; [now constructor | now split].
      * intros (c' & Hc & Hs' & Hn).
        apply elem_of_cons in Hc. destruct Hc as [-> | Hc]; [now left|].
        right. exists c'. now repeat split.
Qed.

Lemma seeAlso_targets_documented sort_Sort cmd :
  (forall l, Permutation (sort_Sort l) l) ->
  forall parents node target,
    node ∈ doc_nodes parents cmd ->
    target ∈ seeAlso_targets sort_Sort node ->
    target ∈ doc_nodes parents cmd
    \/ (node = (parents, cmd) /\ target ∈ seeAlso_parent_node parents).
Proof.
  intros Hp. induction cmd as [cmd IH] using Command_tree_ind.
  intros parents node target Hn Ht. rewrite doc_nodes_eq in Hn |- *.
  apply elem_of_app in Hn. destruct Hn as [Hn | Hn].
  - left. apply doc_nodes_loop_elem in Hn. destruct Hn as (c & Hc & Hs & Hn).
    rewrite Forall_forall in IH.
    destruct (IH c Hc (cmd :: parents) node target Hn Ht) as [H | [-> H]].
    + apply elem_of_app. left.
      apply doc_nodes_loop_elem. exists c. now repeat split.
    + simpl in H. apply list_elem_of_singleton in H. subst target.
      apply elem_of_app. right. constructor.
  - apply list_elem_of_singleton in Hn. subst node.
    unfold seeAlso_targets in Ht. cbn [fst snd] in Ht.
    apply elem_of_app in Ht. destruct Ht as [Ht | Ht].
    + right. split; [reflexivity | exact Ht].
    + left. unfold seeAlso_children_nodes in Ht.
      apply list_elem_of_fmap in Ht. destruct Ht as (c & -> & Hc).
      apply list_elem_of_filter in Hc. destruct Hc as [Hs Hc].
      rewrite Hp in Hc. apply elem_of_app. left.
      apply doc_nodes_loop_elem. exists c.
      split; [exact Hc|]. split; [exact Hs | apply doc_nodes_last].
Qed.

Lemma plan_has_page sort_Sort filepath_Join dir nodes node :
  node ∈ nodes ->
  (CallCreate (filepath_Join dir (basename node)), None)
    ∈ flat_map (page_calls sort_Sort filepath_Join dir) nodes
  /\ (CallWrite (filepath_Join dir (basename node))
        (genMarkdownPage sort_Sort node.1 node.2), None)
    ∈ flat_map (page_calls sort_Sort filepath_Join dir) nodes.
Proof.
  induction 1 as [node nodes | node n nodes _ IH]; simpl.
  - split; [constructor | constructor; constructor].
  - destruct IH as [H1 H2]. split; now do 3 constructor.
Qed.

(** X23.  After a run of [genMarkdownDoc] on a root command that returns
    nil, with a [sort.Sort] that permutes the subcommands, no See-also
    link is left without its page: for every command that has a page,
    the page has been written with the text of [genMarkdownPage], and for
    every command its See-also list links to, the file of that command's
    page has been created. *)
Theorem see_also_links_have_pages {FS} {fsys : FileSystem FS}
  sort_Sort filepath_Join root dir (st st' : DocState FS) :
  (forall l, Permutation (sort_Sort l) l) ->
  genMarkdownDoc sort_Sort filepath_Join [] root dir st = (st', None) ->
  forall node target,
    node ∈ doc_nodes [] root ->
    target ∈ seeAlso_targets sort_Sort node ->
    (CallWrite (filepath_Join dir (basename node))
       (genMarkdownPage sort_Sort node.1 node.2), None) ∈ calls st'
    /\ (CallCreate (filepath_Join dir (basename target)), None) ∈ calls st'.
Proof.
  intros Hp Hrun node target Hn Ht.
  apply genMarkdownDoc_trace in Hrun. destruct Hrun as (tr & -> & Hd).
  simpl in Hd. subst tr.
  destruct (seeAlso_targets_documented sort_Sort root Hp [] node target Hn Ht)
    as [H | [_ H]]; [|inversion H].
  split; apply elem_of_app; right.
  - now apply plan_has_page.
  - now apply plan_has_page.
Qed.

Lemma doc_nodes_path cmd :
  forall parents node,
    node ∈ doc_nodes parents cmd ->
    exists s, CommandPath node.1 node.2 = CommandPath parents cmd +:+ s.
Proof.
  induction cmd as [cmd IH] using Command_tree_ind. intros parents node.
  rewrite doc_nodes_eq, elem_of_app, doc_nodes_loop_elem.
  intros [(c & Hc & _ & Hn) | Hn].
  - rewrite Forall_forall in IH. destruct (IH c Hc _ _ Hn) as (s & ->).
    simpl. rewrite !string_app_assoc. eexists. reflexivity.
  - apply list_elem_of_singleton in Hn. subst node. exists "".
    now rewrite string_app_nil_r.
Qed.

Lemma basename_below_parent cmd parent ancestors node :
  node ∈ doc_nodes (parent :: ancestors) cmd ->
  basename node <> basename (ancestors, parent).
Proof.
  intros Hn. apply doc_nodes_path in Hn. destruct Hn as (s & Hs).
  unfold basename. rewrite Hs. cbn [fst snd CommandPath].
  rewrite !string_app_assoc, !ReplaceAll_space_app, !string_app_assoc.
  intros E. apply (inj (String.app _)) in E. discriminate E.
Qed.

(** X24.  Run on a command that has a parent, with a [filepath.Join] that
    keeps distinct names distinct, [genMarkdownDoc] never creates the
    page of the parent, although the See-also list of the command links
    to it. *)
Theorem subcommand_run_never_creates_parent_page
  {FS} {fsys : FileSystem FS} sort_Sort filepath_Join
  parent ancestors cmd dir (st st' : DocState FS) r :
  Inj (=) (=) (filepath_Join dir) ->
  genMarkdownDoc sort_Sort filepath_Join (parent :: ancestors) cmd dir st
    = (st', r) ->
  exists tr,
    calls st' = calls st ++ tr
    /\ (ancestors, parent) ∈ seeAlso_targets sort_Sort
                               (parent :: ancestors, cmd)
    /\ forall e, (CallCreate (filepath_Join dir (basename (ancestors, parent))),
                  e) ∉ tr.
Proof.
  intros Hinj Hrun. apply genMarkdownDoc_trace in Hrun.
  destruct Hrun as (tr & Ht & Hd). exists tr. split; [exact Ht|].
  split; [constructor|].
  assert (Hplan : forall nodes f e,
    (CallCreate f, e) ∈ flat_map (page_calls sort_Sort filepath_Join dir) nodes
    -> exists node, node ∈ nodes /\ f = filepath_Join dir (basename node)).
  { intros nodes f e. rewrite list_elem_of_In, in_flat_map.
    intros (node & Hn & Hin). exists node.
    split; [now apply list_elem_of_In|].
    simpl in Hin. destruct Hin as [[= <- _] | [[=] | [[=] | []]]].
    reflexivity. }
  assert (Hno : forall node f (e : option error),
    node ∈ doc_nodes (parent :: ancestors) cmd ->
    f = filepath_Join dir (basename node) ->
    f <> filepath_Join dir (basename (ancestors, parent))).
  { intros node f e0 Hn -> E. apply Hinj in E.
    exact (basename_below_parent _ _ _ _ Hn E). }
  intros e Hf. destruct r as [err|]; simpl in Hd.
  - destruct Hd as (dn & node & rest & ftr & Hnodes & Hfail & ->).
    apply elem_of_app in Hf. destruct Hf as [Hf | Hf].
    + apply Hplan in Hf. destruct Hf as (n & Hn & E).
      refine (Hno n _ e _ E eq_refl).
      rewrite Hnodes. apply elem_of_app. now left.
    + assert (Hin : node ∈ doc_nodes (parent :: ancestors) cmd).
      { rewrite Hnodes. apply elem_of_app. right. constructor. }
      assert (E : filepath_Join dir (basename (ancestors, parent))
                  = filepath_Join dir (basename node)).
      { destruct Hfail as [-> | ->].
        - apply list_elem_of_singleton in Hf. now injection Hf.
        - apply elem_of_cons in Hf. destruct Hf as [Hf | Hf];
            [now injection Hf|].
          apply elem_of_cons in Hf. destruct Hf as [Hf | Hf]; [discriminate|].
          apply list_elem_of_singleton in Hf. discriminate. }
      exact (Hno node _ e Hin E eq_refl).
  - subst tr. apply Hplan in Hf. destruct Hf as (n & Hn & E).
    exact (Hno n _ e Hn E eq_refl).
Qed.

(** *** Concrete trees *)

Lemma insert_byName_Permutation c l : Permutation (insert_byName c l) (c :: l).
Proof.
  induction l as [|x l IH]; simpl; [reflexivity|].
  destruct (byName_Less c x); [reflexivity|].
  rewrite IH. apply perm_swap.
Qed.

Lemma insertion_sort_Permutation l : Permutation (insertion_sort l) l.
Proof.
  induction l as [|c l IH]; simpl; [reflexivity|].
  rewrite insert_byName_Permutation. now constructor.
Qed.

Lemma joinPath_inj dir : Inj (=) (=) (joinPath dir).
Proof.
  intros a b E. unfold joinPath in E.
  apply (inj (String.app dir)) in E. now injection E.
Qed.

Lemma hasSeeAlso_iff_list_has_an_entry_witness :
  hasSeeAlso [] rootCmd = true <->
  seeAlso_targets insertion_sort ([], rootCmd) <> [].
Proof.
  apply (hasSeeAlso_iff_list_has_an_entry insertion_sort [] rootCmd).
  apply insertion_sort_Permutation.
Defined.

Lemma seeAlso_children_in_name_order_witness :
  Permutation (snd <$> seeAlso_children_nodes insertion_sort [] rootCmd)
    (filter (fun c => skipped c = false) (Commands rootCmd))
  /\ StronglySorted (fun a b => byName_Less b a = false)
       (snd <$> seeAlso_children_nodes insertion_sort [] rootCmd)
  /\ Forall (fun n => n.1 = [rootCmd])
       (seeAlso_children_nodes insertion_sort [] rootCmd).
Proof.
  apply (seeAlso_children_in_name_order insertion_sort [] rootCmd).
  - apply insertion_sort_Permutation.
  - vm_compute. repeat constructor.
Defined.

Lemma genMarkdownDoc_writes_pages_in_order_witness :
  exists tr,
    calls (docRun []).1 = calls emptyDoc ++ tr
    /\ tr.*1 `prefix_of`
         (flat_map (page_calls insertion_sort joinPath "docs")
                   (doc_nodes [] rootCmd)).*1
    /\ ((docRun []).2 = None ->
        tr = flat_map (page_calls insertion_sort joinPath "docs")
                      (doc_nodes [] rootCmd)).
Proof.
  apply (genMarkdownDoc_writes_pages_in_order (fsys := memFileSystem [] 1000)
           insertion_sort joinPath [] rootCmd "docs" emptyDoc).
  vm_compute. reflexivity.
Defined.

Lemma genMarkdownDoc_returns_first_error_witness :
  exists tr,
    calls (docRun ["docs/polycli_hash.md"]).1 = calls emptyDoc ++ tr
    /\ exists pre call post,
         tr = pre ++ (call, Some "permission denied") :: post
         /\ Forall succeeded pre
         /\ (post = [] \/ exists f, post = [(CallClose f, None)]).
Proof.
  apply (genMarkdownDoc_returns_first_error
           (fsys := memFileSystem ["docs/polycli_hash.md"] 1000)
           insertion_sort joinPath [] rootCmd "docs" emptyDoc
           (docRun ["docs/polycli_hash.md"]).1 (Some "permission denied")).
  vm_compute. reflexivity.
Defined.

Lemma genMarkdownDoc_closes_created_files_witness :
  exists tr,
    calls (docRun []).1 = calls emptyDoc ++ tr
    /\ forall i f,
         tr !! i = Some (CallCreate f, None) ->
         (exists content err, tr !! (i + 1)%nat
                                = Some (CallWrite f content, err))
         /\ tr !! (i + 2)%nat = Some (CallClose f, None).
Proof.
  apply (genMarkdownDoc_closes_created_files (fsys := memFileSystem [] 1000)
           insertion_sort joinPath [] rootCmd "docs" emptyDoc
           (docRun []).1 (docRun []).2).
  vm_compute. reflexivity.
Defined.

Lemma see_also_links_have_pages_witness :
  (CallWrite "docs/polycli.md" (genMarkdownPage insertion_sort [] rootCmd),
   None) ∈ calls (docRun []).1
  /\ (CallCreate "docs/polycli_hash.md", None) ∈ calls (docRun []).1.
Proof.
  apply (see_also_links_have_pages (fsys := memFileSystem [] 1000)
           insertion_sort joinPath rootCmd "docs" emptyDoc (docRun []).1
           insertion_sort_Permutation
           ltac:(vm_compute; reflexivity)
           ([], rootCmd) ([rootCmd], hashCmd)).
  - vm_compute. repeat constructor.
  - vm_compute. repeat constructor.
Defined.

Lemma subcommand_run_never_creates_parent_page_witness :
  exists tr,
    calls subRun.1 = calls emptyDoc ++ tr
    /\ ([], rootCmd) ∈ seeAlso_targets insertion_sort ([rootCmd], hashCmd)
    /\ forall e, (CallCreate (joinPath "docs" (basename ([], rootCmd))), e)
                 ∉ tr.
Proof.
  apply (subcommand_run_never_creates_parent_page
           (fsys := memFileSystem [] 1000) insertion_sort joinPath
           rootCmd [] hashCmd "docs" emptyDoc subRun.1 subRun.2).
  - apply joinPath_inj.
  - vm_compute. reflexivity.
Defined.
